(** * bartdeboer/flag: tokenizer, field coercion and resolution passes

    A shallow embedding of [args.go] (the argument tokenizer) and of
    [flags.go] (SetField, SetDefaults, ParseEnv, ParseArgs, ParseAll,
    PrintDefaults), together with the parts of Go's [strings], [unicode/utf8],
    [strconv] and [reflect] packages that this code calls.

    Go strings are byte sequences: they are modelled as [string] (a list of
    [ascii] bytes).  Go maps [map[string]string] are [gmap string string].
    Integers are [Z] with the wrap-around of the destination width written
    out. *)

From Stdlib Require Import ZArith Ascii String List Bool Lia.
From stdpp Require Import base option list strings gmap fin_maps.

Local Open Scope string_scope.

(** ** Errors

    Go [error] values are kept structured instead of being flattened to
    their message, so that what an error names can be read off. *)

Inductive numErr := ErrSyntax | ErrRange | ErrBase | ErrBitSize.

Inductive error :=
| NumError (Func Num : string) (Err : numErr)    (* *strconv.NumError *)
| errorString (msg : string)                     (* errors.New(msg) *)
| Errorf (format : string) (names : list string) (cause : error).
    (* fmt.Errorf(format, names..., cause): the [%s] operands, then the
       error printed by the final [%v] *)

(** ** package strings *)
Module Strings.

(** [s[n:]] and [s[:n]] on bytes. *)
Fixpoint from (n : nat) (s : string) : string :=
  match n, s with
  | O, _ => s
  | S n', String _ s' => from n' s'
  | S _, EmptyString => EmptyString
  end.

Fixpoint upto (n : nat) (s : string) : string :=
  match n, s with
  | O, _ => EmptyString
  | S n', String c s' => String c (upto n' s')
  | S _, EmptyString => EmptyString
  end.

(** [s[lo:hi]] *)
Definition slice (lo hi : nat) (s : string) : string := from lo (upto hi s).

Fixpoint HasPrefix (s prefix : string) {struct prefix} : bool :=
  match prefix, s with
  | EmptyString, _ => true
  | String p prefix', String c s' => if Ascii.eqb c p then HasPrefix s' prefix' else false
  | String _ _, EmptyString => false
  end.

(** [Index] returns the position of the first instance of [substr], or
    [None] where Go returns -1. *)
Fixpoint Index (s substr : string) : option nat :=
  if HasPrefix s substr then Some O
  else match s with
       | EmptyString => None
       | String _ s' => S <$> Index s' substr
       end.

Definition Contains (s substr : string) : bool :=
  match Index s substr with Some _ => true | None => false end.

(** [Count] for a non-empty separator: non-overlapping instances. The
    loop re-slices [s] past each instance; [fuel] bounds it by [len(s)]. *)
Fixpoint countLoop (fuel : nat) (s sep : string) : nat :=
  match fuel with
  | O => O
  | S fuel' =>
      match Index s sep with
      | None => O
      | Some i => S (countLoop fuel' (from (i + String.length sep) s) sep)
      end
  end.

Definition Count (s sep : string) : nat := countLoop (String.length s) s sep.

(** The loop of [genSplit]: at most [k] cuts, then the rest. *)
Fixpoint splitLoop (k : nat) (s sep : string) : list string :=
  match k with
  | O => [s]
  | S k' =>
      match Index s sep with
      | None => [s]
      | Some m => upto m s :: splitLoop k' (from (m + String.length sep) s) sep
      end
  end.

(** [genSplit(s, sep, 0, n)] for a non-empty [sep] (the only separators
    this program passes are "=" and ","). *)
Definition genSplit (s sep : string) (n : Z) : list string :=
  if (n =? 0)%Z then []
  else
    let n1 := (if n <? 0 then Z.of_nat (Count s sep) + 1 else n)%Z in
    let n2 := (if Z.of_nat (String.length s) + 1 <? n1
               then Z.of_nat (String.length s) + 1 else n1)%Z in
    splitLoop (Z.to_nat (n2 - 1)) s sep.

Definition SplitN (s sep : string) (n : Z) : list string := genSplit s sep n.
Definition Split (s sep : string) : list string := genSplit s sep (-1).

End Strings.

(** ** package unicode/utf8 *)
Module Utf8.
Local Open Scope Z_scope.

Definition byte (c : ascii) : Z := Z.of_N (N_of_ascii c).
Definition chr (b : Z) : ascii := ascii_of_N (Z.to_N b).

Definition RuneError : Z := 0xFFFD.
Definition MaxRune : Z := 0x10FFFF.

(** The [first] table of the decoder, as (size, lowest and highest
    accepted second byte); [None] for a byte that cannot start a
    multi-byte sequence. *)
Definition first (b : Z) : option (nat * Z * Z) :=
  if b <? 0xC2 then None
  else if b <=? 0xDF then Some (2%nat, 0x80, 0xBF)
  else if b =? 0xE0 then Some (3%nat, 0xA0, 0xBF)
  else if b <=? 0xEC then Some (3%nat, 0x80, 0xBF)
  else if b =? 0xED then Some (3%nat, 0x80, 0x9F)
  else if b <=? 0xEF then Some (3%nat, 0x80, 0xBF)
  else if b =? 0xF0 then Some (4%nat, 0x90, 0xBF)
  else if b <=? 0xF3 then Some (4%nat, 0x80, 0xBF)
  else if b =? 0xF4 then Some (4%nat, 0x80, 0x8F)
  else None.

Definition cont (b : Z) : bool := (0x80 <=? b) && (b <=? 0xBF).

(** [DecodeRuneInString]: the rune and its width in bytes. *)
Definition DecodeRuneInString (s : string) : Z * nat :=
  match s with
  | EmptyString => (RuneError, 0%nat)
  | String c0 t0 =>
      let s0 := byte c0 in
      if s0 <? 0x80 then (s0, 1%nat)
      else
        match first s0 with
        | None => (RuneError, 1%nat)
        | Some (sz, lo, hi) =>
            match t0 with
            | EmptyString => (RuneError, 1%nat)
            | String c1 t1 =>
                let s1 := byte c1 in
                if (s1 <? lo) || (hi <? s1) then (RuneError, 1%nat)
                else if (sz <=? 2)%nat
                then (Z.lor (Z.shiftl (Z.land s0 0x1F) 6) (Z.land s1 0x3F), 2%nat)
                else
                  match t1 with
                  | EmptyString => (RuneError, 1%nat)
                  | String c2 t2 =>
                      let s2 := byte c2 in
                      if negb (cont s2) then (RuneError, 1%nat)
                      else if (sz <=? 3)%nat
                      then (Z.lor (Z.lor (Z.shiftl (Z.land s0 0x0F) 12)
                                         (Z.shiftl (Z.land s1 0x3F) 6))
                                  (Z.land s2 0x3F), 3%nat)
                      else
                        match t2 with
                        | EmptyString => (RuneError, 1%nat)
                        | String c3 _ =>
                            let s3 := byte c3 in
                            if negb (cont s3) then (RuneError, 1%nat)
                            else (Z.lor (Z.lor (Z.lor (Z.shiftl (Z.land s0 0x07) 18)
                                                      (Z.shiftl (Z.land s1 0x3F) 12))
                                               (Z.shiftl (Z.land s2 0x3F) 6))
                                        (Z.land s3 0x3F), 4%nat)
                        end
                  end
            end
        end
  end.

Definition bytes (l : list Z) : string :=
  fold_right (fun b acc => String (chr b) acc) EmptyString l.

(** The conversion [string(r)] of a rune: its UTF-8 encoding, with
    surrogates and out-of-range values replaced by U+FFFD. *)
Definition encode3 (r : Z) : string :=
  bytes [Z.lor 0xE0 (Z.shiftr r 12);
         Z.lor 0x80 (Z.land (Z.shiftr r 6) 0x3F);
         Z.lor 0x80 (Z.land r 0x3F)].

Definition string_of_rune (r : Z) : string :=
  if (0 <=? r) && (r <? 0x80) then bytes [r]
  else if (0 <=? r) && (r <? 0x800)
  then bytes [Z.lor 0xC0 (Z.shiftr r 6); Z.lor 0x80 (Z.land r 0x3F)]
  else if (r <? 0) || (MaxRune <? r) || ((0xD800 <=? r) && (r <=? 0xDFFF))
  then encode3 RuneError
  else if r <? 0x10000 then encode3 r
  else bytes [Z.lor 0xF0 (Z.shiftr r 18);
              Z.lor 0x80 (Z.land (Z.shiftr r 12) 0x3F);
              Z.lor 0x80 (Z.land (Z.shiftr r 6) 0x3F);
              Z.lor 0x80 (Z.land r 0x3F)].

(** The runes visited by [for _, r := range s]. Each step consumes at
    least one byte, so [len(s)] steps are enough. *)
Fixpoint rangeLoop (fuel : nat) (s : string) : list Z :=
  match fuel, s with
  | O, _ => []
  | _, EmptyString => []
  | S fuel', String _ _ =>
      let '(r, w) := DecodeRuneInString s in
      r :: rangeLoop fuel' (Strings.from w s)
  end.

Definition range (s : string) : list Z := rangeLoop (String.length s) s.

End Utf8.

(** ** Fixed-width integers *)
Module Wrap.
Local Open Scope Z_scope.

(** Conversion to an unsigned and to a two's-complement signed integer
    of [bits] bits. *)
Definition toUint (bits x : Z) : Z := x mod 2 ^ bits.
Definition toInt (bits x : Z) : Z :=
  (x + 2 ^ (bits - 1)) mod 2 ^ bits - 2 ^ (bits - 1).

End Wrap.

(** ** package strconv *)
Module Strconv.
Local Open Scope Z_scope.

Definition IntSize : Z := 64.
Definition maxUint64 : Z := 2 ^ 64 - 1.

Definition syntaxError (fn str : string) : error := NumError fn str ErrSyntax.
Definition rangeError (fn str : string) : error := NumError fn str ErrRange.
Definition baseError (fn str : string) : error := NumError fn str ErrBase.
Definition bitSizeError (fn str : string) : error := NumError fn str ErrBitSize.

(** [lower(c)] is [c | ('x' - 'X')]. *)
Definition lower (c : Z) : Z := Z.lor c 0x20.

(** The digit a byte stands for: the [switch] inside the loop of
    [ParseUint] ([None] is its [default] case). *)
Definition digit (c : Z) : option Z :=
  if (48 <=? c) && (c <=? 57) then Some (c - 48)
  else if (97 <=? lower c) && (lower c <=? 122) then Some (lower c - 97 + 10)
  else None.

(** The loop [for _, c := range []byte(s)] of [ParseUint]; [n] is the
    accumulator, a uint64. *)
Fixpoint uintLoop (s0 : string) (base cutoff maxVal : Z) (s : string) (n : Z)
  : Z * option error :=
  match s with
  | EmptyString => (n, None)
  | String ch rest =>
      match digit (Utf8.byte ch) with
      | None => (0, Some (syntaxError "ParseUint" s0))
      | Some d =>
          if base <=? d then (0, Some (syntaxError "ParseUint" s0))
          else if cutoff <=? n then (maxVal, Some (rangeError "ParseUint" s0))
          else
            let n' := Wrap.toUint 64 (n * base) in
            let n1 := Wrap.toUint 64 (n' + d) in
            if (n1 <? n') || (maxVal <? n1)
            then (maxVal, Some (rangeError "ParseUint" s0))
            else uintLoop s0 base cutoff maxVal rest n1
      end
  end.

(** [ParseUint(s, base, bitSize)] for an explicit base between 2 and 36.
    Base 0 (prefix detection, underscores) is never passed by this
    program and is not modelled: it is answered like an invalid base. *)
Definition ParseUint (s : string) (base bitSize : Z) : Z * option error :=
  if String.eqb s "" then (0, Some (syntaxError "ParseUint" s))
  else if negb ((2 <=? base) && (base <=? 36)) then (0, Some (baseError "ParseUint" s))
  else
    let bitSize := if bitSize =? 0 then IntSize else bitSize in
    if (bitSize <? 0) || (64 <? bitSize) then (0, Some (bitSizeError "ParseUint" s))
    else
      let cutoff := maxUint64 / base + 1 in
      let maxVal := Wrap.toUint 64 (Z.shiftl 1 bitSize) - 1 in
      let maxVal := Wrap.toUint 64 maxVal in
      uintLoop s base cutoff maxVal s 0.

Definition isRange (e : option error) : bool :=
  match e with Some (NumError _ _ ErrRange) => true | _ => false end.

(** The two results of [ParseInt] once [ParseUint] has answered. *)
Definition retag (s0 : string) (err : option error) : option error :=
  match err with
  | Some (NumError _ _ e) => Some (NumError "ParseInt" s0 e)
  | other => other
  end.

Definition ParseInt (s : string) (base bitSize : Z) : Z * option error :=
  match s with
  | EmptyString => (0, Some (syntaxError "ParseInt" s))
  | String c0 t =>
      let s0 := s in
      (* Pick off leading sign. *)
      let '(neg, s) :=
        if Ascii.eqb c0 "+" then (false, t)
        else if Ascii.eqb c0 "-" then (true, t)
        else (false, s) in
      (* Convert unsigned and check range. *)
      let '(un, err) := ParseUint s base bitSize in
      if (match err with Some _ => true | None => false end) && negb (isRange err)
      then (0, retag s0 err)
      else
        let bitSize := if bitSize =? 0 then IntSize else bitSize in
        let cutoff := Wrap.toUint 64 (Z.shiftl 1 (bitSize - 1)) in
        if negb neg && (cutoff <=? un)
        then (Wrap.toInt 64 (cutoff - 1), Some (rangeError "ParseInt" s0))
        else if neg && (cutoff <? un)
        then (Wrap.toInt 64 (- Wrap.toInt 64 cutoff), Some (rangeError "ParseInt" s0))
        else
          let n := Wrap.toInt 64 un in
          (if neg then Wrap.toInt 64 (- n) else n, None)
  end.

Definition ParseBool (str : string) : bool * option error :=
  if existsb (String.eqb str) ["1"; "t"; "T"; "TRUE"; "true"; "True"] then (true, None)
  else if existsb (String.eqb str) ["0"; "f"; "F"; "FALSE"; "false"; "False"] then (false, None)
  else (false, Some (syntaxError "ParseBool" str)).

End Strconv.

(** ** args.go: the tokenizer *)
Module Args.
Import Strings.

Abbreviation flagmap := (gmap string string).

(** The body of the loop [for i < len(args)] for the token [arg = args[i]];
    [next] is [args[i+1]] when [i+1 < len(args)].  It returns whether the
    next token was consumed as a value (the extra [i++]) and the updated
    outputs.  [parts[0]] and [parts[1]] are read with a default: Go's bound
    check cannot fail there, since [SplitN] gives two parts whenever
    [Contains] holds. *)
Definition body (arg : string) (next : option string)
    (positionalArgs : list string) (flags : flagmap)
  : bool * list string * flagmap :=
  let nextArgIsValue :=
    match next with Some a => negb (HasPrefix a "-") | None => false end in
  if HasPrefix arg "--" then
    let key := from 2 arg in
    if Contains key "=" then
      (* Handle --key=value *)
      let parts := SplitN key "=" 2 in
      (false, positionalArgs, <[nth 0 parts "" := nth 1 parts ""]> flags)
    else if nextArgIsValue then
      (* Handle --key value *)
      (true, positionalArgs, <[key := default "" next]> flags)
    else
      (* Handle --key *)
      (false, positionalArgs, <[key := ""]> flags)
  else if HasPrefix arg "-" && (1 <? String.length arg)%nat then
    if (String.length arg =? 2)%nat || Contains (from 2 arg) "=" then
      (* Handle -k value or -k=value *)
      if Contains (from 2 arg) "=" then
        let parts := SplitN (from 2 arg) "=" 2 in
        (false, positionalArgs, <[nth 0 parts "" := nth 1 parts ""]> flags)
      else if nextArgIsValue then
        (true, positionalArgs, <[slice 1 2 arg := default "" next]> flags)
      else
        (false, positionalArgs, <[slice 1 2 arg := ""]> flags)
    else
      (* Handle combined flags like -abc *)
      (false, positionalArgs,
       foldl (fun fl r => <[Utf8.string_of_rune r := ""]> fl) flags
             (Utf8.range (from 1 arg)))
  else
    (* Positional arguments *)
    (false, (positionalArgs ++ [arg])%list, flags).

(** The loop with its cursor [i].  Every iteration advances [i], so
    [len(args)] iterations are enough ([fuel]). *)
Fixpoint run (fuel : nat) (args : list string) (i : nat)
    (positionalArgs : list string) (flags : flagmap) : list string * flagmap :=
  match fuel with
  | O => (positionalArgs, flags)
  | S fuel' =>
      match args !! i with
      | None => (positionalArgs, flags)
      | Some arg =>
          let '(skip, positionalArgs, flags) :=
            body arg (args !! S i) positionalArgs flags in
          run fuel' args (if skip then S (S i) else S i) positionalArgs flags
      end
  end.

Definition ParseArgs (args : list string) : list string * flagmap :=
  run (length args) args 0 [] ∅.

End Args.

(** ** package reflect: field descriptors and field slots *)
Module Reflect.

Inductive width := W | W8 | W16 | W32 | W64.

(** [int] and [uint] have [strconv.IntSize] bits: the development fixes a
    64-bit target. *)
Definition bits (w : width) : Z :=
  match w with W => Strconv.IntSize | W8 => 8 | W16 => 16 | W32 => 32 | W64 => 64 end.

Inductive Kind :=
| KBool | KInt (w : width) | KUint (w : width) | KUintptr
| KFloat32 | KFloat64 | KComplex64 | KComplex128
| KArray | KChan | KFunc | KInterface | KMap | KPointer | KSlice
| KString | KStruct | KUnsafePointer.

(** What a field slot holds.  A float is kept as its IEEE-754 bit
    pattern; values of the kinds SetField has no rule for are opaque. *)
Inductive Value :=
| VString (s : string)
| VInt (n : Z)
| VUint (n : Z)
| VBool (b : bool)
| VFloat (pattern : Z)
| VStrings (l : list string)
| VOther (id : Z).

(** What the code asks of [field.Type().Elem()]:
    - its name and kind;
    - [eUnmarshalText]: [Some u] when the pointer type [*Elem] implements
      [encoding.TextUnmarshaler], [u text] being what [UnmarshalText] does
      on a pointer to a fresh zero [Elem] (the error it returns, or the
      decoded [Elem] value);
    - [eAssignable]: whether a value of type [Elem] is assignable to the
      enclosing type.  Go's assignability rules make this [false] for
      every pointer type that has the method. *)
Record ElemType := {
  eName : string;
  eKind : Kind;
  eUnmarshalText : option (string -> error + Value);
  eAssignable : bool
}.

(** Only array, channel, map, pointer and slice types have an [Elem]. *)
Inductive Shape :=
| SBool | SInt (w : width) | SUint (w : width) | SUintptr
| SFloat32 | SFloat64 | SComplex64 | SComplex128
| SFunc | SInterface | SString | SStruct | SUnsafePointer
| SArray (e : ElemType) | SChan (e : ElemType) | SMap (e : ElemType)
| SPointer (e : ElemType) | SSlice (e : ElemType).

Record rtype := {
  Name : string;                        (* Type.Name(), empty for an unnamed type *)
  shape : Shape;
  ImplementsTextUnmarshaler : bool      (* Type.Implements(encoding.TextUnmarshaler) *)
}.

Definition kindOf (s : Shape) : Kind :=
  match s with
  | SBool => KBool | SInt w => KInt w | SUint w => KUint w | SUintptr => KUintptr
  | SFloat32 => KFloat32 | SFloat64 => KFloat64
  | SComplex64 => KComplex64 | SComplex128 => KComplex128
  | SFunc => KFunc | SInterface => KInterface | SString => KString
  | SStruct => KStruct | SUnsafePointer => KUnsafePointer
  | SArray _ => KArray | SChan _ => KChan | SMap _ => KMap
  | SPointer _ => KPointer | SSlice _ => KSlice
  end.

(** [Type.Elem()]; [None] is the panic "reflect: Elem of invalid type". *)
Definition Elem (t : rtype) : option ElemType :=
  match shape t with
  | SArray e | SChan e | SMap e | SPointer e | SSlice e => Some e
  | _ => None
  end.

Definition TypeKind (t : rtype) : Kind := kindOf (shape t).

(** A struct tag, as its key/value pairs; [Get] answers the empty string
    for a key the tag does not have. *)
Definition StructTag := list (string * string).

Fixpoint Get (tag : StructTag) (key : string) : string :=
  match tag with
  | [] => ""
  | (k, v) :: rest => if String.eqb k key then v else Get rest key
  end.

(** One field of the configuration struct: the [reflect.StructField]
    ([FName], [FType], [Tag]) and the [reflect.Value] of its slot ([Val],
    and [CanSet]: addressable and exported). *)
Record Field := {
  FName : string;
  FType : rtype;
  Tag : StructTag;
  CanSet : bool;
  Val : Value
}.

Definition withVal (f : Field) (v : Value) : Field :=
  {| FName := FName f; FType := FType f; Tag := Tag f; CanSet := CanSet f; Val := v |}.

Definition Kind_of (f : Field) : Kind := TypeKind (FType f).

(** The [config interface{}] argument after [reflect.ValueOf] and the
    [Elem] of a pointer: a struct with its fields, or anything else. *)
Inductive Config :=
| Struct (fields : list Field)
| NotStruct.

Inductive panic :=
| NotSettable            (* a Set on a value that is not settable *)
| ElemOfInvalidType      (* Type.Elem() on a type without element *)
| InterfaceConversion    (* a failed type assertion *)
| NotAssignable.         (* Value.Set with a value of another type *)

End Reflect.

(** ** flags.go *)
Module Flag.
Import Reflect.

(** What is written to standard output, one item per call:
    [Println s] for [fmt.Println(s)], and [PrintfEntry e0 w e1 e2] for
    [fmt.Printf("  %s %-*s  %s\n", e0, w, e1, e2)]. *)
Inductive Output :=
| Println (s : string)
| PrintfEntry (e0 : string) (w : nat) (e1 e2 : string).

(** The result of a call that may panic. *)
Inductive Result (A : Type) :=
| Return (a : A)
| Panics (p : panic).
Arguments Return {A} a.
Arguments Panics {A} p.

(** The result of [SetField]: the field as assigned ([nil] returned), the
    error returned (the field is untouched), or a panic. *)
Inductive SetResult :=
| SetOk (f : Field)
| SetErr (e : error)
| SetPanic (p : panic).

(** The setters [field.SetString], [SetInt], ... and [field.Set]: they
    panic on a value that is not settable. *)
Definition set (field : Field) (v : Value) : SetResult :=
  if CanSet field then SetOk (withVal field v) else SetPanic NotSettable.

(** The tag value made of two double-quote characters. *)
Definition quotes : string := String "034" (String "034" "").

(** The state the passes act on: the configuration struct behind the
    [config] argument, mutated in place, and standard output. *)
Record World := {
  config : Config;
  stdout : list Output
}.

Section WithLibraries.

(** Collaborators from outside this repository: the name-casing
    functions of package [words], [strconv.ParseFloat] (its result a
    bit pattern) and the conversion [float32(x)]. *)
Variable ToKebabCase ToConstantCase : string -> string.
Variable ParseFloat : string -> Z -> Z * option error.
Variable float32 : Z -> Z.

(** SetField sets the field based on its type and the string value
    provided. *)
Definition SetField (field : Field) (value : string) (exists_ : bool) : SetResult :=
  match Kind_of field with
  | KString => set field (VString value)
  | KInt w =>
      let '(intValue, err) := Strconv.ParseInt value 10 64 in
      match err with
      | Some e => SetErr e
      | None => set field (VInt (Wrap.toInt (bits w) intValue))
      end
  | KUint w =>
      let '(uintValue, err) := Strconv.ParseUint value 10 64 in
      match err with
      | Some e => SetErr e
      | None => set field (VUint (Wrap.toUint (bits w) uintValue))
      end
  | KBool =>
      if exists_ && String.eqb value "" then set field (VBool true)
      else
        let '(boolValue, err) := Strconv.ParseBool value in
        match err with
        | Some e => SetErr e
        | None => set field (VBool boolValue)
        end
  | KFloat32 | KFloat64 =>
      let '(floatValue, err) := ParseFloat value 64 in
      match err with
      | Some e => SetErr e
      | None =>
          set field (VFloat (match Kind_of field with
                             | KFloat32 => float32 floatValue
                             | _ => floatValue
                             end))
      end
  | KSlice =>
      (* Assumes comma-separated values for slice types *)
      match Elem (FType field) with
      | Some elemType =>
          match eKind elemType with
          | KString =>
              (* field.Set(reflect.ValueOf(strings.Split(value, ","))): a
                 []string is assignable to the field's type when the
                 element type is string itself, not a type defined from it *)
              if CanSet field
              then if String.eqb (eName elemType) "string"
                   then SetOk (withVal field (VStrings (Strings.Split value ",")))
                   else SetPanic NotAssignable
              else SetPanic NotSettable
          | _ => SetErr (errorString "complex slice types are not supported yet")
          end
      | None => SetPanic ElemOfInvalidType
      end
  | _ =>
      if ImplementsTextUnmarshaler (FType field) then
        (* Handle types that implement encoding.TextUnmarshaler *)
        match Elem (FType field) with
        | None => SetPanic ElemOfInvalidType
        | Some elemType =>
            match eUnmarshalText elemType with
            | None => SetPanic InterfaceConversion
            | Some UnmarshalText =>
                match UnmarshalText value with
                | inl err => SetErr err
                | inr decoded =>
                    if CanSet field
                    then if eAssignable elemType
                         then SetOk (withVal field decoded)
                         else SetPanic NotAssignable
                    else SetPanic NotSettable
                end
            end
        end
      else SetErr (errorString "unsupported flag type")
  end.

(** The three columns PrintDefaults computes for one field. *)
Definition entryOf (field : Field) : string * string * string :=
  let usage := Get (Tag field) "usage" in
  let short := Get (Tag field) "short" in
  let def := Get (Tag field) "default" in
  let typeName :=
    match shape (FType field) with
    | SPointer e => "*" ++ eName e
    | _ => Name (FType field)
    end in
  let shortPart := if String.eqb short "" then "  " else "-" ++ short in
  let longPart := "--" ++ ToKebabCase (FName field) ++ " " ++ typeName in
  let defaultStr :=
    if negb (String.eqb def "") && negb (String.eqb def "0")
       && negb (String.eqb def "false") && negb (String.eqb def quotes)
    then " (default " ++ def ++ ")" else "" in
  let fullUsage := usage ++ defaultStr in
  (shortPart, longPart, fullUsage).

Definition maxNameTypeLength (entries : list (string * string * string)) : nat :=
  foldl (fun m e => if (m <? String.length (snd (fst e)))%nat
                    then String.length (snd (fst e)) else m) 0%nat entries.

(** PrintDefaults generates a help page for the CLI based on struct
    tags with default values and types. *)
Definition PrintDefaults (config : Config) (stdout : list Output) : list Output :=
  match config with
  | NotStruct => stdout ++ [Println "Expected a struct"]
  | Struct fields =>
      let entries := map entryOf fields in
      stdout ++ Println "Usage:"
             :: map (fun e => PrintfEntry (fst (fst e)) (maxNameTypeLength entries)
                                          (snd (fst e)) (snd e)) entries
  end.

(** The loop [for i := 0; i < v.NumField(); i++] of SetDefaults, with
    [n] iterations left. *)
Fixpoint defaultsLoop (n i : nat) (fields : list Field)
  : Result (option error) * list Field :=
  match n with
  | O => (Return None, fields)
  | S n' =>
      match fields !! i with
      | None => (Return None, fields)
      | Some field =>
          if negb (CanSet field) then
            defaultsLoop n' (S i) fields (* Skip unexported fields *)
          else
            let defaultValue := Get (Tag field) "default" in
            if String.eqb defaultValue "" then defaultsLoop n' (S i) fields
            else
              match SetField field defaultValue false with
              | SetOk field' => defaultsLoop n' (S i) (<[i := field']> fields)
              | SetErr err =>
                  (Return (Some (Errorf "error setting default for field %s: %v"
                                        [FName field] err)), fields)
              | SetPanic p => (Panics p, fields)
              end
      end
  end.

(** SetDefaults sets default values for fields in the config struct
    based on struct tags. *)
Definition SetDefaults (w : World) : Result (option error) * World :=
  match config w with
  | NotStruct => (Return (Some (errorString "config must be a pointer to a struct")), w)
  | Struct fields =>
      let '(r, fields') := defaultsLoop (length fields) 0 fields in
      (r, {| config := Struct fields'; stdout := stdout w |})
  end.

(** The environment-variable name of a field. *)
Definition envNameOf (field : Field) : string :=
  let envName := Get (Tag field) "env" in
  if String.eqb envName "" then ToConstantCase (FName field) else envName.

(** The loop of ParseEnv; [env] is the process environment read by
    [os.LookupEnv]. *)
Fixpoint envLoop (env : gmap string string) (n i : nat)
    (fields : list Field) (out : list Output)
  : Result (option error) * list Field * list Output :=
  match n with
  | O => (Return None, fields, out)
  | S n' =>
      match fields !! i with
      | None => (Return None, fields, out)
      | Some field =>
          let envName := envNameOf field in
          match env !! envName with
          | None =>
              (* If environment variable is not set, skip setting the field *)
              envLoop env n' (S i) fields out
          | Some envValue =>
              match SetField field envValue true with
              | SetOk field' => envLoop env n' (S i) (<[i := field']> fields) out
              | SetErr err =>
                  (Return (Some (Errorf "error setting environment variable %s: %v"
                                        [envName] err)),
                   fields, PrintDefaults (Struct fields) out)
              | SetPanic p => (Panics p, fields, out)
              end
          end
      end
  end.

(** ParseEnv parses environment variables and populates the config
    struct. *)
Definition ParseEnv (env : gmap string string) (w : World)
  : Result (option error) * World :=
  match config w with
  | NotStruct => (Return (Some (errorString "config must be a pointer to a struct")), w)
  | Struct fields =>
      let '(r, fields', out') := envLoop env (length fields) 0 fields (stdout w) in
      (r, {| config := Struct fields'; stdout := out' |})
  end.

(** The long flag name of a field. *)
Definition flagNameOf (field : Field) : string :=
  let flagName := Get (Tag field) "flag" in
  if String.eqb flagName "" then ToKebabCase (FName field) else flagName.

(** The loop of ParseArgs. *)
Fixpoint flagsLoop (flags : gmap string string) (n i : nat)
    (fields : list Field) (out : list Output)
  : Result (option error) * list Field * list Output :=
  match n with
  | O => (Return None, fields, out)
  | S n' =>
      match fields !! i with
      | None => (Return None, fields, out)
      | Some field =>
          let shortName := Get (Tag field) "short" in
          let flagName := flagNameOf field in
          let assigned :=
            match flags !! shortName with
            | Some flagValue => Some (SetField field flagValue true)
            | None =>
                match flags !! flagName with
                | Some flagValue => Some (SetField field flagValue true)
                | None => None
                end
            end in
          match assigned with
          | None => flagsLoop flags n' (S i) fields out
          | Some (SetOk field') => flagsLoop flags n' (S i) (<[i := field']> fields) out
          | Some (SetErr err) =>
              (Return (Some (Errorf "error parsing flag --%s: %v" [flagName] err)),
               fields, PrintDefaults (Struct fields) out)
          | Some (SetPanic p) => (Panics p, fields, out)
          end
      end
  end.

(** Parse parses the CLI arguments and populates the config struct.
    The tokenizer it calls, [ParseArguments], is [Args.ParseArgs].  A
    [nil] slice is [None]. *)
Definition ParseArgs (args : list string) (w : World)
  : Result (option (list string) * option error) * World :=
  let '(outArgs, flags) := Args.ParseArgs args in
  match config w with
  | NotStruct =>
      (Return (None, Some (errorString "config must be a pointer to a struct")), w)
  | Struct fields =>
      let '(r, fields', out') := flagsLoop flags (length fields) 0 fields (stdout w) in
      let w' := {| config := Struct fields'; stdout := out' |} in
      match r with
      | Panics p => (Panics p, w')
      | Return (Some err) => (Return (None, Some err), w')
      | Return None => (Return (Some outArgs, None), w')
      end
  end.

(** The loop [for _, arg := range args] of ParseAll. *)
Definition helpRequested (args : list string) : bool :=
  existsb (fun arg => String.eqb arg "--help" || String.eqb arg "-h") args.

(** ParseAll configures the application settings by setting defaults,
    parsing environment variables, and command-line arguments. It also
    checks for help flags (--help, -h) to display help messages. *)
Definition ParseAll (env : gmap string string) (args : list string) (w : World)
  : Result (option (list string) * option error) * World :=
  match SetDefaults w with
  | (Panics p, w1) => (Panics p, w1)
  | (Return (Some err), w1) =>
      (Return (None, Some (Errorf "error setting default values: %v" [] err)), w1)
  | (Return None, w1) =>
      match ParseEnv env w1 with
      | (Panics p, w2) => (Panics p, w2)
      | (Return (Some err), w2) =>
          (Return (None, Some (Errorf "error parsing environment variables: %v" [] err)), w2)
      | (Return None, w2) =>
          if helpRequested args then
            (Return (None, None),
             {| config := config w2; stdout := PrintDefaults (config w2) (stdout w2) |})
          else
            match ParseArgs args w2 with
            | (Panics p, w3) => (Panics p, w3)
            | (Return (_, Some err), w3) =>
                (Return (None, Some (Errorf "error parsing command-line arguments: %v" [] err)), w3)
            | (Return (outArgs, None), w3) => (Return (outArgs, None), w3)
            end
      end
  end.

End WithLibraries.
End Flag.

(** ** A concrete setting for running the passes

    Stand-ins for the collaborators, used to evaluate the passes on concrete
    configurations.  [ToKebabCase] and [ToConstantCase] split an identifier
    before each upper-case ASCII letter, which is what package [words] does
    on the identifiers of the repository's tests ([PortNumber] gives
    [port-number] and [PORT_NUMBER]).  No configuration evaluated below has
    a float field, so [ParseFloat] and [float32] are never reached. *)
Module Sample.
Import Reflect Flag.

Definition isUpper (c : ascii) : bool :=
  ((65 <=? Utf8.byte c) && (Utf8.byte c <=? 90))%Z.
Definition isLower (c : ascii) : bool :=
  ((97 <=? Utf8.byte c) && (Utf8.byte c <=? 122))%Z.
Definition toLower (c : ascii) : ascii :=
  if isUpper c then Utf8.chr (Utf8.byte c + 32) else c.
Definition toUpper (c : ascii) : ascii :=
  if isLower c then Utf8.chr (Utf8.byte c - 32) else c.

Fixpoint splitCase (sep : string) (conv : ascii -> ascii) (start : bool) (s : string)
  : string :=
  match s with
  | EmptyString => EmptyString
  | String c t =>
      (if isUpper c && negb start then sep else "")
        ++ String (conv c) (splitCase sep conv false t)
  end.

Definition ToKebabCase (s : string) : string := splitCase "-" toLower true s.
Definition ToConstantCase (s : string) : string := splitCase "_" toUpper true s.

Definition ParseFloat (s : string) (bitSize : Z) : Z * option error :=
  (0%Z, Some (NumError "ParseFloat" s ErrSyntax)).
Definition float32 (x : Z) : Z := x.

Abbreviation SetField := (Flag.SetField ParseFloat float32).
Abbreviation PrintDefaults := (Flag.PrintDefaults ToKebabCase).
Abbreviation SetDefaults := (Flag.SetDefaults ParseFloat float32).
Abbreviation ParseEnv := (Flag.ParseEnv ToKebabCase ToConstantCase ParseFloat float32).
Abbreviation ParseArgs := (Flag.ParseArgs ToKebabCase ParseFloat float32).
Abbreviation ParseAll := (Flag.ParseAll ToKebabCase ToConstantCase ParseFloat float32).

(** Types of the repository's tests. *)
Definition int : rtype :=
  {| Name := "int"; shape := SInt W; ImplementsTextUnmarshaler := false |}.
Definition int8 : rtype :=
  {| Name := "int8"; shape := SInt W8; ImplementsTextUnmarshaler := false |}.
Definition bool_ : rtype :=
  {| Name := "bool"; shape := SBool; ImplementsTextUnmarshaler := false |}.
Definition string_ : rtype :=
  {| Name := "string"; shape := SString; ImplementsTextUnmarshaler := false |}.
(** [*int] *)
Definition ptr_int : rtype :=
  {| Name := "";
     shape := SPointer {| eName := "int"; eKind := KInt W;
                          eUnmarshalText := None; eAssignable := false |};
     ImplementsTextUnmarshaler := false |}.

(** An exported field of an addressable struct, holding its zero value. *)
Definition field (name : string) (t : rtype) (tag : StructTag) (zero : Value) : Field :=
  {| FName := name; FType := t; Tag := tag; CanSet := true; Val := zero |}.

Definition world (fields : list Field) : World :=
  {| config := Struct fields; stdout := [] |}.

End Sample.

(** * Definitions for the statements *)

Import Reflect Flag.

(** ** Configurations of the repository's tests and other inputs *)

(** A settable [bool] field holding [false]. *)
Definition boolField : Field := Sample.field "Verbose" Sample.bool_ [] (VBool false).

(** A settable [int] field and a settable [int8] field. *)
Definition intField : Field := Sample.field "Count" Sample.int [] (VInt 0).
Definition int8Field : Field := Sample.field "Level" Sample.int8 [] (VInt 0).

(** [type Mode string] with
    [func (m *Mode) UnmarshalText(b []byte) error], which rejects the empty
    text and otherwise stores the text. *)
Definition Mode_UnmarshalText (text : string) : error + Value :=
  if String.eqb text "" then inl (errorString "empty mode") else inr (VString text).

Definition Mode : ElemType :=
  {| eName := "Mode"; eKind := KString;
     eUnmarshalText := Some Mode_UnmarshalText;
     eAssignable := false |}.

(** [*Mode]: the pointer type has the method, so it implements
    [encoding.TextUnmarshaler]; a [Mode] is not assignable to a [*Mode]. *)
Definition ptr_Mode : rtype :=
  {| Name := ""; shape := SPointer Mode; ImplementsTextUnmarshaler := true |}.

Definition modeField : Field := Sample.field "Mode" ptr_Mode [] (VOther 0).

(** [PortNumber int `default:"8080"`], after the defaults pass. *)
Definition portField : Field :=
  Sample.field "PortNumber" Sample.int [("default", "8080")] (VInt 8080).

(** The configuration and environment of [TestParseAll]. *)
Definition testConfig : list Field :=
  [Sample.field "PortNumber" Sample.int [("default", "8080")] (VInt 0);
   Sample.field "HostName" Sample.string_ [("default", "localhost")] (VString "");
   Sample.field "LogLevel" Sample.string_ [("default", "info")] (VString "")].

Definition testEnv : gmap string string :=
  {[ "PORT_NUMBER" := "3000"; "HOST_NAME" := "example.com" ]}.

Definition testResolved (logLevel : string) : list Field :=
  [Sample.field "PortNumber" Sample.int [("default", "8080")] (VInt 3000);
   Sample.field "HostName" Sample.string_ [("default", "localhost")] (VString "example.com");
   Sample.field "LogLevel" Sample.string_ [("default", "info")] (VString logLevel)].

(** The configuration of [TestParseAll] after the defaults pass. *)
Definition testDefaulted : list Field :=
  [Sample.field "PortNumber" Sample.int [("default", "8080")] (VInt 8080);
   Sample.field "HostName" Sample.string_ [("default", "localhost")] (VString "localhost");
   Sample.field "LogLevel" Sample.string_ [("default", "info")] (VString "info")].

(** [Port int `default:"abc"`]: a default that is not an integer. *)
Definition badDefault : list Field :=
  [Sample.field "Port" Sample.int [("default", "abc")] (VInt 0)].

(** The configuration and arguments of [TestParseTypeError]. *)
Definition timeoutConfig : list Field :=
  [Sample.field "Timeout" Sample.int [("flag", "timeout")] (VInt 0)].

(** [Timeout *int `usage:"Timeout in seconds" short:"t"`], the pointer
    field of [TestPrintDefaults]. *)
Definition timeoutPtrField : Field :=
  Sample.field "Timeout" Sample.ptr_int
    [("usage", "Timeout in seconds"); ("short", "t")] (VOther 0).

(** An unexported [timeout *int `default:"5"`]: not settable. *)
Definition unexportedPtrField : Field :=
  {| FName := "timeout"; FType := Sample.ptr_int; Tag := [("default", "5")];
     CanSet := false; Val := VOther 0 |}.

(** ** Base-10 literals *)

(** What "a valid base-10 integer" means, written from the spec's words and
    independent of [strconv]: a non-empty run of the digits 0 to 9, with
    an optional sign for a signed integer, read in base 10 without any
    bound. *)
Module Decimal.
Local Open Scope Z_scope.

Definition decimalDigit (c : ascii) : option Z :=
  if (48 <=? Utf8.byte c) && (Utf8.byte c <=? 57) then Some (Utf8.byte c - 48) else None.

Fixpoint digitsValue (s : string) (acc : Z) : option Z :=
  match s with
  | EmptyString => Some acc
  | String c t =>
      match decimalDigit c with
      | Some d => digitsValue t (acc * 10 + d)
      | None => None
      end
  end.

Definition uintLiteral (s : string) : option Z :=
  match s with
  | EmptyString => None
  | String _ _ => digitsValue s 0
  end.

Definition intLiteral (s : string) : option Z :=
  match s with
  | EmptyString => None
  | String c t =>
      if Ascii.eqb c "+" then uintLiteral t
      else if Ascii.eqb c "-" then Z.opp <$> uintLiteral t
      else uintLiteral s
  end.

(** The cutoff of [ParseUint] in base 10. *)
Definition cutoff10 : Z := Strconv.maxUint64 / 10 + 1.

(** What [ParseInt] does with the answer [(un, err)] of [ParseUint]. *)
Definition signedTail (neg : bool) (s0 : string) (r : Z * option error)
  : Z * option error :=
  let '(un, err) := r in
  if (match err with Some _ => true | None => false end) && negb (Strconv.isRange err)
  then (0, Strconv.retag s0 err)
  else
    let cutoff := Wrap.toUint 64 (Z.shiftl 1 (64 - 1)) in
    if negb neg && (cutoff <=? un)
    then (Wrap.toInt 64 (cutoff - 1), Some (Strconv.rangeError "ParseInt" s0))
    else if neg && (cutoff <? un)
    then (Wrap.toInt 64 (- Wrap.toInt 64 cutoff), Some (Strconv.rangeError "ParseInt" s0))
    else
      let n := Wrap.toInt 64 un in
      (if neg then Wrap.toInt 64 (- n) else n, None).

End Decimal.

(** ** The three passes as one loop

    The loops of SetDefaults, ParseEnv and ParseArgs have one shape: for
    each field in order, pick the source text of the field, if any; coerce
    it; on an error stop, rendering the usage text or not.  [passLoop] is
    this shape; the three loops are shown to be instances of it, and the
    facts about them are proved once. *)
Section LoopShape.
Variable ToKebabCase : string -> string.
Variable ParseFloat : string -> Z -> Z * option error.
Variable float32 : Z -> Z.

Local Abbreviation SetField := (Flag.SetField ParseFloat float32).
Local Abbreviation PrintDefaults := (Flag.PrintDefaults ToKebabCase).

Variable src : Field -> option string.
Variable present : bool.
Variable mkErr : Field -> error -> error.
Variable render : bool.

Fixpoint passLoop (n i : nat) (fields : list Field) (out : list Output)
  : Result (option error) * list Field * list Output :=
  match n with
  | O => (Return None, fields, out)
  | S n' =>
      match fields !! i with
      | None => (Return None, fields, out)
      | Some field =>
          match src field with
          | None => passLoop n' (S i) fields out
          | Some value =>
              match SetField field value present with
              | SetOk field' => passLoop n' (S i) (<[i := field']> fields) out
              | SetErr err =>
                  (Return (Some (mkErr field err)), fields,
                   if render then PrintDefaults (Struct fields) out else out)
              | SetPanic p => (Panics p, fields, out)
              end
          end
      end
  end.

End LoopShape.

Section Sources.
Variable ToKebabCase ToConstantCase : string -> string.

Local Abbreviation envNameOf := (Flag.envNameOf ToConstantCase).
Local Abbreviation flagNameOf := (Flag.flagNameOf ToKebabCase).

(** The source text of a field in each pass. *)
Definition defaultSrc (f : Field) : option string :=
  if negb (CanSet f) then None
  else if String.eqb (Get (Tag f) "default") "" then None
       else Some (Get (Tag f) "default").

Definition envSrc (env : gmap string string) (f : Field) : option string :=
  env !! envNameOf f.

Definition flagSrc (flags : gmap string string) (f : Field) : option string :=
  match flags !! Get (Tag f) "short" with
  | Some flagValue => Some flagValue
  | None => flags !! flagNameOf f
  end.

(** The error each pass returns for a failed coercion. *)
Definition defaultErr (f : Field) (e : error) : error :=
  Errorf "error setting default for field %s: %v" [FName f] e.
Definition envErr (f : Field) (e : error) : error :=
  Errorf "error setting environment variable %s: %v" [envNameOf f] e.
Definition flagErr (f : Field) (e : error) : error :=
  Errorf "error parsing flag --%s: %v" [flagNameOf f] e.

End Sources.

(** ** The tokenizer, token by token *)

(** The cursor loop [Args.run], as a recursion on the tokens that are left:
    [args] is [args[i:]]. *)
Fixpoint walk (args : list string) (positionalArgs : list string)
    (flags : gmap string string) : list string * gmap string string :=
  match args with
  | [] => (positionalArgs, flags)
  | arg :: rest =>
      let '(skip, positionalArgs', flags') :=
        Args.body arg (head rest) positionalArgs flags in
      if skip
      then match rest with
           | [] => walk rest positionalArgs' flags'
           | _ :: rest' => walk rest' positionalArgs' flags'
           end
      else walk rest positionalArgs' flags'
  end.

(** What the loop body does with one token, read off the body run on empty
    outputs: whether it consumes the next token, what it appends to the
    positionals, which entries it writes. *)
Definition skipOf (arg : string) (next : option string) : bool :=
  fst (fst (Args.body arg next [] ∅)).
Definition appendedBy (arg : string) (next : option string) : list string :=
  snd (fst (Args.body arg next [] ∅)).
Definition writtenBy (arg : string) (next : option string) : gmap string string :=
  snd (Args.body arg next [] ∅).

Inductive role := AsPositional | AsFlag | AsValue.

Record event := {
  token : string;                  (* the token handled *)
  kind : role;                     (* how it was handled *)
  writes : gmap string string      (* the entries it wrote *)
}.

(** One event per token the loop handles, in order: the token under the
    cursor, then, when it was consumed as a value, the token after it. *)
Fixpoint trace (args : list string) : list event :=
  match args with
  | [] => []
  | arg :: rest =>
      {| token := arg;
         kind := match appendedBy arg (head rest) with [] => AsFlag | _ => AsPositional end;
         writes := writtenBy arg (head rest) |}
      :: (if skipOf arg (head rest)
          then match rest with
               | [] => trace rest
               | v :: rest' => {| token := v; kind := AsValue; writes := ∅ |} :: trace rest'
               end
          else trace rest)
  end.

Definition isPositional (e : event) : bool :=
  match kind e with AsPositional => true | _ => false end.

(** A combined short-flag token such as [-abc]: one dash, more than two
    bytes, no '=' after the second byte. *)
Definition combinedToken (arg : string) : bool :=
  negb (Strings.HasPrefix arg "--") && Strings.HasPrefix arg "-"
  && (2 <? String.length arg)%nat && negb (Strings.Contains (Strings.from 2 arg) "=").

(** The entries of a combined token: one per character, each present
    without value. *)
Definition presenceEntries (arg : string) : gmap string string :=
  foldl (fun fl r => <[Utf8.string_of_rune r := ""]> fl) ∅
        (Utf8.range (Strings.from 1 arg)).



(** ** Definitions for the further properties *)

(** Two fields with the same descriptor: name, type, tag and settability;
    only the value slot may differ. *)
Definition sameDescr (f f' : Field) : Prop :=
  FName f' = FName f /\ FType f' = FType f /\ Tag f' = Tag f /\ CanSet f' = CanSet f.

(** The number of commas of a text and the parts between them, by
    recursion on the text. *)
Fixpoint commas (s : string) : nat :=
  match s with
  | EmptyString => 0
  | String c t => if Ascii.eqb c "," then S (commas t) else commas t
  end.

Fixpoint commaFields (s : string) : list string :=
  match s with
  | EmptyString => [""]
  | String c t =>
      if Ascii.eqb c "," then "" :: commaFields t
      else match commaFields t with
           | [] => [String c ""]
           | h :: r => String c h :: r
           end
  end.

(** The parts joined again with the separator between them
    ([strings.Join]). *)
Fixpoint join (sep : string) (parts : list string) : string :=
  match parts with
  | [] => ""
  | p :: rest =>
      match rest with
      | [] => p
      | _ :: _ => p ++ sep ++ join sep rest
      end
  end.

(** A settable [uint8] field and a settable [[]string] field. *)
Definition uint8Field : Field :=
  Sample.field "Retries"
    {| Name := "uint8"; shape := SUint W8; ImplementsTextUnmarshaler := false |}
    [] (VUint 0).

Definition sliceField : Field :=
  Sample.field "Slice"
    {| Name := "";
       shape := SSlice {| eName := "string"; eKind := KString;
                          eUnmarshalText := None; eAssignable := false |};
       ImplementsTextUnmarshaler := false |}
    [] (VStrings []).

(** Two configurations with the same fields up to the value slots. *)
Definition sameShape (c c' : Config) : Prop :=
  match c, c' with
  | Struct fs, Struct fs' => Forall2 sameDescr fs fs'
  | NotStruct, NotStruct => True
  | _, _ => False
  end.

(** SetField gives a slice field a [[]string].  A slice type whose
    elements are of kind string takes it when the element type is [string]
    itself, not a type defined from it; such an element type is told by
    its name. *)
Definition takesStrings (t : rtype) : Prop :=
  match shape t with
  | SSlice e => eKind e = KString -> eName e = "string"
  | _ => True
  end.

(** A field that is settable, of a type that does not implement
    [encoding.TextUnmarshaler] and, if a slice of strings, takes a
    [[]string]; a configuration all of whose fields are such. *)
Definition plainField (f : Field) : Prop :=
  CanSet f = true /\ ImplementsTextUnmarshaler (FType f) = false /\
  takesStrings (FType f).

Definition plainFields (c : Config) : Prop :=
  match c with
  | Struct fs => Forall plainField fs
  | NotStruct => True
  end.

(** [HostName string] and [PortNumber int], in this order. *)
Definition hostPortConfig : list Field :=
  [Sample.field "HostName" Sample.string_ [] (VString "");
   Sample.field "PortNumber" Sample.int [("short", "p")] (VInt 0)].

(** The source a field is resolved from by ParseAll: the flag value, else
    the environment value, else the default, each with the presence flag
    its pass gives to SetField. *)
Definition resolvedFrom (ToKebabCase ToConstantCase : string -> string)
    (env flags : gmap string string) (f : Field) : option (string * bool) :=
  match flagSrc ToKebabCase flags f with
  | Some v => Some (v, true)
  | None =>
      match envSrc ToConstantCase env f with
      | Some v => Some (v, true)
      | None =>
          match defaultSrc f with
          | Some d => Some (d, false)
          | None => None
          end
      end
  end.

(** * Properties *)

(** ** The library functions *)

Lemma length_from (n : nat) (s : string) :
  String.length (Strings.from n s) = String.length s - n.
Proof.
  revert s. induction n as [|n IH]; intros s; simpl; [lia|].
  destruct s as [|c t]; simpl; [reflexivity|apply IH].
Qed.

(** A rune of a non-empty string is at least one byte wide. *)
Lemma DecodeRuneInString_width (c : ascii) (t : string) :
  1 <= snd (Utf8.DecodeRuneInString (String c t)).
Proof.
  unfold Utf8.DecodeRuneInString.
  repeat match goal with
         | |- context [if ?b then _ else _] => destruct b
         | |- context [match ?x with _ => _ end] => destruct x
         end; simpl; lia.
Qed.

(** The fuel of [Utf8.range] is enough: more of it changes nothing. *)
Lemma rangeLoop_fuel (fuel1 fuel2 : nat) (s : string) :
  String.length s <= fuel1 -> String.length s <= fuel2 ->
  Utf8.rangeLoop fuel1 s = Utf8.rangeLoop fuel2 s.
Proof.
  revert fuel2 s. induction fuel1 as [|fuel1 IH]; intros fuel2 s H1 H2.
  - destruct s; [|simpl in H1; lia]. destruct fuel2; reflexivity.
  - destruct s as [|c t]; [destruct fuel2; reflexivity|].
    destruct fuel2 as [|fuel2]; [simpl in H2; lia|].
    cbn [Utf8.rangeLoop].
    pose proof (DecodeRuneInString_width c t) as Hw.
    destruct (Utf8.DecodeRuneInString (String c t)) as [r w]. cbn [snd] in Hw.
    f_equal. apply IH; rewrite length_from; simpl in *; lia.
Qed.

(** Where the tokenizer indexes the two parts of [SplitN], there are two. *)
Lemma SplitN_two_parts (s : string) :
  Strings.Contains s "=" = true ->
  exists a b, Strings.SplitN s "=" 2 = [a; b].
Proof.
  unfold Strings.Contains. destruct (Strings.Index s "=") as [m|] eqn:Em; [|discriminate].
  intros _. destruct s as [|c t]; [discriminate Em|].
  unfold Strings.SplitN, Strings.genSplit.
  change (2 =? 0)%Z with false. change (2 <? 0)%Z with false. cbv iota.
  destruct (Z.ltb_spec (Z.of_nat (String.length (String c t)) + 1) 2) as [Hlt|_].
  - simpl String.length in Hlt. lia.
  - change (Z.to_nat (2 - 1)) with 1%nat. cbn [Strings.splitLoop]. rewrite Em. eauto.
Qed.

(** ** Field coercion *)
Section Coercion.
Variable ParseFloat : string -> Z -> Z * option error.
Variable float32 : Z -> Z.

Local Abbreviation SetField := (Flag.SetField ParseFloat float32).

Lemma SetField_bool_bare (f : Field) :
  Kind_of f = KBool -> SetField f "" true = set f (VBool true).
Proof. intros Hk. unfold Flag.SetField. rewrite Hk. reflexivity. Qed.

(** A non-empty raw value is parsed as a literal, whatever [exists]. *)
Lemma SetField_bool_literal (f : Field) (value : string) (present : bool) :
  Kind_of f = KBool -> value <> "" ->
  SetField f value present =
    match Strconv.ParseBool value with
    | (_, Some e) => SetErr e
    | (b, None) => set f (VBool b)
    end.
Proof.
  intros Hk Hv. unfold Flag.SetField. rewrite Hk.
  destruct (String.eqb_spec value "") as [->|_]; [congruence|].
  rewrite andb_false_r. reflexivity.
Qed.

(** C1, as amended: for every boolean field, coercion with
    wasExplicitlyPresent=true and an empty raw value performs the
    assignment of [true] (so a settable field then holds [true]); coercing
    the literal "false" with wasExplicitlyPresent=true performs the
    assignment of [false]: presence does not override a literal. *)
Theorem C1_bool_presence_amended (f : Field) :
  Kind_of f = KBool ->
  SetField f "" true = set f (VBool true) /\
  SetField f "false" true = set f (VBool false) /\
  (CanSet f = true ->
   SetField f "" true = SetOk (withVal f (VBool true)) /\
   SetField f "false" true = SetOk (withVal f (VBool false))).
Proof.
  intros Hk.
  assert (H1 := SetField_bool_bare f Hk).
  assert (H2 : SetField f "false" true = set f (VBool false)).
  { rewrite SetField_bool_literal by (assumption || discriminate). reflexivity. }
  repeat split; try assumption.
  - rewrite H1. unfold set. now rewrite H.
  - rewrite H2. unfold set. now rewrite H.
Qed.

End Coercion.

Lemma C1_bool_presence_amended_witness :
  Kind_of boolField = KBool /\
  Sample.SetField boolField "" true = SetOk (withVal boolField (VBool true)).
Proof.
  split; [reflexivity|].
  apply (C1_bool_presence_amended Sample.ParseFloat Sample.float32 boolField);
    reflexivity.
Defined.

(** C1, as stated, fails: the literal "false" coerced with
    wasExplicitlyPresent=true assigns [false], not [true]. *)
Lemma C1_false_literal_counterexample :
  Sample.SetField boolField "false" true = SetOk (withVal boolField (VBool false)) /\
  Sample.SetField boolField "false" true <> SetOk (withVal boolField (VBool true)).
Proof. split; [reflexivity | discriminate]. Qed.

(** ** Text-decodable types *)
Section TextUnmarshaler.
Variable ParseFloat : string -> Z -> Z * option error.
Variable float32 : Z -> Z.

Local Abbreviation SetField := (Flag.SetField ParseFloat float32).

(** The failure of [UnmarshalText] is returned as the error. *)
Lemma SetField_unmarshal_error (f : Field) (e : ElemType)
    (u : string -> error + Value) (value : string) (err : error) (present : bool) :
  shape (FType f) = SPointer e ->
  ImplementsTextUnmarshaler (FType f) = true ->
  eUnmarshalText e = Some u ->
  u value = inl err ->
  SetField f value present = SetErr err.
Proof.
  intros Hs Hi Hu Hv. unfold Flag.SetField, Kind_of, TypeKind, Elem.
  rewrite Hs. simpl. rewrite Hi, Hu, Hv. reflexivity.
Qed.

(** C9, where the code departs from it: for a settable field of a pointer
    type that implements the decode-from-text capability, when the
    capability succeeds SetField does not assign the decoded value: it
    panics, because it hands [field.Set] the value pointed to instead of the
    pointer. *)
Theorem C9_pointer_unmarshaler_panics (f : Field) (e : ElemType)
    (u : string -> error + Value) (value : string) (decoded : Value) (present : bool) :
  shape (FType f) = SPointer e ->
  ImplementsTextUnmarshaler (FType f) = true ->
  eUnmarshalText e = Some u ->
  eAssignable e = false ->
  CanSet f = true ->
  u value = inr decoded ->
  SetField f value present = SetPanic NotAssignable.
Proof.
  intros Hs Hi Hu Ha Hc Hv. unfold Flag.SetField, Kind_of, TypeKind, Elem.
  rewrite Hs. simpl. rewrite Hi, Hu, Hv, Hc, Ha. reflexivity.
Qed.

End TextUnmarshaler.

Lemma C9_pointer_unmarshaler_panics_witness :
  Sample.SetField modeField "fast" true = SetPanic NotAssignable.
Proof.
  apply (C9_pointer_unmarshaler_panics Sample.ParseFloat Sample.float32 modeField
           Mode Mode_UnmarshalText "fast" (VString "fast") true);
    reflexivity.
Defined.

(** ** The tokenizer on a short flag with an inline value *)

Lemma SplitN_at_head (v : string) :
  Strings.SplitN (String "=" v) "=" 2 = [""; v].
Proof.
  unfold Strings.SplitN, Strings.genSplit.
  change (2 =? 0)%Z with false. change (2 <? 0)%Z with false. cbv iota.
  destruct (Z.ltb_spec (Z.of_nat (String.length (String "=" v)) + 1) 2) as [Hlt|_].
  - simpl String.length in Hlt. lia.
  - change (Z.to_nat (2 - 1)) with 1%nat. reflexivity.
Qed.

Lemma Contains_at_head (v : string) : Strings.Contains (String "=" v) "=" = true.
Proof. reflexivity. Qed.

Lemma body_dash_letter_eq (c : ascii) (v : string) (next : option string)
    (pos : list string) (flags : gmap string string) :
  Args.body (String "-" (String c (String "=" v))) next pos flags
  = (false, pos, <["" := v]> flags).
Proof.
  unfold Args.body.
  assert (Hkey : Strings.from 2 (String "-" (String c (String "=" v))) = String "=" v)
    by reflexivity.
  rewrite Hkey, Contains_at_head, SplitN_at_head.
  destruct (Strings.HasPrefix (String "-" (String c (String "=" v))) "--");
    [reflexivity|].
  destruct (Strings.HasPrefix (String "-" (String c (String "=" v))) "-"
            && (1 <? String.length (String "-" (String c (String "=" v))))%nat) eqn:E.
  - rewrite orb_true_r. reflexivity.
  - discriminate E.
Qed.

(** C2, where the code departs from it: for every token made of '-', one
    byte, '=' and a value, the tokenizer records the value under the empty
    key, not under the letter; so [-k=value] yields the flags
    [{"": "value"}] and not [{"k": "value"}]. *)
Theorem C2_short_flag_inline_value_loses_key :
  (forall (c : ascii) (v : string),
      Args.ParseArgs [String "-" (String c (String "=" v))] = ([], {[ "" := v ]})) /\
  Args.ParseArgs ["-k=value"] = ([], {[ "" := "value" ]}) /\
  snd (Args.ParseArgs ["-k=value"]) !! "k" = None.
Proof.
  assert (H : forall c v,
             Args.ParseArgs [String "-" (String c (String "=" v))] = ([], {[ "" := v ]})).
  { intros c v. unfold Args.ParseArgs. simpl length. unfold Args.run.
    change ([String "-" (String c (String "=" v))] !! 0%nat)
      with (Some (String "-" (String c (String "=" v)))).
    cbv iota beta. rewrite body_dash_letter_eq. reflexivity. }
  split; [exact H|]. split; [apply H|].
  rewrite (H "k"%char "value"). reflexivity.
Qed.

(** ** The flags pass and a field without a short tag *)

(** C7, where the code departs from it: a field without a [short] tag is
    looked up under the empty key.  The arguments [-- 9] give the flags
    [{"": "9"}]; the field has no short key and its long key [port-number]
    is not in the mapping, yet the field is not skipped: it is set to 9. *)
Theorem C7_absent_short_tag_matches_empty_key :
  snd (Args.ParseArgs ["--"; "9"]) = {[ "" := "9" ]} /\
  Get (Tag portField) "short" = "" /\
  flagNameOf Sample.ToKebabCase portField = "port-number" /\
  snd (Args.ParseArgs ["--"; "9"]) !! "port-number" = None /\
  Sample.ParseArgs ["--"; "9"] (Sample.world [portField])
  = (Return (Some [], None), Sample.world [withVal portField (VInt 9)]).
Proof. repeat split; vm_compute; reflexivity. Qed.

(** ** ParseAll and the help tokens *)
Section Help.
Variable ToKebabCase ToConstantCase : string -> string.
Variable ParseFloat : string -> Z -> Z * option error.
Variable float32 : Z -> Z.

Local Abbreviation SetDefaults := (Flag.SetDefaults ParseFloat float32).
Local Abbreviation ParseEnv :=
  (Flag.ParseEnv ToKebabCase ToConstantCase ParseFloat float32).
Local Abbreviation ParseAll :=
  (Flag.ParseAll ToKebabCase ToConstantCase ParseFloat float32).
Local Abbreviation PrintDefaults := (Flag.PrintDefaults ToKebabCase).

Lemma helpRequested_In (args : list string) :
  helpRequested args = true <-> In "--help" args \/ In "-h" args.
Proof.
  unfold helpRequested. rewrite existsb_exists. split.
  - intros (a & Hin & Ha). apply orb_true_iff in Ha as [Ha|Ha];
      apply String.eqb_eq in Ha; subst a; auto.
  - intros [Hin|Hin]; eexists; (split; [exact Hin|reflexivity]).
Qed.

(** C4, as amended: if any raw argument equals "--help" or "-h" and the
    defaults pass and the environment pass both return without error,
    ParseAll renders the usage text and returns no positional arguments
    (nil) and no error; the flags pass does not run: the configuration
    record is the one the environment pass left. *)
Theorem C4_help_short_circuits_amended
    (env : gmap string string) (args : list string) (w w1 w2 : World) :
  In "--help" args \/ In "-h" args ->
  SetDefaults w = (Return None, w1) ->
  ParseEnv env w1 = (Return None, w2) ->
  ParseAll env args w
  = (Return (None, None),
     {| config := config w2; stdout := PrintDefaults (config w2) (stdout w2) |}).
Proof.
  intros Hhelp Hd He. apply helpRequested_In in Hhelp.
  unfold Flag.ParseAll. rewrite Hd, He, Hhelp. reflexivity.
Qed.

End Help.

Lemma C4_help_short_circuits_amended_witness :
  fst (Sample.ParseAll testEnv ["--log-level=debug"; "--help"] (Sample.world testConfig))
  = Return (None, None) /\
  config (snd (Sample.ParseAll testEnv ["--log-level=debug"; "--help"]
                 (Sample.world testConfig)))
  = Struct (testResolved "info").
Proof.
  rewrite (C4_help_short_circuits_amended
             Sample.ToKebabCase Sample.ToConstantCase Sample.ParseFloat Sample.float32
             testEnv ["--log-level=debug"; "--help"] (Sample.world testConfig)
             (snd (Sample.SetDefaults (Sample.world testConfig)))
             (snd (Sample.ParseEnv testEnv
                     (snd (Sample.SetDefaults (Sample.world testConfig)))))).
  - split; vm_compute; reflexivity.
  - left. right. left. reflexivity.
  - vm_compute. reflexivity.
  - vm_compute. reflexivity.
Defined.

(** C4, as stated, fails: with a default that cannot be coerced, ParseAll
    given [--help] returns an error and renders nothing. *)
Lemma C4_help_after_failed_default_counterexample :
  In "--help" ["--help"] /\
  Sample.ParseAll ∅ ["--help"] (Sample.world badDefault)
  = (Return (None,
             Some (Errorf "error setting default values: %v" []
                     (Errorf "error setting default for field %s: %v" ["Port"]
                        (NumError "ParseInt" "abc" ErrSyntax)))),
     Sample.world badDefault).
Proof. split; [left; reflexivity | vm_compute; reflexivity]. Qed.

(** ** Integer coercion *)

Section DecimalParsing.
Import Decimal.
Local Open Scope Z_scope.

Lemma digit_of_decimal (c : ascii) (d : Z) :
  decimalDigit c = Some d -> Strconv.digit (Utf8.byte c) = Some d /\ 0 <= d <= 9.
Proof.
  unfold decimalDigit, Strconv.digit.
  destruct ((48 <=? Utf8.byte c) && (Utf8.byte c <=? 57)) eqn:E; [|discriminate].
  intros [= <-]. split; [reflexivity|].
  apply andb_true_iff in E as [H1 H2]. lia.
Qed.

Lemma digit_of_other (c : ascii) :
  decimalDigit c = None ->
  Strconv.digit (Utf8.byte c) = None \/
  exists d, Strconv.digit (Utf8.byte c) = Some d /\ 10 <= d.
Proof.
  unfold decimalDigit, Strconv.digit.
  destruct ((48 <=? Utf8.byte c) && (Utf8.byte c <=? 57)); [discriminate|].
  intros _.
  destruct ((97 <=? Strconv.lower (Utf8.byte c)) && (Strconv.lower (Utf8.byte c) <=? 122)) eqn:E.
  - right. eexists. split; [reflexivity|].
    apply andb_true_iff in E as [H1 _]. lia.
  - now left.
Qed.

Lemma digitsValue_ge (s : string) (n z : Z) :
  0 <= n -> digitsValue s n = Some z -> n <= z.
Proof.
  revert n. induction s as [|c t IH]; intros n Hn; simpl.
  - intros [= <-]. lia.
  - destruct (decimalDigit c) as [d|] eqn:Ed; [|discriminate].
    destruct (digit_of_decimal c d Ed) as [_ Hd].
    intros H. apply IH in H; lia.
Qed.

Lemma cutoff10_value : cutoff10 = 1844674407370955162.
Proof. reflexivity. Qed.

Lemma maxUint64_value : Strconv.maxUint64 = 18446744073709551615.
Proof. reflexivity. Qed.

Lemma toUint64_small (x : Z) : 0 <= x <= 18446744073709551615 -> Wrap.toUint 64 x = x.
Proof.
  intros H. unfold Wrap.toUint. change (2 ^ 64) with 18446744073709551616.
  apply Z.mod_small. lia.
Qed.

Lemma toUint64_wrapped (x : Z) :
  18446744073709551616 <= x < 2 * 18446744073709551616 ->
  Wrap.toUint 64 x = x - 18446744073709551616.
Proof.
  intros H. unfold Wrap.toUint. change (2 ^ 64) with 18446744073709551616.
  symmetry. apply (Z.mod_unique _ _ 1); lia.
Qed.

(** The loop of [ParseUint] against the unbounded reading. *)
Lemma uintLoop_decimal (s0 s : string) (n : Z) :
  0 <= n <= Strconv.maxUint64 ->
  match digitsValue s n with
  | Some z =>
      if z <=? Strconv.maxUint64
      then Strconv.uintLoop s0 10 cutoff10 Strconv.maxUint64 s n = (z, None)
      else Strconv.uintLoop s0 10 cutoff10 Strconv.maxUint64 s n
           = (Strconv.maxUint64, Some (Strconv.rangeError "ParseUint" s0))
  | None =>
      Strconv.uintLoop s0 10 cutoff10 Strconv.maxUint64 s n
      = (0, Some (Strconv.syntaxError "ParseUint" s0)) \/
      Strconv.uintLoop s0 10 cutoff10 Strconv.maxUint64 s n
      = (Strconv.maxUint64, Some (Strconv.rangeError "ParseUint" s0))
  end.
Proof.
  revert n. induction s as [|c t IH]; intros n Hn.
  - simpl. destruct (Z.leb_spec n Strconv.maxUint64); [reflexivity|lia].
  - simpl digitsValue. cbn [Strconv.uintLoop].
    destruct (decimalDigit c) as [d|] eqn:Ed.
    + destruct (digit_of_decimal c d Ed) as [-> Hd].
      destruct (Z.leb_spec 10 d) as [?|_]; [lia|].
      rewrite maxUint64_value, cutoff10_value in *.
      destruct (Z.leb_spec 1844674407370955162 n) as [Hc|Hc].
      * (* n * 10 overflows *)
        destruct (digitsValue t (n * 10 + d)) as [z|] eqn:Ez; [|now right].
        apply digitsValue_ge in Ez; [|lia].
        destruct (Z.leb_spec z 18446744073709551615); [lia|reflexivity].
      * rewrite (toUint64_small (n * 10)) by lia.
        destruct (Z_lt_le_dec (n * 10 + d) 18446744073709551616) as [Hs|Hs].
        -- rewrite (toUint64_small (n * 10 + d)) by lia.
           destruct (Z.ltb_spec (n * 10 + d) (n * 10)) as [?|_]; [lia|].
           destruct (Z.ltb_spec 18446744073709551615 (n * 10 + d)) as [?|_]; [lia|].
           cbn [orb]. apply IH. lia.
        -- (* n + d overflows *)
           rewrite (toUint64_wrapped (n * 10 + d)) by lia.
           destruct (Z.ltb_spec (n * 10 + d - 18446744073709551616) (n * 10)) as [_|?];
             [|lia].
           cbn [orb].
           destruct (digitsValue t (n * 10 + d)) as [z|] eqn:Ez; [|now right].
           apply digitsValue_ge in Ez; [|lia].
           destruct (Z.leb_spec z 18446744073709551615); [lia|reflexivity].
    + destruct (digit_of_other c Ed) as [->|(d & -> & Hd)].
      * now left.
      * destruct (Z.leb_spec 10 d); [now left|lia].
Qed.

End DecimalParsing.

Section SignedParsing.
Import Decimal.
Local Open Scope Z_scope.

Lemma ParseUint_loop (s : string) :
  s <> "" ->
  Strconv.ParseUint s 10 64 = Strconv.uintLoop s 10 cutoff10 Strconv.maxUint64 s 0.
Proof.
  intros Hs. unfold Strconv.ParseUint.
  destruct (String.eqb_spec s ""); [contradiction|reflexivity].
Qed.

(** [ParseUint] against the unbounded reading. *)
Lemma ParseUint_decimal (s : string) :
  match uintLiteral s with
  | Some z =>
      if z <=? Strconv.maxUint64
      then Strconv.ParseUint s 10 64 = (z, None)
      else Strconv.ParseUint s 10 64
           = (Strconv.maxUint64, Some (Strconv.rangeError "ParseUint" s))
  | None =>
      Strconv.ParseUint s 10 64 = (0, Some (Strconv.syntaxError "ParseUint" s)) \/
      Strconv.ParseUint s 10 64
      = (Strconv.maxUint64, Some (Strconv.rangeError "ParseUint" s))
  end.
Proof.
  destruct s as [|c t].
  - left. reflexivity.
  - rewrite ParseUint_loop by discriminate.
    unfold uintLiteral. apply uintLoop_decimal. rewrite maxUint64_value. lia.
Qed.

Lemma uintLiteral_nonneg (s : string) (z : Z) : uintLiteral s = Some z -> 0 <= z.
Proof.
  destruct s; [discriminate|]. unfold uintLiteral.
  intros H. apply digitsValue_ge in H; lia.
Qed.

Lemma ParseInt_signedTail (c : ascii) (t : string) :
  Strconv.ParseInt (String c t) 10 64 =
    if Ascii.eqb c "+" then signedTail false (String c t) (Strconv.ParseUint t 10 64)
    else if Ascii.eqb c "-" then signedTail true (String c t) (Strconv.ParseUint t 10 64)
    else signedTail false (String c t) (Strconv.ParseUint (String c t) 10 64).
Proof.
  unfold Strconv.ParseInt, signedTail.
  destruct (Ascii.eqb c "+"); [reflexivity|].
  destruct (Ascii.eqb c "-"); reflexivity.
Qed.

Lemma toInt64_small (x : Z) :
  -9223372036854775808 <= x < 9223372036854775808 -> Wrap.toInt 64 x = x.
Proof.
  intros H. unfold Wrap.toInt.
  change (2 ^ (64 - 1)) with 9223372036854775808.
  change (2 ^ 64) with 18446744073709551616.
  rewrite Z.mod_small; lia.
Qed.

Lemma toInt64_min : Wrap.toInt 64 9223372036854775808 = -9223372036854775808.
Proof. reflexivity. Qed.

(** The tail of [ParseInt] on the three answers [ParseUint] can give. *)
Lemma signedTail_value (neg : bool) (s0 : string) (z : Z) :
  0 <= z <= Strconv.maxUint64 ->
  let v := if neg then - z else z in
  if (-9223372036854775808 <=? v) && (v <? 9223372036854775808)
  then signedTail neg s0 (z, None) = (v, None)
  else snd (signedTail neg s0 (z, None)) = Some (Strconv.rangeError "ParseInt" s0).
Proof.
  rewrite maxUint64_value. intros Hz. unfold signedTail. cbn [andb negb].
  change (Wrap.toUint 64 (Z.shiftl 1 (64 - 1))) with 9223372036854775808.
  destruct neg; cbn [negb andb].
  - destruct (Z.ltb_spec 9223372036854775808 z) as [Hc|Hc].
    + destruct (Z.leb_spec (-9223372036854775808) (- z)); [lia|reflexivity].
    + destruct (Z.leb_spec (-9223372036854775808) (- z)); [|lia].
      destruct (Z.ltb_spec (- z) 9223372036854775808); [|lia].
      cbn [andb]. f_equal.
      destruct (Z.eq_dec z 9223372036854775808) as [->|Hne].
      * reflexivity.
      * rewrite (toInt64_small z) by lia. apply toInt64_small. lia.
  - destruct (Z.leb_spec 9223372036854775808 z) as [Hc|Hc].
    + destruct (Z.ltb_spec z 9223372036854775808); [lia|].
      rewrite andb_false_r. reflexivity.
    + destruct (Z.leb_spec (-9223372036854775808) z); [|lia].
      destruct (Z.ltb_spec z 9223372036854775808); [|lia].
      cbn [andb]. f_equal. apply toInt64_small. lia.
Qed.

Lemma signedTail_range (neg : bool) (s0 s : string) :
  snd (signedTail neg s0 (Strconv.maxUint64, Some (Strconv.rangeError "ParseUint" s)))
  = Some (Strconv.rangeError "ParseInt" s0).
Proof. destruct neg; reflexivity. Qed.

Lemma signedTail_syntax (neg : bool) (s0 s : string) :
  snd (signedTail neg s0 (0, Some (Strconv.syntaxError "ParseUint" s)))
  = Some (Strconv.syntaxError "ParseInt" s0).
Proof. destruct neg; reflexivity. Qed.

Lemma signedTail_decimal (neg : bool) (s0 s : string) :
  match (if neg then Z.opp <$> uintLiteral s else uintLiteral s) with
  | Some v =>
      if (-9223372036854775808 <=? v) && (v <? 9223372036854775808)
      then signedTail neg s0 (Strconv.ParseUint s 10 64) = (v, None)
      else snd (signedTail neg s0 (Strconv.ParseUint s 10 64))
           = Some (Strconv.rangeError "ParseInt" s0)
  | None =>
      snd (signedTail neg s0 (Strconv.ParseUint s 10 64))
      = Some (Strconv.syntaxError "ParseInt" s0) \/
      snd (signedTail neg s0 (Strconv.ParseUint s 10 64))
      = Some (Strconv.rangeError "ParseInt" s0)
  end.
Proof.
  pose proof (ParseUint_decimal s) as HU.
  pose proof (uintLiteral_nonneg s) as Hnn.
  destruct (uintLiteral s) as [z|].
  - specialize (Hnn z eq_refl).
    assert (Hv : (if neg then Z.opp <$> Some z else Some z)
                 = Some (if neg then - z else z)) by (destruct neg; reflexivity).
    rewrite Hv. clear Hv.
    destruct (Z.leb_spec z Strconv.maxUint64) as [Hle|Hgt].
    + rewrite HU. apply signedTail_value. lia.
    + rewrite HU, signedTail_range. rewrite maxUint64_value in Hgt.
      destruct neg.
      * destruct (Z.leb_spec (-9223372036854775808) (- z)); [lia|reflexivity].
      * destruct (Z.ltb_spec z 9223372036854775808); [lia|].
        rewrite andb_false_r. reflexivity.
  - assert (Hv : (if neg then Z.opp <$> None else @None Z) = None)
      by (destruct neg; reflexivity).
    rewrite Hv. destruct HU as [-> | ->].
    + left. apply signedTail_syntax.
    + right. apply signedTail_range.
Qed.

(** [ParseInt] against the unbounded reading. *)
Lemma ParseInt_decimal (s : string) :
  match intLiteral s with
  | Some v =>
      if (-9223372036854775808 <=? v) && (v <? 9223372036854775808)
      then Strconv.ParseInt s 10 64 = (v, None)
      else snd (Strconv.ParseInt s 10 64) = Some (Strconv.rangeError "ParseInt" s)
  | None =>
      snd (Strconv.ParseInt s 10 64) = Some (Strconv.syntaxError "ParseInt" s) \/
      snd (Strconv.ParseInt s 10 64) = Some (Strconv.rangeError "ParseInt" s)
  end.
Proof.
  destruct s as [|c t]; [left; reflexivity|].
  rewrite ParseInt_signedTail. unfold intLiteral.
  destruct (Ascii.eqb c "+").
  - apply (signedTail_decimal false).
  - destruct (Ascii.eqb c "-").
    + apply (signedTail_decimal true).
    + apply (signedTail_decimal false).
Qed.

End SignedParsing.

Section IntegerCoercion.
Import Decimal.
Variable ParseFloat : string -> Z -> Z * option error.
Variable float32 : Z -> Z.
Local Open Scope Z_scope.

Local Abbreviation SetField := (Flag.SetField ParseFloat float32).

Lemma SetField_int (f : Field) (w : width) (value : string) (present : bool) :
  Kind_of f = KInt w ->
  SetField f value present =
    match snd (Strconv.ParseInt value 10 64) with
    | Some e => SetErr e
    | None => set f (VInt (Wrap.toInt (bits w) (fst (Strconv.ParseInt value 10 64))))
    end.
Proof.
  intros Hk. unfold Flag.SetField. rewrite Hk.
  destruct (Strconv.ParseInt value 10 64) as [n [e|]]; reflexivity.
Qed.

Lemma SetField_uint (f : Field) (w : width) (value : string) (present : bool) :
  Kind_of f = KUint w ->
  SetField f value present =
    match snd (Strconv.ParseUint value 10 64) with
    | Some e => SetErr e
    | None => set f (VUint (Wrap.toUint (bits w) (fst (Strconv.ParseUint value 10 64))))
    end.
Proof.
  intros Hk. unfold Flag.SetField. rewrite Hk.
  destruct (Strconv.ParseUint value 10 64) as [n [e|]]; reflexivity.
Qed.

(** What SetField does on an integer field, in terms of base-10
    literals: the raw string is parsed as an integer of 64 bits, whatever
    the field's declared width; a literal that does not fit 64 bits or is
    not a valid integer gives a range or syntax error; a value that fits
    64 bits is converted to the field's width by [SetInt] or [SetUint] and
    assigned.  "99999999999999999999" into a signed integer field fails
    with a range error. *)
Lemma SetField_integer_decimal (f : Field) (value : string) (present : bool) :
  (forall w, Kind_of f = KInt w ->
     match intLiteral value with
     | Some v =>
         if (- 2 ^ 63 <=? v) && (v <? 2 ^ 63)
         then SetField f value present = set f (VInt (Wrap.toInt (bits w) v))
         else SetField f value present = SetErr (NumError "ParseInt" value ErrRange)
     | None =>
         SetField f value present = SetErr (NumError "ParseInt" value ErrSyntax) \/
         SetField f value present = SetErr (NumError "ParseInt" value ErrRange)
     end) /\
  (forall w, Kind_of f = KUint w ->
     match uintLiteral value with
     | Some v =>
         if v <=? 2 ^ 64 - 1
         then SetField f value present = set f (VUint (Wrap.toUint (bits w) v))
         else SetField f value present = SetErr (NumError "ParseUint" value ErrRange)
     | None =>
         SetField f value present = SetErr (NumError "ParseUint" value ErrSyntax) \/
         SetField f value present = SetErr (NumError "ParseUint" value ErrRange)
     end) /\
  (forall w, Kind_of f = KInt w ->
     SetField f "99999999999999999999" present
     = SetErr (NumError "ParseInt" "99999999999999999999" ErrRange)).
Proof.
  split; [|split].
  - intros w Hk. rewrite (SetField_int f w) by exact Hk.
    pose proof (ParseInt_decimal value) as HP.
    change (- 2 ^ 63) with (-9223372036854775808).
    change (2 ^ 63) with 9223372036854775808.
    destruct (intLiteral value) as [v|].
    + destruct ((-9223372036854775808 <=? v) && (v <? 9223372036854775808)).
      * rewrite HP. reflexivity.
      * rewrite HP. reflexivity.
    + destruct HP as [-> | ->]; [left|right]; reflexivity.
  - intros w Hk. rewrite (SetField_uint f w) by exact Hk.
    pose proof (ParseUint_decimal value) as HP.
    change (2 ^ 64 - 1) with Strconv.maxUint64.
    destruct (uintLiteral value) as [v|].
    + destruct (v <=? Strconv.maxUint64); rewrite HP; reflexivity.
    + destruct HP as [-> | ->]; [left|right]; reflexivity.
  - intros w Hk. rewrite (SetField_int f w) by exact Hk. reflexivity.
Qed.

(** The conversions to a width give a value of that width. *)
Lemma toInt_range (w : width) (v : Z) :
  - 2 ^ (bits w - 1) <= Wrap.toInt (bits w) v < 2 ^ (bits w - 1).
Proof.
  unfold Wrap.toInt.
  assert (H : 2 ^ bits w = 2 * 2 ^ (bits w - 1)) by (destruct w; reflexivity).
  assert (Hpos : 0 < 2 ^ bits w) by (destruct w; reflexivity).
  pose proof (Z.mod_pos_bound (v + 2 ^ (bits w - 1)) (2 ^ bits w) Hpos). lia.
Qed.

Lemma toUint_range (w : width) (v : Z) :
  0 <= Wrap.toUint (bits w) v < 2 ^ bits w.
Proof.
  unfold Wrap.toUint. apply Z.mod_pos_bound. destruct w; reflexivity.
Qed.

(** C3: the code diverges from the claim on the integer fields narrower
    than 64 bits.  For every settable signed integer field and every
    base-10 literal whose value fits 64 bits but not the field's declared
    width, SetField does not fail: it assigns the value wrapped around to
    the field's width, which is another value than the literal's; and
    likewise for every settable unsigned integer field.  The literal is
    parsed with a bit size of 64 whatever the field's width, and [SetInt]
    and [SetUint] truncate. *)
Theorem C3_narrow_integer_field_wraps
    (f : Field) (w : width) (value : string) (v : Z) (present : bool) :
  CanSet f = true ->
  (Kind_of f = KInt w -> intLiteral value = Some v ->
   - 2 ^ 63 <= v < 2 ^ 63 ->
   ~ (- 2 ^ (bits w - 1) <= v < 2 ^ (bits w - 1)) ->
   SetField f value present = SetOk (withVal f (VInt (Wrap.toInt (bits w) v))) /\
   - 2 ^ (bits w - 1) <= Wrap.toInt (bits w) v < 2 ^ (bits w - 1) /\
   Wrap.toInt (bits w) v <> v) /\
  (Kind_of f = KUint w -> uintLiteral value = Some v ->
   v <= 2 ^ 64 - 1 ->
   ~ (v < 2 ^ bits w) ->
   SetField f value present = SetOk (withVal f (VUint (Wrap.toUint (bits w) v))) /\
   0 <= Wrap.toUint (bits w) v < 2 ^ bits w /\
   Wrap.toUint (bits w) v <> v).
Proof.
  intros Hc.
  destruct (SetField_integer_decimal f value present) as (Hint & Huint & _).
  split.
  - intros Hk Hv H64 Hw. specialize (Hint w Hk). rewrite Hv in Hint.
    assert (Hb : (- 2 ^ 63 <=? v) && (v <? 2 ^ 63) = true).
    { apply andb_true_iff. split; [apply Z.leb_le|apply Z.ltb_lt]; lia. }
    rewrite Hb in Hint. unfold set in Hint. rewrite Hc in Hint.
    pose proof (toInt_range w v) as Hr.
    split; [exact Hint|]. split; [exact Hr|]. intros Heq. rewrite Heq in Hr. tauto.
  - intros Hk Hv H64 Hw. specialize (Huint w Hk). rewrite Hv in Huint.
    assert (Hb : (v <=? 2 ^ 64 - 1) = true) by (apply Z.leb_le; lia).
    rewrite Hb in Huint. unfold set in Huint. rewrite Hc in Huint.
    pose proof (toUint_range w v) as Hr.
    split; [exact Huint|]. split; [exact Hr|]. intros Heq. rewrite Heq in Hr. lia.
Qed.

End IntegerCoercion.

(** "300" is a valid integer that does not fit the 8 bits of an [int8]
    field, yet the coercion returns no error and stores 44; "256" into a
    [uint8] field stores 0. *)
Lemma C3_narrow_integer_field_wraps_witness :
  Sample.SetField int8Field "300" true = SetOk (withVal int8Field (VInt 44)) /\
  Sample.SetField uint8Field "256" true = SetOk (withVal uint8Field (VUint 0)).
Proof.
  split.
  - destruct (C3_narrow_integer_field_wraps Sample.ParseFloat Sample.float32
                int8Field W8 "300" 300%Z true eq_refl) as [Hint _].
    destruct Hint as (H & _ & _).
    + reflexivity.
    + reflexivity.
    + vm_compute. split; [discriminate|reflexivity].
    + vm_compute. intros [_ H]. discriminate H.
    + exact H.
  - destruct (C3_narrow_integer_field_wraps Sample.ParseFloat Sample.float32
                uint8Field W8 "256" 256%Z true eq_refl) as [_ Huint].
    destruct Huint as (H & _ & _).
    + reflexivity.
    + reflexivity.
    + vm_compute. discriminate.
    + vm_compute. discriminate.
    + exact H.
Defined.

(** ** The loop of a pass *)
Section PassLoop.
Variable ToKebabCase : string -> string.
Variable ParseFloat : string -> Z -> Z * option error.
Variable float32 : Z -> Z.

Local Abbreviation SetField := (Flag.SetField ParseFloat float32).
Local Abbreviation PrintDefaults := (Flag.PrintDefaults ToKebabCase).

Variable src : Field -> option string.
Variable present : bool.
Variable mkErr : Field -> error -> error.
Variable render : bool.

Local Abbreviation loop :=
  (passLoop ToKebabCase ParseFloat float32 src present mkErr render).

(** One iteration, by cases on what the field at the cursor gives. *)
Ltac loop_cases n i fs H :=
  simpl in H;
  let field := fresh "field" in
  let Ef := fresh "Ef" in
  let Es := fresh "Es" in
  let Eset := fresh "Eset" in
  destruct (fs !! i) as [field|] eqn:Ef;
  [ destruct (src field) as [?v|] eqn:Es;
    [ destruct (SetField field v present) as [?field'|?e|?p] eqn:Eset | ]
  | ].

Lemma passLoop_length n i fs out r fs' out' :
  loop n i fs out = (r, fs', out') -> length fs' = length fs.
Proof.
  revert i fs. induction n as [|n IH]; intros i fs H.
  - now inversion H.
  - loop_cases n i fs H.
    + apply IH in H. now rewrite length_insert in H.
    + now inversion H.
    + now inversion H.
    + eauto.
    + now inversion H.
Qed.

(** Fields outside the range the loop still has to visit are untouched. *)
Lemma passLoop_frame n i fs out r fs' out' (j : nat) :
  loop n i fs out = (r, fs', out') ->
  j < i \/ i + n <= j -> fs' !! j = fs !! j.
Proof.
  revert i fs. induction n as [|n IH]; intros i fs H Hj.
  - now inversion H.
  - loop_cases n i fs H.
    + rewrite (IH _ _ H) by lia. apply list_lookup_insert_ne. lia.
    + now inversion H.
    + now inversion H.
    + apply (IH _ _ H). lia.
    + now inversion H.
Qed.

(** A field without a source keeps its value, however the loop ends. *)
Lemma passLoop_unset n i fs out r fs' out' (j : nat) (f : Field) :
  loop n i fs out = (r, fs', out') ->
  fs !! j = Some f -> src f = None -> fs' !! j = Some f.
Proof.
  revert i fs. induction n as [|n IH]; intros i fs H Hf Hs.
  - inversion H; now subst.
  - loop_cases n i fs H.
    + destruct (decide (j = i)) as [->|Hne].
      * congruence.
      * apply (IH _ _ H); [|exact Hs].
        rewrite list_lookup_insert_ne by lia. exact Hf.
    + inversion H; now subst.
    + inversion H; now subst.
    + eauto.
    + inversion H; now subst.
Qed.

(** When the loop returns [nil], every field it visited that has a source
    holds the coerced source, and nothing was printed. *)
Lemma passLoop_ok n i fs out fs' out' :
  loop n i fs out = (Return None, fs', out') ->
  out' = out /\
  forall j f v, i <= j < i + n -> fs !! j = Some f -> src f = Some v ->
    exists f', SetField f v present = SetOk f' /\ fs' !! j = Some f'.
Proof.
  revert i fs. induction n as [|n IH]; intros i fs H.
  - inversion H. split; [reflexivity|]. intros; lia.
  - loop_cases n i fs H.
    + pose proof (passLoop_frame _ _ _ _ _ _ _ i H (or_introl (Nat.lt_succ_diag_r i)))
        as Hi.
      rewrite list_lookup_insert_eq in Hi by (eapply lookup_lt_Some; eauto).
      destruct (IH _ _ H) as [-> IH']. split; [reflexivity|].
      intros j f v' Hj Hf Hs.
      destruct (decide (j = i)) as [->|Hne].
      * assert (f = field) by congruence. subst f.
        assert (v' = v) by congruence. subst v'. eauto.
      * apply IH'; [lia| |exact Hs].
        rewrite list_lookup_insert_ne by lia. exact Hf.
    + discriminate.
    + discriminate.
    + destruct (IH _ _ H) as [-> IH']. split; [reflexivity|].
      intros j f v' Hj Hf Hs.
      destruct (decide (j = i)) as [->|Hne]; [congruence|].
      apply IH'; [lia|exact Hf|exact Hs].
    + inversion H; subst. split; [reflexivity|].
      intros j f v' Hj Hf Hs.
      apply lookup_lt_Some in Hf. apply lookup_ge_None_1 in Ef. lia.
Qed.

(** When the loop returns an error, it stopped at the first field whose
    coercion failed: the error is built from that field and the coercion
    error, the usage text was printed exactly when [render] is set, and
    the fields from that one on are untouched. *)
Lemma passLoop_err n i fs out err fs' out' :
  loop n i fs out = (Return (Some err), fs', out') ->
  exists j f v e,
    i <= j /\ fs !! j = Some f /\ fs' !! j = Some f /\ src f = Some v /\
    SetField f v present = SetErr e /\ err = mkErr f e /\
    out' = (if render then PrintDefaults (Struct fs') out else out) /\
    (forall k, j <= k -> fs' !! k = fs !! k) /\
    (forall k f0 v0, i <= k < j -> fs !! k = Some f0 -> src f0 = Some v0 ->
       exists f', SetField f0 v0 present = SetOk f' /\ fs' !! k = Some f').
Proof.
  revert i fs. induction n as [|n IH]; intros i fs H.
  - discriminate.
  - loop_cases n i fs H.
    + pose proof (passLoop_frame _ _ _ _ _ _ _ i H (or_introl (Nat.lt_succ_diag_r i)))
        as Hi.
      rewrite list_lookup_insert_eq in Hi by (eapply lookup_lt_Some; eauto).
      destruct (IH _ _ H)
        as (j & f & v' & e & Hj & Hf & Hf' & Hs & He & -> & -> & Hk & Hbefore).
      rewrite list_lookup_insert_ne in Hf by lia.
      exists j, f, v', e. repeat (split; [first [lia|assumption|reflexivity]|]).
      split.
      * intros k Hk'. rewrite Hk by exact Hk'. apply list_lookup_insert_ne. lia.
      * intros k f0 v0 Hrange Hf0 Hs0.
        destruct (decide (k = i)) as [->|Hne].
        -- assert (f0 = field) by congruence. subst f0.
           assert (v0 = v) by congruence. subst v0. eauto.
        -- apply Hbefore; [lia| |exact Hs0].
           rewrite list_lookup_insert_ne by lia. exact Hf0.
    + inversion H; subst. exists i, field, v, e.
      repeat (split; [first [lia|assumption|reflexivity]|]).
      intros; lia.
    + discriminate.
    + destruct (IH _ _ H)
        as (j & f & v' & e & Hj & Hf & Hf' & Hs & He & -> & -> & Hk & Hbefore).
      exists j, f, v', e. repeat (split; [first [lia|assumption|reflexivity]|]).
      intros k f0 v0 Hrange Hf0 Hs0.
      destruct (decide (k = i)) as [->|Hne]; [congruence|].
      apply Hbefore; [lia|exact Hf0|exact Hs0].
    + discriminate.
Qed.

(** Nothing is printed by a loop that does not render, and nothing by a
    loop that panics. *)
Lemma passLoop_out n i fs out r fs' out' :
  loop n i fs out = (r, fs', out') ->
  (render = false -> out' = out) /\ (forall p, r = Panics p -> out' = out).
Proof.
  revert i fs. induction n as [|n IH]; intros i fs H.
  - inversion H. split; reflexivity || intros; reflexivity.
  - loop_cases n i fs H; eauto.
    + inversion H; subst. split; [intros ->; reflexivity|discriminate].
    + inversion H; subst. split; reflexivity || intros; reflexivity.
    + inversion H; subst. split; reflexivity || intros; reflexivity.
Qed.

(** A field whose source cannot be coerced keeps the loop from returning
    [nil]. *)
Lemma passLoop_not_ok n fs out fs' out' (j : nat) (f : Field) (v : string) :
  loop n 0 fs out = (Return None, fs', out') ->
  j < n -> fs !! j = Some f -> src f = Some v ->
  (forall f', SetField f v present <> SetOk f') -> False.
Proof.
  intros H Hj Hf Hs Hno.
  destruct (passLoop_ok _ _ _ _ _ _ H) as [_ Hall].
  destruct (Hall j f v ltac:(lia) Hf Hs) as (f' & Hset & _).
  exact (Hno f' Hset).
Qed.

End PassLoop.

(** ** The passes as instances of the loop *)
Section Passes.
Variable ToKebabCase ToConstantCase : string -> string.
Variable ParseFloat : string -> Z -> Z * option error.
Variable float32 : Z -> Z.

Local Abbreviation SetField := (Flag.SetField ParseFloat float32).
Local Abbreviation PrintDefaults := (Flag.PrintDefaults ToKebabCase).
Local Abbreviation SetDefaults := (Flag.SetDefaults ParseFloat float32).
Local Abbreviation ParseEnv :=
  (Flag.ParseEnv ToKebabCase ToConstantCase ParseFloat float32).
Local Abbreviation ParseArgs := (Flag.ParseArgs ToKebabCase ParseFloat float32).
Local Abbreviation envNameOf := (Flag.envNameOf ToConstantCase).
Local Abbreviation flagNameOf := (Flag.flagNameOf ToKebabCase).
Local Abbreviation loop := (passLoop ToKebabCase ParseFloat float32).
Local Abbreviation envSrc := (envSrc ToConstantCase).
Local Abbreviation envErr := (envErr ToConstantCase).
Local Abbreviation flagSrc := (flagSrc ToKebabCase).
Local Abbreviation flagErr := (flagErr ToKebabCase).

Lemma defaultsLoop_passLoop n i fs out :
  Flag.defaultsLoop ParseFloat float32 n i fs
  = (fst (fst (loop defaultSrc false defaultErr false n i fs out)),
     snd (fst (loop defaultSrc false defaultErr false n i fs out))).
Proof.
  revert i fs. induction n as [|n IH]; intros i fs; [reflexivity|].
  simpl. destruct (fs !! i) as [field|]; [|reflexivity].
  unfold defaultSrc at 1 4.
  destruct (CanSet field); cbn [negb]; [|apply IH].
  destruct (String.eqb (Get (Tag field) "default") ""); [apply IH|].
  destruct (SetField field (Get (Tag field) "default") false);
    [apply IH|reflexivity|reflexivity].
Qed.

Lemma envLoop_passLoop env n i fs out :
  Flag.envLoop ToKebabCase ToConstantCase ParseFloat float32 env n i fs out
  = loop (envSrc env) true envErr true n i fs out.
Proof.
  revert i fs. induction n as [|n IH]; intros i fs; [reflexivity|].
  simpl. destruct (fs !! i) as [field|]; [|reflexivity].
  unfold envSrc at 1.
  destruct (env !! envNameOf field); [|apply IH].
  destruct (SetField field s true); [apply IH|reflexivity|reflexivity].
Qed.

Lemma flagsLoop_passLoop flags n i fs out :
  Flag.flagsLoop ToKebabCase ParseFloat float32 flags n i fs out
  = loop (flagSrc flags) true flagErr true n i fs out.
Proof.
  revert i fs. induction n as [|n IH]; intros i fs; [reflexivity|].
  simpl. destruct (fs !! i) as [field|]; [|reflexivity].
  unfold flagSrc at 1.
  destruct (flags !! Get (Tag field) "short") as [v|].
  - destruct (SetField field v true); [apply IH|reflexivity|reflexivity].
  - destruct (flags !! flagNameOf field) as [v|]; [|apply IH].
    destruct (SetField field v true); [apply IH|reflexivity|reflexivity].
Qed.

(** The passes on a struct, through the loop. *)
Lemma SetDefaults_struct (w : World) (fs : list Field) :
  config w = Struct fs ->
  SetDefaults w
  = (fst (fst (loop defaultSrc false defaultErr false (length fs) 0 fs (stdout w))),
     {| config := Struct (snd (fst (loop defaultSrc false defaultErr false
                                      (length fs) 0 fs (stdout w))));
        stdout := stdout w |}).
Proof.
  intros Hc. unfold Flag.SetDefaults. rewrite Hc.
  rewrite (defaultsLoop_passLoop _ _ _ (stdout w)). reflexivity.
Qed.

Lemma ParseEnv_struct (env : gmap string string) (w : World) (fs : list Field) :
  config w = Struct fs ->
  ParseEnv env w
  = (fst (fst (loop (envSrc env) true envErr true (length fs) 0 fs (stdout w))),
     {| config := Struct (snd (fst (loop (envSrc env) true envErr true
                                      (length fs) 0 fs (stdout w))));
        stdout := snd (loop (envSrc env) true envErr true (length fs) 0 fs (stdout w)) |}).
Proof.
  intros Hc. unfold Flag.ParseEnv. rewrite Hc, envLoop_passLoop.
  destruct (loop _ _ _ _ _ _ _ _) as [[r fs'] out']. reflexivity.
Qed.

Lemma ParseArgs_struct (args : list string) (w : World) (fs : list Field) :
  config w = Struct fs ->
  let l := loop (flagSrc (snd (Args.ParseArgs args))) true flagErr true
             (length fs) 0 fs (stdout w) in
  ParseArgs args w
  = (match fst (fst l) with
     | Panics p => Panics p
     | Return (Some err) => Return (None, Some err)
     | Return None => Return (Some (fst (Args.ParseArgs args)), None)
     end,
     {| config := Struct (snd (fst l)); stdout := snd l |}).
Proof.
  intros Hc l. subst l. unfold Flag.ParseArgs.
  destruct (Args.ParseArgs args) as [outArgs flags]. rewrite Hc, flagsLoop_passLoop.
  cbn [fst snd].
  destruct (loop _ _ _ _ _ _ _ _) as [[[[e|]|p] fs'] out']; reflexivity.
Qed.

End Passes.

(** ** The environment pass *)
Section Environment.
Variable ToKebabCase ToConstantCase : string -> string.
Variable ParseFloat : string -> Z -> Z * option error.
Variable float32 : Z -> Z.

Local Abbreviation SetField := (Flag.SetField ParseFloat float32).
Local Abbreviation ParseEnv :=
  (Flag.ParseEnv ToKebabCase ToConstantCase ParseFloat float32).

(** C6: for every field, the environment variable name is the [env] tag if
    it is present (non-empty), else the constant-case transform of the field
    identifier.  If that variable is unset the field keeps its current value,
    however the pass ends.  If it is set, the field holds the coerced value
    once the pass has handled the field: every such field when the pass
    returns without error, and those before the failing field when it
    returns an error (the fields from the failing one on are untouched).
    With default "8080", environment value "3000" and no matching flag, the
    resolved field equals 3000. *)
Theorem C6_environment_overlay
    (env : gmap string string) (w w' : World) (fs : list Field)
    (r : Result (option error)) :
  config w = Struct fs ->
  ParseEnv env w = (r, w') ->
  let name := fun f : Field =>
    if String.eqb (Get (Tag f) "env") "" then ToConstantCase (FName f)
    else Get (Tag f) "env" in
  (exists fs',
      config w' = Struct fs' /\ length fs' = length fs /\
      (forall j f, fs !! j = Some f -> env !! name f = None -> fs' !! j = Some f) /\
      (r = Return None ->
       forall j f v, fs !! j = Some f -> env !! name f = Some v ->
         exists f', SetField f v true = SetOk f' /\ fs' !! j = Some f') /\
      (forall err, r = Return (Some err) ->
       exists failing,
         (forall j f v, j < failing -> fs !! j = Some f -> env !! name f = Some v ->
            exists f', SetField f v true = SetOk f' /\ fs' !! j = Some f') /\
         (forall j, failing <= j -> fs' !! j = fs !! j))) /\
  Sample.ParseAll testEnv ["--log-level=debug"] (Sample.world testConfig)
  = (Return (Some [], None), Sample.world (testResolved "debug")).
Proof.
  intros Hc Hp name. split; [|vm_compute; reflexivity].
  rewrite (ParseEnv_struct ToKebabCase ToConstantCase ParseFloat float32 env w fs Hc) in Hp.
  destruct (passLoop ToKebabCase ParseFloat float32
              (envSrc ToConstantCase env) true (envErr ToConstantCase) true
              (length fs) 0 fs (stdout w)) as [[r0 fs'] out'] eqn:Hl.
  cbn [fst snd] in Hp. inversion Hp; subst r w'. clear Hp.
  exists fs'. split; [reflexivity|].
  split; [eapply passLoop_length; exact Hl|].
  split; [|split].
  - intros j f Hf Hn. eapply passLoop_unset; [exact Hl|exact Hf|exact Hn].
  - intros -> j f v Hf Hv.
    destruct (passLoop_ok _ _ _ _ _ _ _ _ _ _ _ _ _ Hl) as [_ Hall].
    apply (Hall j f v); [|exact Hf|exact Hv].
    apply lookup_lt_Some in Hf. lia.
  - intros err ->.
    destruct (passLoop_err _ _ _ _ _ _ _ _ _ _ _ _ _ _ Hl)
      as (failing & _ & _ & _ & _ & _ & _ & _ & _ & _ & _ & Hafter & Hbefore).
    exists failing. split; [|exact Hafter].
    intros j f v Hj Hf Hv. apply (Hbefore j f v); [lia|exact Hf|exact Hv].
Qed.

End Environment.

Lemma C6_environment_overlay_witness :
  exists fs',
    config (snd (Sample.ParseEnv testEnv (Sample.world testDefaulted))) = Struct fs' /\
    fs' !! 0%nat
    = Some (Sample.field "PortNumber" Sample.int [("default", "8080")] (VInt 3000)) /\
    fs' !! 2%nat
    = Some (Sample.field "LogLevel" Sample.string_ [("default", "info")] (VString "info")).
Proof.
  destruct (C6_environment_overlay
              Sample.ToKebabCase Sample.ToConstantCase Sample.ParseFloat Sample.float32
              testEnv (Sample.world testDefaulted)
              (snd (Sample.ParseEnv testEnv (Sample.world testDefaulted)))
              testDefaulted (Return None) eq_refl)
    as [(fs' & Hc & _ & Hunset & Hset & _) _].
  - vm_compute. reflexivity.
  - exists fs'. split; [exact Hc|]. split.
    + destruct (Hset eq_refl 0%nat _ "3000" eq_refl) as (f' & Hf' & ->);
        [vm_compute; reflexivity|].
      vm_compute in Hf'. now inversion Hf'.
    + apply (Hunset 2%nat _ eq_refl). vm_compute. reflexivity.
Defined.

(** ** Failures of the passes *)
Section Failures.
Variable ToKebabCase ToConstantCase : string -> string.
Variable ParseFloat : string -> Z -> Z * option error.
Variable float32 : Z -> Z.

Local Abbreviation SetField := (Flag.SetField ParseFloat float32).
Local Abbreviation PrintDefaults := (Flag.PrintDefaults ToKebabCase).
Local Abbreviation SetDefaults := (Flag.SetDefaults ParseFloat float32).
Local Abbreviation ParseEnv :=
  (Flag.ParseEnv ToKebabCase ToConstantCase ParseFloat float32).
Local Abbreviation ParseArgs := (Flag.ParseArgs ToKebabCase ParseFloat float32).
Local Abbreviation envNameOf := (Flag.envNameOf ToConstantCase).
Local Abbreviation flagNameOf := (Flag.flagNameOf ToKebabCase).
Local Abbreviation loop := (passLoop ToKebabCase ParseFloat float32).

Lemma defaultSrc_Some (f : Field) :
  CanSet f = true -> Get (Tag f) "default" <> "" ->
  defaultSrc f = Some (Get (Tag f) "default").
Proof.
  intros Hc Hd. unfold defaultSrc. rewrite Hc. cbn [negb].
  destruct (String.eqb_spec (Get (Tag f) "default") ""); [contradiction|reflexivity].
Qed.



Lemma flagSrc_is_Some (flags : gmap string string) (f : Field) :
  is_Some (flags !! Get (Tag f) "short") \/ is_Some (flags !! flagNameOf f) ->
  is_Some (flagSrc ToKebabCase flags f).
Proof.
  unfold flagSrc. intros [[v Hv]|[v Hv]].
  - rewrite Hv. eauto.
  - destruct (flags !! Get (Tag f) "short"); [eauto|]. rewrite Hv. eauto.
Qed.

(** A field whose source is never coerced successfully makes each pass
    fail. *)
Lemma SetDefaults_not_ok (w : World) (fs : list Field) (j : nat) (f : Field) :
  config w = Struct fs -> fs !! j = Some f ->
  CanSet f = true -> Get (Tag f) "default" <> "" ->
  (forall f', SetField f (Get (Tag f) "default") false <> SetOk f') ->
  fst (SetDefaults w) <> Return None.
Proof.
  intros Hc Hf Hs Hd Hno. rewrite (SetDefaults_struct ToKebabCase ParseFloat float32 w fs Hc). cbn [fst].
  destruct (loop defaultSrc false defaultErr false (length fs) 0 fs (stdout w))
    as [[r fs'] out'] eqn:Hl.
  cbn [fst]. intros ->.
  eapply (passLoop_not_ok _ _ _ _ _ _ _ _ _ _ _ _ j f); eauto using defaultSrc_Some.
  eapply lookup_lt_Some; eauto.
Qed.

Lemma ParseEnv_not_ok (env : gmap string string) (w : World) (fs : list Field)
    (j : nat) (f : Field) (v : string) :
  config w = Struct fs -> fs !! j = Some f ->
  env !! envNameOf f = Some v ->
  (forall f', SetField f v true <> SetOk f') ->
  fst (ParseEnv env w) <> Return None.
Proof.
  intros Hc Hf Hv Hno. rewrite (ParseEnv_struct ToKebabCase ToConstantCase ParseFloat float32 env w fs Hc). cbn [fst].
  destruct (loop (envSrc ToConstantCase env) true (envErr ToConstantCase) true
              (length fs) 0 fs (stdout w)) as [[r fs'] out'] eqn:Hl.
  cbn [fst]. intros ->.
  eapply (passLoop_not_ok _ _ _ _ _ _ _ _ _ _ _ _ j f v); eauto.
  eapply lookup_lt_Some; eauto.
Qed.

Lemma ParseArgs_not_ok (args : list string) (w : World) (fs : list Field)
    (j : nat) (f : Field) (v : string) :
  config w = Struct fs -> fs !! j = Some f ->
  flagSrc ToKebabCase (snd (Args.ParseArgs args)) f = Some v ->
  (forall f', SetField f v true <> SetOk f') ->
  forall outArgs, fst (ParseArgs args w) <> Return (outArgs, None).
Proof.
  intros Hc Hf Hv Hno outArgs. rewrite (ParseArgs_struct ToKebabCase ParseFloat float32 args w fs Hc). cbn [fst].
  destruct (loop (flagSrc ToKebabCase (snd (Args.ParseArgs args))) true
              (flagErr ToKebabCase) true (length fs) 0 fs (stdout w))
    as [[r fs'] out'] eqn:Hl.
  cbn [fst]. destruct r as [[e|]|p]; try discriminate. intros _.
  eapply (passLoop_not_ok _ _ _ _ _ _ _ _ _ _ _ _ j f v); eauto.
  eapply lookup_lt_Some; eauto.
Qed.

(** What the flags pass does leave alone: a field for which the mapping
    has neither the value of its [short] tag (the empty string when the tag
    is absent) nor its long key. *)
Lemma ParseArgs_skips_unmatched (args : list string) (w : World) (fs : list Field)
    (j : nat) (f : Field) :
  config w = Struct fs -> fs !! j = Some f ->
  snd (Args.ParseArgs args) !! Get (Tag f) "short" = None ->
  snd (Args.ParseArgs args) !! flagNameOf f = None ->
  exists fs', config (snd (ParseArgs args w)) = Struct fs' /\ fs' !! j = Some f.
Proof.
  intros Hc Hf Hshort Hlong.
  rewrite (ParseArgs_struct ToKebabCase ParseFloat float32 args w fs Hc). cbn [snd config].
  destruct (loop (flagSrc ToKebabCase (snd (Args.ParseArgs args))) true
              (flagErr ToKebabCase) true (length fs) 0 fs (stdout w))
    as [[r fs'] out'] eqn:Hl.
  exists fs'. split; [reflexivity|].
  eapply passLoop_unset; [exact Hl|exact Hf|].
  unfold flagSrc. now rewrite Hshort, Hlong.
Qed.

(** A field without a [short] tag is assigned from the empty key, when
    the mapping has it, even though its long key is not in the mapping. *)
Lemma ParseArgs_empty_key_hits_untagged (args : list string) (w : World)
    (fs : list Field) (j : nat) (f : Field) (v : string) (outArgs : option (list string)) :
  config w = Struct fs -> fs !! j = Some f ->
  Get (Tag f) "short" = "" ->
  snd (Args.ParseArgs args) !! "" = Some v ->
  fst (ParseArgs args w) = Return (outArgs, None) ->
  exists f' fs',
    SetField f v true = SetOk f' /\
    config (snd (ParseArgs args w)) = Struct fs' /\ fs' !! j = Some f'.
Proof.
  intros Hc Hf Hshort Hempty.
  rewrite (ParseArgs_struct ToKebabCase ParseFloat float32 args w fs Hc). cbn [fst snd config].
  destruct (loop (flagSrc ToKebabCase (snd (Args.ParseArgs args))) true
              (flagErr ToKebabCase) true (length fs) 0 fs (stdout w))
    as [[r fs'] out'] eqn:Hl.
  cbn [fst snd]. destruct r as [[e|]|p]; try discriminate. intros _.
  destruct (passLoop_ok _ _ _ _ _ _ _ _ _ _ _ _ _ Hl) as [_ Hall].
  destruct (Hall j f v) as (f' & Hset & Hf').
  - apply lookup_lt_Some in Hf. lia.
  - exact Hf.
  - unfold flagSrc. now rewrite Hshort, Hempty.
  - eauto.
Qed.


End Failures.

Section Rendering.
Variable ToKebabCase ToConstantCase : string -> string.
Variable ParseFloat : string -> Z -> Z * option error.
Variable float32 : Z -> Z.

Local Abbreviation SetField := (Flag.SetField ParseFloat float32).
Local Abbreviation PrintDefaults := (Flag.PrintDefaults ToKebabCase).
Local Abbreviation SetDefaults := (Flag.SetDefaults ParseFloat float32).
Local Abbreviation ParseEnv :=
  (Flag.ParseEnv ToKebabCase ToConstantCase ParseFloat float32).
Local Abbreviation ParseArgs := (Flag.ParseArgs ToKebabCase ParseFloat float32).
Local Abbreviation ParseAll :=
  (Flag.ParseAll ToKebabCase ToConstantCase ParseFloat float32).
Local Abbreviation envNameOf := (Flag.envNameOf ToConstantCase).
Local Abbreviation flagNameOf := (Flag.flagNameOf ToKebabCase).
Local Abbreviation loop := (passLoop ToKebabCase ParseFloat float32).


End Rendering.


(** ** Pointer fields without the text-unmarshal capability *)
Section PointerFields.
Variable ToKebabCase ToConstantCase : string -> string.
Variable ParseFloat : string -> Z -> Z * option error.
Variable float32 : Z -> Z.

Local Abbreviation SetField := (Flag.SetField ParseFloat float32).
Local Abbreviation PrintDefaults := (Flag.PrintDefaults ToKebabCase).
Local Abbreviation SetDefaults := (Flag.SetDefaults ParseFloat float32).
Local Abbreviation ParseEnv :=
  (Flag.ParseEnv ToKebabCase ToConstantCase ParseFloat float32).
Local Abbreviation ParseArgs := (Flag.ParseArgs ToKebabCase ParseFloat float32).
Local Abbreviation envNameOf := (Flag.envNameOf ToConstantCase).
Local Abbreviation flagNameOf := (Flag.flagNameOf ToKebabCase).

Lemma SetField_pointer_unsupported (f : Field) (e : ElemType)
    (value : string) (present : bool) :
  shape (FType f) = SPointer e ->
  ImplementsTextUnmarshaler (FType f) = false ->
  SetField f value present = SetErr (errorString "unsupported flag type").
Proof.
  intros Hs Hi. unfold Flag.SetField, Kind_of, TypeKind. rewrite Hs. simpl.
  rewrite Hi. reflexivity.
Qed.

Lemma PrintDefaults_lists (fs : list Field) (out : list Output) (j : nat) (f : Field) :
  fs !! j = Some f ->
  In (PrintfEntry (fst (fst (entryOf ToKebabCase f)))
        (maxNameTypeLength (map (entryOf ToKebabCase) fs))
        (snd (fst (entryOf ToKebabCase f))) (snd (entryOf ToKebabCase f)))
     (PrintDefaults (Struct fs) out).
Proof.
  intros Hf. unfold Flag.PrintDefaults. apply in_or_app. right. right.
  apply (in_map (fun e => PrintfEntry (fst (fst e))
                             (maxNameTypeLength (map (entryOf ToKebabCase) fs))
                             (snd (fst e)) (snd e))).
  apply in_map. apply list_elem_of_In. eapply list_elem_of_lookup_2. exact Hf.
Qed.

(** C10, as amended: for every pointer-typed field whose type does not
    implement the text-unmarshal capability, SetField returns the
    unsupported-type error for every input string; so a non-empty [default]
    tag on such a field when it is settable, an environment value for it,
    or a flag value under its short or long key keeps that pass from
    returning without error; and PrintDefaults lists the field with a
    '*'-prefixed type name. *)
Theorem C10_pointer_field_unsupported_amended (f : Field) (e : ElemType) :
  shape (FType f) = SPointer e ->
  ImplementsTextUnmarshaler (FType f) = false ->
  (forall value present,
     SetField f value present = SetErr (errorString "unsupported flag type")) /\
  (forall w fs j, config w = Struct fs -> fs !! j = Some f ->
     (CanSet f = true -> Get (Tag f) "default" <> "" ->
      fst (SetDefaults w) <> Return None) /\
     (forall env, is_Some (env !! envNameOf f) ->
      fst (ParseEnv env w) <> Return None) /\
     (forall args,
        is_Some (snd (Args.ParseArgs args) !! Get (Tag f) "short") \/
        is_Some (snd (Args.ParseArgs args) !! flagNameOf f) ->
        forall outArgs, fst (ParseArgs args w) <> Return (outArgs, None)) /\
     (forall out, exists short width usage,
        In (PrintfEntry short width
              ("--" ++ ToKebabCase (FName f) ++ " *" ++ eName e) usage)
           (PrintDefaults (Struct fs) out))).
Proof.
  intros Hs Hi.
  assert (Hno : forall v p f', SetField f v p <> SetOk f').
  { intros v p f'. rewrite (SetField_pointer_unsupported f e v p Hs Hi). discriminate. }
  split; [intros; now apply (SetField_pointer_unsupported f e)|].
  intros w fs j Hc Hf. repeat apply conj.
  - intros Hset Hd. eapply SetDefaults_not_ok; eauto.
  - intros env [v Hv]. eapply ParseEnv_not_ok; eauto.
  - intros args Hin.
    destruct (flagSrc_is_Some ToKebabCase _ f Hin) as [v Hv].
    eapply ParseArgs_not_ok; eauto.
  - intros out. pose proof (PrintDefaults_lists fs out j f Hf) as Hin.
    unfold entryOf in Hin. rewrite Hs in Hin. cbn [fst snd] in Hin. eauto.
Qed.

End PointerFields.

Lemma C10_pointer_field_unsupported_amended_witness :
  Sample.SetField timeoutPtrField "30" true
  = SetErr (errorString "unsupported flag type") /\
  (forall outArgs,
     fst (Sample.ParseArgs ["-t"; "30"] (Sample.world [timeoutPtrField]))
     <> Return (outArgs, None)) /\
  exists short width usage,
    In (PrintfEntry short width "--timeout *int" usage)
       (Sample.PrintDefaults (Struct [timeoutPtrField]) []).
Proof.
  destruct (C10_pointer_field_unsupported_amended
              Sample.ToKebabCase Sample.ToConstantCase Sample.ParseFloat Sample.float32
              timeoutPtrField _ eq_refl eq_refl) as [Hset Hpass].
  destruct (Hpass (Sample.world [timeoutPtrField]) [timeoutPtrField] 0%nat
              eq_refl eq_refl) as (_ & _ & Hflags & Hprint).
  split; [apply Hset|]. split.
  - apply Hflags. left. vm_compute. eauto.
  - exact (Hprint []).
Defined.

(** C10, as stated, fails: a [default] tag on an unexported pointer field
    does not make the defaults pass fail, because the pass skips the fields
    it cannot set. *)
Lemma C10_unexported_default_counterexample :
  shape (FType unexportedPtrField) = SPointer (Build_ElemType "int" (KInt W) None false) /\
  ImplementsTextUnmarshaler (FType unexportedPtrField) = false /\
  Get (Tag unexportedPtrField) "default" = "5" /\
  Sample.SetDefaults (Sample.world [unexportedPtrField])
  = (Return None, Sample.world [unexportedPtrField]).
Proof. repeat split. Qed.

(** ** The tokenizer against its trace *)

Section Tokenizer.

Lemma run_walk (fuel : nat) (args : list string) (i : nat)
    (pos : list string) (flags : gmap string string) :
  length args - i <= fuel ->
  Args.run fuel args i pos flags = walk (drop i args) pos flags.
Proof.
  revert i pos flags. induction fuel as [|fuel IH]; intros i pos flags Hfuel.
  - rewrite drop_ge by lia. reflexivity.
  - simpl. destruct (args !! i) as [arg|] eqn:Ei.
    + rewrite (drop_S _ _ _ Ei). simpl.
      assert (Hnext : head (drop (S i) args) = args !! S i).
      { rewrite head_lookup, lookup_drop. f_equal. lia. }
      rewrite Hnext.
      apply lookup_lt_Some in Ei.
      destruct (Args.body arg (args !! S i) pos flags) as [[skip pos'] flags'].
      destruct skip.
      * rewrite IH by lia.
        destruct (args !! S i) as [v|] eqn:Ev.
        -- rewrite (drop_S _ _ _ Ev). reflexivity.
        -- apply lookup_ge_None_1 in Ev.
           rewrite (drop_ge _ (S i)), (drop_ge _ (S (S i))) by lia. reflexivity.
      * apply IH. lia.
    + apply lookup_ge_None_1 in Ei. rewrite drop_ge by lia. reflexivity.
Qed.

Lemma ParseArgs_walk (args : list string) : Args.ParseArgs args = walk args [] ∅.
Proof. unfold Args.ParseArgs. rewrite run_walk by lia. reflexivity. Qed.

Lemma foldl_insert_union (rs : list Z) (m1 m2 : gmap string string) :
  foldl (fun fl r => <[Utf8.string_of_rune r := ""]> fl) (m1 ∪ m2) rs
  = foldl (fun fl r => <[Utf8.string_of_rune r := ""]> fl) m1 rs ∪ m2.
Proof.
  revert m1. induction rs as [|r rs IH]; intros m1; simpl; [reflexivity|].
  rewrite insert_union_l. apply IH.
Qed.

(** The body adds to the outputs it is given what it adds to empty ones. *)
Lemma body_delta (arg : string) (next : option string)
    (pos : list string) (flags : gmap string string) :
  Args.body arg next pos flags
  = (skipOf arg next, (pos ++ appendedBy arg next)%list, writtenBy arg next ∪ flags).
Proof.
  unfold skipOf, appendedBy, writtenBy, Args.body.
  assert (Hins : forall k v, <[k := v]> flags = <[k := v]> ∅ ∪ flags).
  { intros k v. rewrite <- insert_union_l. now rewrite (left_id_L ∅ (∪)). }
  repeat match goal with
         | |- context [if ?b then _ else _] => destruct b
         end; cbn [fst snd]; rewrite ?app_nil_r, ?app_nil_l;
    try (rewrite <- Hins; reflexivity).
  - rewrite <- foldl_insert_union. now rewrite (left_id_L ∅ (∪)).
  - now rewrite (left_id_L ∅ (∪)).
Qed.

(** The cases of the body for one token. *)
Lemma body_cases (arg : string) (next : option string) :
  (appendedBy arg next = [arg] /\ writtenBy arg next = ∅ /\ skipOf arg next = false) \/
  (appendedBy arg next = [] /\ skipOf arg next = false /\
   exists k v, writtenBy arg next = {[k := v]}) \/
  (appendedBy arg next = [] /\ skipOf arg next = true /\
   exists k v, next = Some v /\ writtenBy arg next = {[k := v]}) \/
  (appendedBy arg next = [] /\ skipOf arg next = false /\
   combinedToken arg = true /\ writtenBy arg next = presenceEntries arg).
Proof.
  unfold skipOf, appendedBy, writtenBy, Args.body, combinedToken, presenceEntries.
  destruct (Strings.HasPrefix arg "--") eqn:Elong.
  - destruct (Strings.Contains (Strings.from 2 arg) "=").
    + right; left. cbn [fst snd]. rewrite insert_empty. eauto.
    + destruct next as [a|]; [destruct (negb (Strings.HasPrefix a "-"))|].
      * right; right; left. cbn [fst snd default]. rewrite insert_empty.
        repeat split. do 2 eexists. split; reflexivity.
      * right; left. cbn [fst snd]. rewrite insert_empty. eauto.
      * right; left. cbn [fst snd]. rewrite insert_empty. eauto.
  - destruct (Strings.HasPrefix arg "-") eqn:Edash; cbn [andb negb];
      [destruct (1 <? String.length arg)%nat eqn:Elen|].
    + destruct (Strings.Contains (Strings.from 2 arg) "=") eqn:Eeq.
      * rewrite orb_true_r. right; left. cbn [fst snd]. rewrite insert_empty. eauto.
      * rewrite orb_false_r. destruct (String.length arg =? 2)%nat eqn:Etwo.
        -- destruct next as [a|]; [destruct (negb (Strings.HasPrefix a "-"))|].
           ++ right; right; left. cbn [fst snd default]. rewrite insert_empty.
        repeat split. do 2 eexists. split; reflexivity.
           ++ right; left. cbn [fst snd]. rewrite insert_empty. eauto.
           ++ right; left. cbn [fst snd]. rewrite insert_empty. eauto.
        -- right; right; right. cbn [fst snd negb andb].
           apply Nat.ltb_lt in Elen. apply Nat.eqb_neq in Etwo.
           destruct (Nat.ltb_spec 2 (String.length arg)); [auto|lia].
    + left. auto.
    + left. auto.
Qed.

Lemma positional_cons (arg : string) (next : option string) (t : list event) :
  map token
    (filter (fun e => isPositional e = true)
       ({| token := arg;
           kind := match appendedBy arg next with [] => AsFlag | _ => AsPositional end;
           writes := writtenBy arg next |} :: t))
  = (appendedBy arg next ++ map token (filter (fun e => isPositional e = true) t))%list.
Proof.
  destruct (body_cases arg next) as [(-> & _)|[(-> & _)|[(-> & _)|(-> & _)]]];
    reflexivity.
Qed.

Lemma positional_value (v : string) (t : list event) :
  filter (fun e => isPositional e = true)
    ({| token := v; kind := AsValue; writes := ∅ |} :: t)
  = filter (fun e => isPositional e = true) t.
Proof. reflexivity. Qed.

Lemma skipOf_last (arg : string) : skipOf arg None = false.
Proof.
  destruct (body_cases arg None) as [(_ & _ & H)|[(_ & H & _)|[(_ & _ & k & v & H & _)|(_ & H & _)]]];
    [exact H|exact H|discriminate H|exact H].
Qed.

(** Every token is handled exactly once: the tokens of the trace are the
    arguments. *)
Lemma trace_tokens_le (n : nat) (args : list string) :
  length args <= n -> map token (trace args) = args.
Proof.
  revert args. induction n as [|n IH]; intros args Hn.
  - destruct args; [reflexivity|simpl in Hn; lia].
  - destruct args as [|arg rest]; [reflexivity|]. simpl in Hn. simpl.
    f_equal. destruct (skipOf arg (head rest)).
    + destruct rest as [|v rest']; [reflexivity|]. simpl in Hn. simpl.
      f_equal. apply IH. lia.
    + apply IH. lia.
Qed.


(** The outputs of the loop, read off the trace. *)
Lemma walk_trace_le (n : nat) (args pos : list string) (flags : gmap string string) :
  length args <= n ->
  walk args pos flags
  = ((pos ++ map token (filter (fun e => isPositional e = true) (trace args)))%list,
     foldl (fun m e => writes e ∪ m) flags (trace args)).
Proof.
  revert args pos flags. induction n as [|n IH]; intros args pos flags Hn.
  - destruct args; [|simpl in Hn; lia]. simpl. now rewrite app_nil_r.
  - destruct args as [|arg rest]; [simpl; now rewrite app_nil_r|].
    simpl in Hn. cbn [walk trace]. rewrite body_delta, positional_cons.
    destruct (skipOf arg (head rest)) eqn:Eskip.
    + destruct rest as [|v rest'].
      * simpl in Eskip. rewrite skipOf_last in Eskip. discriminate.
      * simpl in Hn. rewrite IH by lia. rewrite positional_value.
        cbn [foldl writes]. rewrite (left_id_L ∅ (∪)), app_assoc. reflexivity.
    + rewrite IH by lia. cbn [foldl writes]. rewrite app_assoc. reflexivity.
Qed.


End Tokenizer.



(** * Further properties *)

(** ** The tokenizer *)

Lemma HasPrefix_dash_dash (a : string) :
  Strings.HasPrefix a "-" = false -> Strings.HasPrefix a "--" = false.
Proof.
  destruct a as [|c t]; [reflexivity|]. simpl.
  destruct (Ascii.eqb c "-"); [discriminate|reflexivity].
Qed.

Lemma body_no_dash (arg : string) (next : option string)
    (pos : list string) (flags : gmap string string) :
  Strings.HasPrefix arg "-" = false ->
  Args.body arg next pos flags = (false, (pos ++ [arg])%list, flags).
Proof.
  intros H. unfold Args.body. rewrite (HasPrefix_dash_dash arg H), H. reflexivity.
Qed.

Lemma walk_no_dash (args pos : list string) (flags : gmap string string) :
  Forall (fun a => Strings.HasPrefix a "-" = false) args ->
  walk args pos flags = ((pos ++ args)%list, flags).
Proof.
  intros H. revert pos. induction H as [|arg rest Harg _ IH]; intros pos.
  - simpl. now rewrite app_nil_r.
  - cbn [walk]. rewrite (body_no_dash arg _ _ _ Harg), IH, <- app_assoc. reflexivity.
Qed.

(** X1: when no token starts with a dash, every token is a positional
    argument, in order, and no flag is recorded. *)
Theorem X1_tokens_without_dash_are_positionals (args : list string) :
  Forall (fun a => Strings.HasPrefix a "-" = false) args ->
  Args.ParseArgs args = (args, ∅).
Proof. intros H. rewrite ParseArgs_walk. apply (walk_no_dash args [] ∅ H). Qed.

Lemma X1_tokens_without_dash_are_positionals_witness :
  Args.ParseArgs ["command1"; "command2"] = (["command1"; "command2"], ∅).
Proof.
  apply (X1_tokens_without_dash_are_positionals ["command1"; "command2"]).
  repeat constructor.
Defined.

(** A token handled as a positional does not start with a dash, unless it
    is the lone dash. *)
Lemma appended_is_plain (arg : string) (next : option string) :
  appendedBy arg next = [arg] ->
  Strings.HasPrefix arg "-" = false \/ arg = "-".
Proof.
  unfold appendedBy, Args.body.
  destruct (Strings.HasPrefix arg "--") eqn:Elong.
  - repeat match goal with |- context [if ?b then _ else _] => destruct b end;
      discriminate.
  - destruct (Strings.HasPrefix arg "-") eqn:Edash; [|now left].
    destruct (1 <? String.length arg)%nat eqn:Elen; cbn [andb].
    + repeat match goal with |- context [if ?b then _ else _] => destruct b end;
        discriminate.
    + intros _. right. apply Nat.ltb_ge in Elen.
      destruct arg as [|c [|c' t]]; [discriminate Edash| |simpl in Elen; lia].
      simpl in Edash. destruct (Ascii.eqb_spec c "-"); [now subst|discriminate].
Qed.

Lemma trace_positionals_plain_le (n : nat) (args : list string) :
  length args <= n ->
  Forall (fun e => isPositional e = true ->
                   Strings.HasPrefix (token e) "-" = false \/ token e = "-")
         (trace args).
Proof.
  revert args. induction n as [|n IH]; intros args Hn.
  - destruct args; [constructor|simpl in Hn; lia].
  - destruct args as [|arg rest]; [constructor|]. simpl in Hn. cbn [trace].
    constructor.
    + unfold isPositional. cbn [kind token].
      destruct (body_cases arg (head rest))
        as [(Ha & _)|[(-> & _)|[(-> & _)|(-> & _)]]]; try discriminate.
      intros _. exact (appended_is_plain arg (head rest) Ha).
    + destruct (skipOf arg (head rest)).
      * destruct rest as [|v rest']; [constructor|]. simpl in Hn.
        constructor; [discriminate|]. apply IH. lia.
      * apply IH. lia.
Qed.

(** X2: the positional arguments are tokens of the input, in their
    order (a sublist of it), and none of them starts with a dash, except the
    lone dash. *)
Theorem X2_positionals_are_plain_tokens_in_order (args : list string) :
  fst (Args.ParseArgs args) `sublist_of` args /\
  Forall (fun p => Strings.HasPrefix p "-" = false \/ p = "-")
         (fst (Args.ParseArgs args)).
Proof.
  rewrite ParseArgs_walk, (walk_trace_le (length args)) by lia. cbn [fst app].
  split.
  - rewrite <- (trace_tokens_le (length args) args) at 2 by lia.
    apply (fmap_sublist token). apply sublist_filter.
  - pose proof (trace_positionals_plain_le (length args) args (le_n _)) as H.
    induction H as [|e t He _ IH]; [constructor|].
    rewrite filter_cons. destruct (decide (isPositional e = true)) as [Hp|_].
    + constructor; [exact (He Hp)|exact IH].
    + exact IH.
Qed.

(** Facts about [strings.Index], [Contains] and [SplitN] with the
    separator "=". *)
Lemma Index_cons_eq (c : ascii) (t : string) :
  Strings.Index (String c t) "=" =
    if Ascii.eqb c "=" then Some 0%nat else S <$> Strings.Index t "=".
Proof. simpl. destruct (Ascii.eqb c "="); reflexivity. Qed.

Lemma Index_app_eq (key v : string) :
  Strings.Contains key "=" = false ->
  Strings.Index (key ++ String "=" v) "=" = Some (String.length key).
Proof.
  unfold Strings.Contains. induction key as [|c key IH].
  - intros _. reflexivity.
  - rewrite Index_cons_eq.
    change (String c key ++ String "=" v) with (String c (key ++ String "=" v)).
    rewrite (Index_cons_eq c (key ++ String "=" v)).
    destruct (Ascii.eqb c "="); [discriminate|].
    destruct (Strings.Index key "=") as [m|] eqn:E; [discriminate|].
    intros _. rewrite IH by reflexivity. reflexivity.
Qed.

Lemma upto_app (key rest : string) :
  Strings.upto (String.length key) (key ++ rest) = key.
Proof. induction key as [|c key IH]; simpl; [reflexivity|now rewrite IH]. Qed.

Lemma from_app (key rest : string) (n : nat) :
  Strings.from (String.length key + n) (key ++ rest) = Strings.from n rest.
Proof. induction key as [|c key IH]; simpl; [reflexivity|exact IH]. Qed.

Lemma length_app_eq (key v : string) :
  String.length (key ++ String "=" v) = S (String.length key + String.length v).
Proof. induction key as [|c key IH]; simpl; [reflexivity|now rewrite IH]. Qed.

Lemma SplitN_first_eq (key v : string) :
  Strings.Contains key "=" = false ->
  Strings.Contains (key ++ String "=" v) "=" = true /\
  Strings.SplitN (key ++ String "=" v) "=" 2 = [key; v].
Proof.
  intros Hk. pose proof (Index_app_eq key v Hk) as Hi. split.
  - unfold Strings.Contains. now rewrite Hi.
  - unfold Strings.SplitN, Strings.genSplit.
    change (2 =? 0)%Z with false. change (2 <? 0)%Z with false. cbv iota.
    destruct (Z.ltb_spec (Z.of_nat (String.length (key ++ String "=" v)) + 1) 2)
      as [Hlt|_].
    + rewrite length_app_eq in Hlt. lia.
    + change (Z.to_nat (2 - 1)) with 1%nat. cbn [Strings.splitLoop]. rewrite Hi.
      rewrite upto_app. change (String.length "=") with 1%nat.
      rewrite from_app. reflexivity.
Qed.

Lemma body_long_inline (key v : string) (next : option string)
    (pos : list string) (flags : gmap string string) :
  Strings.Contains key "=" = false ->
  Args.body ("--" ++ key ++ String "=" v) next pos flags
  = (false, pos, <[key := v]> flags).
Proof.
  intros Hk. destruct (SplitN_first_eq key v Hk) as [Hc Hs].
  unfold Args.body.
  change (Strings.HasPrefix ("--" ++ key ++ String "=" v) "--") with true.
  change (Strings.from 2 ("--" ++ key ++ String "=" v)) with (key ++ String "=" v).
  cbv iota. rewrite Hc, Hs. reflexivity.
Qed.

(** X3: a single token [--key=value], where the key holds no '=', records
    the value under the key, whatever the value (empty, or holding further
    '='): the split is at the first '='. *)
Theorem X3_long_flag_inline_value (key value : string) :
  Strings.Contains key "=" = false ->
  Args.ParseArgs ["--" ++ key ++ String "=" value] = ([], {[ key := value ]}).
Proof.
  intros Hk. rewrite ParseArgs_walk. cbn [walk head].
  rewrite (body_long_inline key value None [] ∅ Hk). now rewrite insert_empty.
Qed.

Lemma X3_long_flag_inline_value_witness :
  Args.ParseArgs ["--url=http://host/?a=b"] = ([], {[ "url" := "http://host/?a=b" ]}).
Proof. apply (X3_long_flag_inline_value "url" "http://host/?a=b"). reflexivity. Defined.

Lemma body_long_plain (key : string) (next : option string)
    (pos : list string) (flags : gmap string string) :
  Strings.Contains key "=" = false ->
  Args.body ("--" ++ key) next pos flags
  = match next with
    | Some v => if Strings.HasPrefix v "-" then (false, pos, <[key := ""]> flags)
                else (true, pos, <[key := v]> flags)
    | None => (false, pos, <[key := ""]> flags)
    end.
Proof.
  intros Hk. unfold Args.body.
  change (Strings.HasPrefix ("--" ++ key) "--") with true.
  change (Strings.from 2 ("--" ++ key)) with key.
  cbv iota. rewrite Hk.
  destruct next as [v|]; [|reflexivity].
  destruct (Strings.HasPrefix v "-"); reflexivity.
Qed.

Lemma body_short_plain (c : ascii) (next : option string)
    (pos : list string) (flags : gmap string string) :
  c <> "-"%char ->
  Args.body (String "-" (String c "")) next pos flags
  = match next with
    | Some v => if Strings.HasPrefix v "-" then (false, pos, <[String c "" := ""]> flags)
                else (true, pos, <[String c "" := v]> flags)
    | None => (false, pos, <[String c "" := ""]> flags)
    end.
Proof.
  intros Hc. unfold Args.body.
  assert (Hlong : Strings.HasPrefix (String "-" (String c "")) "--" = false).
  { simpl. destruct (Ascii.eqb_spec c "-"); [contradiction|reflexivity]. }
  rewrite Hlong.
  change (Strings.HasPrefix (String "-" (String c "")) "-") with true.
  change (Strings.from 2 (String "-" (String c ""))) with "".
  change (Strings.slice 1 2 (String "-" (String c ""))) with (String c "").
  destruct next as [v|]; [destruct (Strings.HasPrefix v "-")|]; reflexivity.
Qed.

(** X4: a flag followed by a token that does not start with a dash takes
    that token as its value, and nothing becomes a positional: this holds
    for [--key value] (the key without '=') and for [-k value] (k any byte
    but the dash); alone, [--key] records the empty string. *)
Theorem X4_flag_takes_next_token (key value : string) (c : ascii) :
  Strings.HasPrefix value "-" = false ->
  (Strings.Contains key "=" = false ->
   Args.ParseArgs ["--" ++ key; value] = ([], {[ key := value ]}) /\
   Args.ParseArgs ["--" ++ key] = ([], {[ key := "" ]})) /\
  (c <> "-"%char ->
   Args.ParseArgs [String "-" (String c ""); value] = ([], {[ String c "" := value ]})).
Proof.
  intros Hv. split.
  - intros Hk. split.
    + rewrite ParseArgs_walk. cbn [walk head].
      rewrite (body_long_plain key (Some value) [] ∅ Hk), Hv. cbn [walk].
      now rewrite insert_empty.
    + rewrite ParseArgs_walk. cbn [walk head].
      rewrite (body_long_plain key None [] ∅ Hk). cbn [walk].
      now rewrite insert_empty.
  - intros Hc. rewrite ParseArgs_walk. cbn [walk head].
    rewrite (body_short_plain c (Some value) [] ∅ Hc), Hv. cbn [walk].
    now rewrite insert_empty.
Qed.

Lemma X4_flag_takes_next_token_witness :
  Args.ParseArgs ["--host-name"; "myserver.com"] = ([], {[ "host-name" := "myserver.com" ]}) /\
  Args.ParseArgs ["-k"; "myserver.com"] = ([], {[ "k" := "myserver.com" ]}).
Proof.
  destruct (X4_flag_takes_next_token "host-name" "myserver.com" "k" eq_refl)
    as [Hlong Hshort].
  split.
  - apply Hlong. reflexivity.
  - apply Hshort. discriminate.
Defined.

(** A token that starts with a dash is not taken as a value: the body does
    with it as next token what it does at the end of the input. *)
Lemma body_next_dash (arg t : string) (pos : list string) (flags : gmap string string) :
  Strings.HasPrefix t "-" = true ->
  Args.body arg (Some t) pos flags = Args.body arg None pos flags.
Proof. intros H. unfold Args.body. rewrite H. reflexivity. Qed.

Lemma body_last_no_skip (arg : string) (pos : list string) (flags : gmap string string) :
  fst (fst (Args.body arg None pos flags)) = false.
Proof. rewrite body_delta. cbn [fst]. apply skipOf_last. Qed.

Lemma walk_app_dash_le (n : nat) (a b pos : list string) (flags : gmap string string) :
  length a <= n ->
  match b with [] => True | t :: _ => Strings.HasPrefix t "-" = true end ->
  walk (a ++ b) pos flags = walk b (fst (walk a pos flags)) (snd (walk a pos flags)).
Proof.
  revert a pos flags. induction n as [|n IH]; intros a pos flags Hn Hb.
  - destruct a; [reflexivity|simpl in Hn; lia].
  - destruct a as [|arg rest]; [reflexivity|]. simpl in Hn.
    destruct rest as [|v rest'].
    + cbn [app walk head].
      assert (Hbody : Args.body arg (head b) pos flags = Args.body arg None pos flags).
      { destruct b as [|t b']; [reflexivity|]. apply body_next_dash. exact Hb. }
      rewrite Hbody. pose proof (body_last_no_skip arg pos flags) as Hskip.
      destruct (Args.body arg None pos flags) as [[skip pos'] flags'].
      cbn [fst] in Hskip. subst skip. reflexivity.
    + change ((arg :: v :: rest') ++ b)%list with (arg :: v :: (rest' ++ b))%list.
      cbn [walk head].
      destruct (Args.body arg (Some v) pos flags) as [[skip pos'] flags'].
      destruct skip.
      * apply IH; [simpl in Hn; lia|exact Hb].
      * apply (IH (v :: rest')); [simpl in *; lia|exact Hb].
Qed.

Lemma foldl_writes_union (t : list event) (flags : gmap string string) :
  foldl (fun m e => writes e ∪ m) flags t
  = foldl (fun m e => writes e ∪ m) ∅ t ∪ flags.
Proof.
  revert flags. induction t as [|e t IH]; intros flags; cbn [foldl].
  - now rewrite (left_id_L ∅ (∪)).
  - rewrite IH, (IH (writes e ∪ ∅)), (right_id_L ∅ (∪)), (assoc_L (∪)). reflexivity.
Qed.

(** The loop started on given outputs adds to them what it produces from
    empty ones. *)
Lemma walk_delta (args pos : list string) (flags : gmap string string) :
  walk args pos flags
  = ((pos ++ fst (walk args [] ∅))%list, snd (walk args [] ∅) ∪ flags).
Proof.
  rewrite (walk_trace_le (length args) args pos flags) by lia.
  rewrite (walk_trace_le (length args) args [] ∅) by lia.
  cbn [fst snd app]. now rewrite foldl_writes_union.
Qed.

Lemma ParseArgs_app_dash (a b : list string) :
  match b with [] => True | t :: _ => Strings.HasPrefix t "-" = true end ->
  Args.ParseArgs (a ++ b)
  = ((fst (Args.ParseArgs a) ++ fst (Args.ParseArgs b))%list,
     snd (Args.ParseArgs b) ∪ snd (Args.ParseArgs a)).
Proof.
  intros Hb. rewrite !ParseArgs_walk.
  rewrite (walk_app_dash_le (length a) a b [] ∅ (le_n _) Hb).
  apply walk_delta.
Qed.

(** X5: a token that starts with a dash is never consumed as a value, so
    it is a boundary of the tokenizer: when the second part of the
    arguments is empty or starts with such a token, tokenizing the whole is
    tokenizing the parts; the positionals are concatenated and the entries
    of the second part replace those of the first under the same key. *)
Theorem X5_dash_token_is_a_boundary (a b : list string) :
  match b with [] => True | t :: _ => Strings.HasPrefix t "-" = true end ->
  Args.ParseArgs (a ++ b)
  = ((fst (Args.ParseArgs a) ++ fst (Args.ParseArgs b))%list,
     snd (Args.ParseArgs b) ∪ snd (Args.ParseArgs a)).
Proof. exact (ParseArgs_app_dash a b). Qed.

Lemma X5_dash_token_is_a_boundary_witness :
  Args.ParseArgs (["cmd"; "--count"] ++ ["-5"; "end"])
  = ((fst (Args.ParseArgs ["cmd"; "--count"]) ++ fst (Args.ParseArgs ["-5"; "end"]))%list,
     snd (Args.ParseArgs ["-5"; "end"]) ∪ snd (Args.ParseArgs ["cmd"; "--count"])) /\
  snd (Args.ParseArgs ["cmd"; "--count"; "-5"; "end"]) !! "count" = Some "".
Proof.
  split.
  - apply (X5_dash_token_is_a_boundary ["cmd"; "--count"] ["-5"; "end"]). reflexivity.
  - vm_compute. reflexivity.
Defined.

(** X6: the last write wins: a final token [--key=value] (the key without
    '=') sets the key to the value whatever the tokens before it recorded,
    and changes neither the positionals nor the other keys. *)
Theorem X6_last_write_wins (args : list string) (key value : string) :
  Strings.Contains key "=" = false ->
  fst (Args.ParseArgs (args ++ ["--" ++ key ++ String "=" value]))
  = fst (Args.ParseArgs args) /\
  snd (Args.ParseArgs (args ++ ["--" ++ key ++ String "=" value])) !! key = Some value /\
  forall k, k <> key ->
    snd (Args.ParseArgs (args ++ ["--" ++ key ++ String "=" value])) !! k
    = snd (Args.ParseArgs args) !! k.
Proof.
  intros Hk. rewrite ParseArgs_app_dash by reflexivity.
  assert (Hlast : Args.ParseArgs ["--" ++ key ++ String "=" value] = ([], {[ key := value ]})).
  { rewrite ParseArgs_walk. cbn [walk head].
    rewrite (body_long_inline key value None [] ∅ Hk). now rewrite insert_empty. }
  rewrite Hlast. cbn [fst snd]. split; [apply app_nil_r|]. split.
  - apply lookup_union_Some_l. apply lookup_singleton_eq.
  - intros k Hne. rewrite lookup_union_r; [reflexivity|].
    now apply lookup_singleton_ne.
Qed.

Lemma X6_last_write_wins_witness :
  snd (Args.ParseArgs (["--port=1"; "cmd"] ++ ["--port=2"])) !! "port" = Some "2".
Proof.
  apply (X6_last_write_wins ["--port=1"; "cmd"] "port" "2"). reflexivity.
Defined.

Lemma body_combined (arg : string) (next : option string)
    (pos : list string) (flags : gmap string string) :
  combinedToken arg = true ->
  Args.body arg next pos flags
  = (false, pos,
     foldl (fun fl r => <[Utf8.string_of_rune r := ""]> fl) flags
           (Utf8.range (Strings.from 1 arg))).
Proof.
  unfold combinedToken. intros H.
  apply andb_true_iff in H as [H Heq]. apply andb_true_iff in H as [H Hlen].
  apply andb_true_iff in H as [Hlong Hdash].
  apply negb_true_iff in Hlong. apply negb_true_iff in Heq.
  apply Nat.ltb_lt in Hlen.
  unfold Args.body. rewrite Hlong, Hdash, Heq.
  destruct (Nat.ltb_spec 1 (String.length arg)); [|lia].
  destruct (Nat.eqb_spec (String.length arg) 2); [lia|]. reflexivity.
Qed.

Lemma rune_key_dec (k : string) (rs : list Z) :
  (exists r, In r rs /\ k = Utf8.string_of_rune r) \/
  (forall r, In r rs -> k <> Utf8.string_of_rune r).
Proof.
  induction rs as [|r rs [(r' & Hin & ->)|Hnot]].
  - right. intros r [].
  - left. exists r'. split; [now right|reflexivity].
  - destruct (decide (k = Utf8.string_of_rune r)) as [->|Hne].
    + left. exists r. split; [now left|reflexivity].
    + right. intros r' [<-|Hin]; [exact Hne|now apply Hnot].
Qed.

Lemma presence_lookup (rs : list Z) (m : gmap string string) (k v : string) :
  foldl (fun fl r => <[Utf8.string_of_rune r := ""]> fl) m rs !! k = Some v <->
  (v = "" /\ exists r, In r rs /\ k = Utf8.string_of_rune r) \/
  ((forall r, In r rs -> k <> Utf8.string_of_rune r) /\ m !! k = Some v).
Proof.
  revert m. induction rs as [|r rs IH]; intros m; cbn [foldl].
  - split.
    + intros H. right. split; [intros r []|exact H].
    + intros [(_ & r & [] & _)|[_ H]]. exact H.
  - rewrite IH. split.
    + intros [(-> & r' & Hin & ->)|[Hnot Hm]].
      * left. split; [reflexivity|]. exists r'. split; [now right|reflexivity].
      * destruct (decide (k = Utf8.string_of_rune r)) as [->|Hne].
        -- rewrite lookup_insert_eq in Hm. injection Hm as <-.
           left. split; [reflexivity|]. exists r. split; [now left|reflexivity].
        -- rewrite lookup_insert_ne in Hm by congruence.
           right. split; [|exact Hm]. intros r' [<-|Hin]; [exact Hne|now apply Hnot].
    + intros [(-> & r' & [<-|Hin] & ->)|[Hnot Hm]].
      * destruct (rune_key_dec (Utf8.string_of_rune r) rs) as [Hin|Hnin]; [left|right].
        -- split; [reflexivity|exact Hin].
        -- split; [exact Hnin|apply lookup_insert_eq].
      * left. split; [reflexivity|]. eauto.
      * right. split; [intros r' Hin; apply Hnot; now right|].
        rewrite lookup_insert_ne; [exact Hm|].
        intros Heq. apply (Hnot r); [now left|now symmetry].
Qed.

(** X7: a combined short-flag token (one dash, more than two bytes, no '='
    after the second byte) records exactly one presence entry per character
    after the dash: the keys of the result are the characters, each with
    the empty string as value, and nothing becomes a positional. *)
Theorem X7_combined_flags_entries (arg : string) :
  combinedToken arg = true ->
  fst (Args.ParseArgs [arg]) = [] /\
  forall k v,
    snd (Args.ParseArgs [arg]) !! k = Some v <->
    v = "" /\ exists r, In r (Utf8.range (Strings.from 1 arg)) /\ k = Utf8.string_of_rune r.
Proof.
  intros Hc. rewrite ParseArgs_walk. cbn [walk head].
  rewrite (body_combined arg None [] ∅ Hc). cbn [walk fst snd].
  split; [reflexivity|]. intros k v. rewrite presence_lookup. split.
  - intros [H|[_ H]]; [exact H|]. rewrite lookup_empty in H. discriminate.
  - intros H. now left.
Qed.

Lemma X7_combined_flags_entries_witness :
  snd (Args.ParseArgs ["-abc"]) !! "b" = Some "".
Proof.
  destruct (X7_combined_flags_entries "-abc" eq_refl) as [_ H].
  apply H. split; [reflexivity|]. exists 98%Z. split; [|reflexivity].
  vm_compute. auto.
Defined.

(** X8: the cursor loop ends within [len(args)] iterations: with any
    larger bound on the iterations the result is the same. *)
Theorem X8_loop_ends_within_length (fuel : nat) (args : list string) :
  length args <= fuel ->
  Args.run fuel args 0 [] ∅ = Args.ParseArgs args.
Proof.
  intros H. rewrite ParseArgs_walk, run_walk by lia. reflexivity.
Qed.

Lemma X8_loop_ends_within_length_witness :
  Args.run 10 ["-k"; "value"] 0 [] ∅ = Args.ParseArgs ["-k"; "value"].
Proof. apply (X8_loop_ends_within_length 10 ["-k"; "value"]). simpl. lia. Defined.

(** ** Field coercion, further *)

(** Facts about [strings.Split] with the separator ",". *)
Lemma Index_cons_comma (c : ascii) (t : string) :
  Strings.Index (String c t) "," =
    if Ascii.eqb c "," then Some 0%nat else S <$> Strings.Index t ",".
Proof. simpl. destruct (Ascii.eqb c ","); reflexivity. Qed.

Lemma Index_comma_None (s : string) :
  Strings.Index s "," = None -> commas s = 0%nat /\ commaFields s = [s].
Proof.
  induction s as [|c t IH]; [intros _; split; reflexivity|].
  rewrite Index_cons_comma. simpl.
  destruct (Ascii.eqb c ","); [discriminate|].
  destruct (Strings.Index t ",") as [m|]; [discriminate|].
  intros _. destruct (IH eq_refl) as [-> ->]. split; reflexivity.
Qed.

Lemma Index_comma_Some (s : string) (m : nat) :
  Strings.Index s "," = Some m ->
  commas s = S (commas (Strings.from (m + 1) s)) /\
  commaFields s = Strings.upto m s :: commaFields (Strings.from (m + 1) s).
Proof.
  revert m. induction s as [|c t IH]; intros m; [discriminate|].
  rewrite Index_cons_comma. simpl commas. simpl commaFields.
  destruct (Ascii.eqb c ",").
  - intros [= <-]. split; reflexivity.
  - destruct (Strings.Index t ",") as [m'|]; [|discriminate].
    intros [= <-]. destruct (IH m' eq_refl) as [-> ->]. split; reflexivity.
Qed.

Lemma commas_le_length (s : string) : commas s <= String.length s.
Proof.
  induction s as [|c t IH]; simpl; [lia|]. destruct (Ascii.eqb c ","); lia.
Qed.

Lemma countLoop_commas (fuel : nat) (s : string) :
  String.length s <= fuel -> Strings.countLoop fuel s "," = commas s.
Proof.
  revert s. induction fuel as [|fuel IH]; intros s Hlen.
  - destruct s; [reflexivity|simpl in Hlen; lia].
  - cbn [Strings.countLoop]. destruct (Strings.Index s ",") as [m|] eqn:Ei.
    + destruct (Index_comma_Some s m Ei) as [-> _].
      change (String.length ",") with 1%nat. f_equal. apply IH.
      rewrite length_from. lia.
    + now destruct (Index_comma_None s Ei) as [-> _].
Qed.

Lemma splitLoop_commaFields (k : nat) (s : string) :
  commas s <= k -> Strings.splitLoop k s "," = commaFields s.
Proof.
  revert s. induction k as [|k IH]; intros s Hk.
  - destruct (Strings.Index s ",") as [m|] eqn:Ei.
    + destruct (Index_comma_Some s m Ei) as [Hc _]. lia.
    + now destruct (Index_comma_None s Ei) as [_ ->].
  - cbn [Strings.splitLoop]. destruct (Strings.Index s ",") as [m|] eqn:Ei.
    + destruct (Index_comma_Some s m Ei) as [Hc ->].
      change (String.length ",") with 1%nat. f_equal. apply IH. lia.
    + now destruct (Index_comma_None s Ei) as [_ ->].
Qed.

Lemma Split_commaFields (s : string) : Strings.Split s "," = commaFields s.
Proof.
  unfold Strings.Split, Strings.genSplit.
  change (-1 =? 0)%Z with false. change (-1 <? 0)%Z with true. cbv iota.
  unfold Strings.Count. rewrite countLoop_commas by lia.
  pose proof (commas_le_length s) as Hle.
  destruct (Z.ltb_spec (Z.of_nat (String.length s) + 1) (Z.of_nat (commas s) + 1));
    [lia|].
  apply splitLoop_commaFields. lia.
Qed.

Lemma commaFields_length (s : string) : length (commaFields s) = S (commas s).
Proof.
  induction s as [|c t IH]; [reflexivity|]. simpl.
  destruct (Ascii.eqb c ","); simpl; [now rewrite IH|].
  destruct (commaFields t); simpl in *; lia.
Qed.

Lemma join_commaFields (s : string) : join "," (commaFields s) = s.
Proof.
  induction s as [|c t IH]; [reflexivity|]. simpl commaFields.
  pose proof (commaFields_length t) as Hlen.
  destruct (Ascii.eqb_spec c ",") as [->|_].
  - cbn [join]. destruct (commaFields t) as [|h r]; [discriminate Hlen|].
    rewrite IH. reflexivity.
  - destruct (commaFields t) as [|h r]; [discriminate Hlen|].
    cbn [join] in *. destruct r; simpl; now rewrite <- IH.
Qed.

Lemma commaFields_no_comma (s : string) :
  Forall (fun part => Strings.Contains part "," = false) (commaFields s).
Proof.
  induction s as [|c t IH]; [repeat constructor|]. simpl commaFields.
  destruct (Ascii.eqb c ",") eqn:Ec; [constructor; [reflexivity|exact IH]|].
  destruct (commaFields t) as [|h r]; [repeat constructor|].
  - unfold Strings.Contains. rewrite Index_cons_comma, Ec. reflexivity.
  - inversion IH as [|? ? Hh Hr]; subst. constructor; [|exact Hr].
    unfold Strings.Contains in *. rewrite Index_cons_comma, Ec.
    destruct (Strings.Index h ","); [discriminate|reflexivity].
Qed.

Section CoercionFurther.
Variable ParseFloat : string -> Z -> Z * option error.
Variable float32 : Z -> Z.

Local Abbreviation SetField := (Flag.SetField ParseFloat float32).

(** SetField does not look at the value the field holds. *)
Lemma SetField_withVal (f : Field) (x : Value) (value : string) (present : bool) :
  SetField (withVal f x) value present = SetField f value present.
Proof. reflexivity. Qed.

(** SetField assigns through [withVal]: only the value slot changes. *)
Lemma SetField_ok_withVal (f f' : Field) (value : string) (present : bool) :
  SetField f value present = SetOk f' -> f' = withVal f (Val f').
Proof.
  unfold Flag.SetField, set.
  repeat match goal with
         | |- context [match ?x with _ => _ end] => destruct x
         end;
    intros H; try discriminate H; injection H as <-; reflexivity.
Qed.

Lemma SetField_ok_sameDescr (f f' : Field) (value : string) (present : bool) :
  SetField f value present = SetOk f' -> sameDescr f f'.
Proof.
  intros H. rewrite (SetField_ok_withVal f f' value present H).
  repeat split.
Qed.

(** X9: SetField overwrites the value slot only, and what it assigns does
    not depend on the value the field held: on success the name, type, tag
    and settability of the field are unchanged, and the same call on the
    field holding any other value gives the same result. *)
Theorem X9_coercion_overwrites_value_only
    (f f' : Field) (value : string) (present : bool) :
  SetField f value present = SetOk f' ->
  FName f' = FName f /\ FType f' = FType f /\ Tag f' = Tag f /\ CanSet f' = CanSet f /\
  forall x, SetField (withVal f x) value present = SetOk f'.
Proof.
  intros H. destruct (SetField_ok_sameDescr f f' value present H) as (? & ? & ? & ?).
  repeat (split; [assumption|]). intros x. rewrite SetField_withVal. exact H.
Qed.

(** X10: integer fields reject the empty string, and unsigned integer
    fields reject every value with a leading sign, '+' as well as '-', all
    with a syntax error; a signed field given a '+' alone or a '-' alone
    rejects it too. *)
Theorem X10_integer_edge_values (f : Field) (w : width) (present : bool) :
  (Kind_of f = KInt w ->
   SetField f "" present = SetErr (NumError "ParseInt" "" ErrSyntax) /\
   SetField f "+" present = SetErr (NumError "ParseInt" "+" ErrSyntax) /\
   SetField f "-" present = SetErr (NumError "ParseInt" "-" ErrSyntax)) /\
  (Kind_of f = KUint w ->
   SetField f "" present = SetErr (NumError "ParseUint" "" ErrSyntax) /\
   forall t,
     SetField f (String "-" t) present
     = SetErr (NumError "ParseUint" (String "-" t) ErrSyntax) /\
     SetField f (String "+" t) present
     = SetErr (NumError "ParseUint" (String "+" t) ErrSyntax)).
Proof.
  split; intros Hk; unfold Flag.SetField; rewrite Hk.
  - repeat split.
  - split; [reflexivity|]. intros t. split; reflexivity.
Qed.

(** X11: a settable [[]string] field is assigned the parts of the
    value between its commas: there is always at least one part (the empty
    value gives one empty part), no part holds a comma, there is one part
    more than there are commas, and the parts joined with commas are the
    value again. *)
Theorem X11_string_slice_split (f : Field) (e : ElemType) (value : string)
    (present : bool) :
  shape (FType f) = SSlice e -> eKind e = KString -> eName e = "string" ->
  CanSet f = true ->
  exists parts,
    SetField f value present = SetOk (withVal f (VStrings parts)) /\
    join "," parts = value /\
    length parts = S (commas value) /\
    Forall (fun part => Strings.Contains part "," = false) parts.
Proof.
  intros Hs He Hn Hc. exists (commaFields value). split; [|split; [|split]].
  - unfold Flag.SetField, Kind_of, TypeKind, Elem, set. rewrite Hs. cbn [kindOf].
    rewrite He, Hc, Hn, Split_commaFields. reflexivity.
  - apply join_commaFields.
  - apply commaFields_length.
  - apply commaFields_no_comma.
Qed.

Lemma SetField_ok_or_err (f : Field) (value : string) (present : bool) :
  plainField f ->
  (exists f', SetField f value present = SetOk f') \/
  (exists err, SetField f value present = SetErr err).
Proof.
  intros (Hc & Hi & Ht). unfold takesStrings in Ht.
  unfold Flag.SetField, Kind_of, TypeKind, Elem, set. rewrite Hc, Hi.
  destruct (shape (FType f)) as [| | | | | | | | | | | | | | | | |e]; cbn [kindOf];
    try (repeat match goal with
                | |- context [match ?x with _ => _ end] => destruct x
                end; eauto; fail).
  destruct (eKind e) eqn:Hk; eauto.
  rewrite (Ht eq_refl). simpl. eauto.
Qed.

(** X12: on a settable field whose type does not implement
    [encoding.TextUnmarshaler] and, if a slice of strings, has [string]
    itself as element type, SetField never panics: it assigns or it
    returns an error. *)
Theorem X12_coercion_does_not_panic (f : Field) (value : string) (present : bool) :
  plainField f ->
  (exists f', SetField f value present = SetOk f') \/
  (exists err, SetField f value present = SetErr err).
Proof. exact (SetField_ok_or_err f value present). Qed.

End CoercionFurther.

Lemma X9_coercion_overwrites_value_only_witness :
  Sample.SetField (withVal intField (VInt 7)) "-42" true
  = SetOk (withVal intField (VInt (-42))).
Proof.
  apply (X9_coercion_overwrites_value_only Sample.ParseFloat Sample.float32
           intField (withVal intField (VInt (-42))) "-42" true).
  reflexivity.
Defined.

Lemma X10_integer_edge_values_witness :
  Sample.SetField uint8Field "-1" true = SetErr (NumError "ParseUint" "-1" ErrSyntax).
Proof.
  destruct (X10_integer_edge_values Sample.ParseFloat Sample.float32
              uint8Field W8 true) as [_ Huint].
  destruct (Huint eq_refl) as [_ Hsign]. apply Hsign.
Defined.

Lemma X11_string_slice_split_witness :
  exists parts,
    Sample.SetField sliceField "one,two,three" true
    = SetOk (withVal sliceField (VStrings parts)) /\
    join "," parts = "one,two,three" /\ length parts = 3%nat.
Proof.
  destruct (X11_string_slice_split Sample.ParseFloat Sample.float32
              sliceField _ "one,two,three" true eq_refl eq_refl eq_refl eq_refl)
    as (parts & Hset & Hjoin & Hlen & _).
  exists parts. split; [exact Hset|]. split; [exact Hjoin|exact Hlen].
Defined.

Lemma X12_coercion_does_not_panic_witness :
  (exists f', Sample.SetField intField "thirty" true = SetOk f') \/
  (exists err, Sample.SetField intField "thirty" true = SetErr err).
Proof.
  apply (X12_coercion_does_not_panic Sample.ParseFloat Sample.float32
           intField "thirty" true).
  repeat split.
Defined.

(** ** The loop of a pass, further *)
Section PassLoopFurther.
Variable ToKebabCase : string -> string.
Variable ParseFloat : string -> Z -> Z * option error.
Variable float32 : Z -> Z.

Local Abbreviation SetField := (Flag.SetField ParseFloat float32).
Local Abbreviation PrintDefaults := (Flag.PrintDefaults ToKebabCase).

Variable src : Field -> option string.
Variable present : bool.
Variable mkErr : Field -> error -> error.
Variable render : bool.

Local Abbreviation loop :=
  (passLoop ToKebabCase ParseFloat float32 src present mkErr render).

Ltac pass_cases n i fs H :=
  simpl in H;
  let field := fresh "field" in
  let Ef := fresh "Ef" in
  let Es := fresh "Es" in
  let Eset := fresh "Eset" in
  destruct (fs !! i) as [field|] eqn:Ef;
  [ destruct (src field) as [?v|] eqn:Es;
    [ destruct (SetField field v present) as [?field'|?e|?p] eqn:Eset | ]
  | ].

Lemma sameDescr_refl (f : Field) : sameDescr f f.
Proof. repeat split. Qed.

Lemma sameDescr_trans (f g h : Field) : sameDescr f g -> sameDescr g h -> sameDescr f h.
Proof.
  intros (? & ? & ? & ?) (? & ? & ? & ?). repeat split; congruence.
Qed.

Lemma sameDescr_withVal (f f' : Field) : sameDescr f f' -> f' = withVal f (Val f').
Proof.
  destruct f, f'. unfold sameDescr, withVal. simpl.
  intros (-> & -> & -> & ->). reflexivity.
Qed.

Lemma SetField_sameDescr (f f' : Field) (v : string) (p : bool) :
  sameDescr f f' -> SetField f' v p = SetField f v p.
Proof. intros H. rewrite (sameDescr_withVal f f' H). reflexivity. Qed.

(** The loop changes value slots only. *)
Lemma passLoop_descr n i fs out r fs' out' (j : nat) (f : Field) :
  loop n i fs out = (r, fs', out') ->
  fs !! j = Some f -> exists f', fs' !! j = Some f' /\ sameDescr f f'.
Proof.
  revert i fs f. induction n as [|n IH]; intros i fs f H Hf.
  - inversion H; subst. eauto using sameDescr_refl.
  - pass_cases n i fs H.
    + destruct (decide (j = i)) as [->|Hne].
      * assert (f = field) by congruence. subst f.
        destruct (IH (S i) (<[i := field']> fs) field' H) as (f' & Hf' & Hd).
        { apply list_lookup_insert_eq. eapply lookup_lt_Some; eauto. }
        exists f'. split; [exact Hf'|].
        eapply sameDescr_trans; [|exact Hd].
        eapply (SetField_ok_sameDescr ParseFloat float32); eauto.
      * apply (IH (S i) (<[i := field']> fs) f H).
        rewrite list_lookup_insert_ne by lia. exact Hf.
    + inversion H; subst. eauto using sameDescr_refl.
    + inversion H; subst. eauto using sameDescr_refl.
    + eauto.
    + inversion H; subst. eauto using sameDescr_refl.
Qed.

(** With plain fields the loop does not panic. *)
Lemma passLoop_no_panic n i fs out r fs' out' :
  loop n i fs out = (r, fs', out') ->
  (forall j f, fs !! j = Some f -> plainField f) ->
  forall p, r <> Panics p.
Proof.
  revert i fs. induction n as [|n IH]; intros i fs H Hgood q.
  - inversion H; subst. discriminate.
  - pass_cases n i fs H.
    + apply (IH (S i) (<[i := field']> fs) H). intros j f Hf.
      destruct (decide (j = i)) as [->|Hne].
      * rewrite list_lookup_insert_eq in Hf by (eapply lookup_lt_Some; eauto).
        injection Hf as <-.
        destruct (SetField_ok_sameDescr ParseFloat float32 _ _ _ _ Eset)
          as (_ & Ht & _ & Hcs).
        unfold plainField. rewrite Ht, Hcs. exact (Hgood i field Ef).
      * rewrite list_lookup_insert_ne in Hf by lia. eauto.
    + inversion H; subst. discriminate.
    + destruct (SetField_ok_or_err ParseFloat float32 field v present
                  (Hgood i field Ef))
        as [(f' & Hok)|(err & Herr)]; congruence.
    + eauto.
    + inversion H; subst. discriminate.
Qed.

(** A loop that has returned without error, run again on its result,
    changes nothing. *)
Lemma passLoop_idem n i fs out fs' out' :
  (forall f f', sameDescr f f' -> src f' = src f) ->
  loop n i fs out = (Return None, fs', out') ->
  forall out2, loop n i fs' out2 = (Return None, fs', out2).
Proof.
  intros Hsrc. revert i fs. induction n as [|n IH]; intros i fs H out2.
  - reflexivity.
  - pose proof H as H0. pass_cases n i fs H; try discriminate.
    + pose proof (passLoop_frame _ _ _ _ _ _ _ _ _ _ _ _ _ _ i H
                    (or_introl (Nat.lt_succ_diag_r i))) as Hi.
      rewrite list_lookup_insert_eq in Hi by (eapply lookup_lt_Some; eauto).
      cbn [passLoop]. rewrite Hi.
      rewrite (Hsrc field field'
                 (SetField_ok_sameDescr ParseFloat float32 _ _ _ _ Eset)), Es.
      rewrite (SetField_ok_withVal ParseFloat float32 _ _ _ _ Eset) at 1.
      rewrite SetField_withVal, Eset.
      rewrite (list_insert_id fs' i field' Hi).
      apply (IH (S i) (<[i := field']> fs) H).
    + pose proof (passLoop_frame _ _ _ _ _ _ _ _ _ _ _ _ _ _ i H
                    (or_introl (Nat.lt_succ_diag_r i))) as Hi.
      cbn [passLoop]. rewrite Hi, Ef, Es. apply (IH (S i) fs H).
    + inversion H; subst. cbn [passLoop]. rewrite Ef. reflexivity.
Qed.

Lemma passLoop_sameDescr n i fs out r fs' out' :
  loop n i fs out = (r, fs', out') -> Forall2 sameDescr fs fs'.
Proof.
  intros H. apply Forall2_same_length_lookup. split.
  - symmetry. eapply passLoop_length; eauto.
  - intros j f f' Hf Hf'.
    destruct (passLoop_descr _ _ _ _ _ _ _ j f H Hf) as (g & Hg & Hd).
    congruence.
Qed.

(** A whole pass that returns without error, field by field. *)
Lemma passLoop_resolved fs out fs' out' :
  loop (length fs) 0 fs out = (Return None, fs', out') ->
  out' = out /\
  forall j f, fs !! j = Some f ->
    match src f with
    | Some v => exists f', SetField f v present = SetOk f' /\ fs' !! j = Some f'
    | None => fs' !! j = Some f
    end.
Proof.
  intros H.
  destruct (passLoop_ok _ _ _ _ _ _ _ _ _ _ _ _ _ H) as [Hout Hok].
  split; [exact Hout|]. intros j f Hf.
  destruct (src f) as [v|] eqn:Es.
  - apply (Hok j f v); [|exact Hf|exact Es].
    apply lookup_lt_Some in Hf. lia.
  - eapply passLoop_unset; eauto.
Qed.

(** A loop that returns without error does so on every list of the same
    fields holding other values, and assigns the same fields the same
    values: at each position the two runs either leave their field as it
    is or end with the same field. *)
Lemma passLoop_rerun n i fs gs out out2 fs' out' :
  (forall f f', sameDescr f f' -> src f' = src f) ->
  Forall2 sameDescr fs gs ->
  loop n i fs out = (Return None, fs', out') ->
  exists gs', loop n i gs out2 = (Return None, gs', out2) /\
    forall j, (gs' !! j = gs !! j /\ fs' !! j = fs !! j) \/ gs' !! j = fs' !! j.
Proof.
  intros Hsrc. revert i fs gs. induction n as [|n IH]; intros i fs gs HF H.
  - inversion H; subst. exists gs. split; [reflexivity|]. intros j. left. auto.
  - pass_cases n i fs H; try discriminate.
    + destruct (Forall2_lookup_l _ _ _ i field HF Ef) as (g & Eg & Hd).
      cbn [passLoop]. rewrite Eg, (Hsrc _ _ Hd), Es, (SetField_sameDescr _ _ _ _ Hd), Eset.
      destruct (IH (S i) (<[i := field']> fs) (<[i := field']> gs)) as (gs' & Hrun & Hrel).
      { apply Forall2_insert; auto using sameDescr_refl. }
      { exact H. }
      exists gs'. split; [exact Hrun|]. intros j.
      destruct (Hrel j) as [[Hg Hf]|Heq]; [|right; exact Heq].
      destruct (decide (j = i)) as [->|Hne].
      * right. rewrite Hg, Hf.
        rewrite !list_lookup_insert_eq by (eapply lookup_lt_Some; eauto). reflexivity.
      * left. rewrite list_lookup_insert_ne in Hg, Hf by lia. auto.
    + destruct (Forall2_lookup_l _ _ _ i field HF Ef) as (g & Eg & Hd).
      cbn [passLoop]. rewrite Eg, (Hsrc _ _ Hd), Es. apply IH; auto.
    + inversion H; subst. cbn [passLoop].
      assert (Eg : gs !! i = None).
      { apply lookup_ge_None. rewrite <- (Forall2_length _ _ _ HF).
        now apply lookup_ge_None. }
      rewrite Eg. exists gs. split; [reflexivity|]. intros j. left. auto.
Qed.

End PassLoopFurther.

(** ** The usage text *)
Section UsageText.
Variable ToKebabCase : string -> string.

Local Abbreviation entryOf := (Flag.entryOf ToKebabCase).
Local Abbreviation PrintDefaults := (Flag.PrintDefaults ToKebabCase).
Local Abbreviation longPart := (fun f : Field => snd (fst (entryOf f))).

Lemma maxNameTypeLength_from (entries : list (string * string * string)) (m0 : nat) :
  let m := foldl (fun m e => if (m <? String.length (snd (fst e)))%nat
                             then String.length (snd (fst e)) else m) m0 entries in
  (m0 <= m)%nat /\
  (forall e, In e entries -> (String.length (snd (fst e)) <= m)%nat) /\
  (m = m0 \/ exists e, In e entries /\ String.length (snd (fst e)) = m).
Proof.
  revert m0. induction entries as [|e entries IH]; intros m0; cbn zeta.
  - simpl. repeat split; [lia|tauto|now left].
  - cbn [foldl].
    set (m1 := if (m0 <? String.length (snd (fst e)))%nat
               then String.length (snd (fst e)) else m0).
    assert (Hm1 : (m0 <= m1 /\ String.length (snd (fst e)) <= m1)%nat /\
                  (m1 = m0 \/ m1 = String.length (snd (fst e)))).
    { subst m1. destruct (Nat.ltb_spec m0 (String.length (snd (fst e)))); lia. }
    destruct (IH m1) as (Hge & Hall & Hatt). cbn zeta in Hge, Hall, Hatt.
    repeat split.
    + lia.
    + intros e' [<-|Hin]; [lia|auto].
    + destruct Hatt as [Heq|(e' & Hin & He')].
      * destruct Hm1 as [_ [Hm|Hm]]; [left; congruence|].
        right. exists e. split; [now left|congruence].
      * right. exists e'. split; [now right|exact He'].
Qed.

Lemma maxNameTypeLength_bound (fs : list Field) (f : Field) :
  In f fs ->
  (String.length (longPart f) <= maxNameTypeLength (map entryOf fs))%nat.
Proof.
  intros Hin. unfold maxNameTypeLength.
  destruct (maxNameTypeLength_from (map entryOf fs) 0) as (_ & Hall & _).
  apply (Hall (entryOf f)). now apply in_map.
Qed.

Lemma maxNameTypeLength_attained (fs : list Field) :
  fs <> [] ->
  exists f, In f fs /\ String.length (longPart f) = maxNameTypeLength (map entryOf fs).
Proof.
  intros Hne. unfold maxNameTypeLength.
  destruct (maxNameTypeLength_from (map entryOf fs) 0) as (_ & Hall & Hatt).
  cbn zeta in Hall, Hatt.
  destruct Hatt as [H0|(e & Hin & He)].
  - destruct fs as [|f fs]; [congruence|]. exists f. split; [now left|].
    rewrite H0. pose proof (Hall (entryOf f) (or_introl eq_refl)) as Hle.
    rewrite H0 in Hle. lia.
  - apply in_map_iff in Hin as (f & <- & Hin). exists f. split; [exact Hin|exact He].
Qed.

(** X13: on a struct, PrintDefaults appends to standard output the line
    "Usage:" and then one entry per field, in the order of the fields,
    all padded to one width; the width is the length of the longest
    "--name type" column, so no column is longer than it and, when there
    is a field, one column has exactly that length; without fields the
    width is 0. *)
Theorem X13_usage_text_layout (fs : list Field) (out : list Output) :
  exists (width : nat) (entries : list Output),
    PrintDefaults (Struct fs) out = (out ++ Println "Usage:" :: entries)%list /\
    length entries = length fs /\
    (forall j f, fs !! j = Some f ->
       entries !! j
       = Some (PrintfEntry (fst (fst (entryOf f))) width (longPart f) (snd (entryOf f)))) /\
    (forall f, In f fs -> (String.length (longPart f) <= width)%nat) /\
    match fs with
    | [] => width = 0%nat
    | _ => exists f, In f fs /\ String.length (longPart f) = width
    end.
Proof.
  exists (maxNameTypeLength (map entryOf fs)).
  exists (map (fun e => PrintfEntry (fst (fst e)) (maxNameTypeLength (map entryOf fs))
                          (snd (fst e)) (snd e)) (map entryOf fs)).
  split; [reflexivity|]. split; [now rewrite !length_map|].
  split; [|split].
  - intros j f Hf.
    change (map ?g ?l) with (fmap g l).
    rewrite !list_lookup_fmap, Hf. reflexivity.
  - intros f Hin. now apply maxNameTypeLength_bound.
  - destruct fs as [|f fs]; [reflexivity|].
    apply maxNameTypeLength_attained. discriminate.
Qed.

(** The entry of a field depends on its name, type and tags only. *)
Lemma entryOf_sameDescr (f f' : Field) : sameDescr f f' -> entryOf f' = entryOf f.
Proof.
  intros (Hn & Ht & Hg & _). unfold Flag.entryOf. rewrite Hn, Ht, Hg. reflexivity.
Qed.

Lemma PrintDefaults_sameShape (c c' : Config) (out : list Output) :
  sameShape c c' -> PrintDefaults c' out = PrintDefaults c out.
Proof.
  destruct c as [fs|], c' as [fs'|]; simpl; try tauto.
  intros H. assert (Hm : map entryOf fs' = map entryOf fs).
  { induction H as [|f f' fs fs' Hd _ IH]; [reflexivity|].
    simpl. now rewrite IH, (entryOf_sameDescr f f' Hd). }
  now rewrite Hm.
Qed.

End UsageText.

(** ** The passes, further *)
Section PassesFurther.
Variable ToKebabCase ToConstantCase : string -> string.
Variable ParseFloat : string -> Z -> Z * option error.
Variable float32 : Z -> Z.

Local Abbreviation SetField := (Flag.SetField ParseFloat float32).
Local Abbreviation PrintDefaults := (Flag.PrintDefaults ToKebabCase).
Local Abbreviation SetDefaults := (Flag.SetDefaults ParseFloat float32).
Local Abbreviation ParseEnv :=
  (Flag.ParseEnv ToKebabCase ToConstantCase ParseFloat float32).
Local Abbreviation ParseArgs := (Flag.ParseArgs ToKebabCase ParseFloat float32).
Local Abbreviation ParseAll :=
  (Flag.ParseAll ToKebabCase ToConstantCase ParseFloat float32).
Local Abbreviation envNameOf := (Flag.envNameOf ToConstantCase).
Local Abbreviation flagNameOf := (Flag.flagNameOf ToKebabCase).
Local Abbreviation loop := (passLoop ToKebabCase ParseFloat float32).
Local Abbreviation envSrc := (envSrc ToConstantCase).
Local Abbreviation flagSrc := (flagSrc ToKebabCase).
Local Abbreviation envErr := (envErr ToConstantCase).
Local Abbreviation flagErr := (flagErr ToKebabCase).
Local Abbreviation resolvedFrom := (resolvedFrom ToKebabCase ToConstantCase).

Local Abbreviation defaultsRun fs out :=
  (loop defaultSrc false defaultErr false (length fs) 0 fs out).
Local Abbreviation envRun env fs out :=
  (loop (envSrc env) true envErr true (length fs) 0 fs out).
Local Abbreviation flagsRun flags fs out :=
  (loop (flagSrc flags) true flagErr true (length fs) 0 fs out).

(** The source text of a field depends on its name and tags only. *)
Lemma defaultSrc_sameDescr (f f' : Field) : sameDescr f f' -> defaultSrc f' = defaultSrc f.
Proof. intros (_ & _ & Hg & Hc). unfold defaultSrc. rewrite Hg, Hc. reflexivity. Qed.

Lemma envSrc_sameDescr env (f f' : Field) : sameDescr f f' -> envSrc env f' = envSrc env f.
Proof.
  intros (Hn & _ & Hg & _). unfold envSrc, Flag.envNameOf.
  rewrite Hn, Hg. reflexivity.
Qed.

Lemma flagSrc_sameDescr flags (f f' : Field) :
  sameDescr f f' -> flagSrc flags f' = flagSrc flags f.
Proof.
  intros (Hn & _ & Hg & _). unfold flagSrc, Flag.flagNameOf.
  rewrite Hn, Hg. reflexivity.
Qed.

Lemma sameShape_refl (c : Config) : sameShape c c.
Proof.
  destruct c as [fs|]; simpl; [|exact I].
  induction fs; constructor; auto using sameDescr_refl.
Qed.

Lemma sameShape_trans (c1 c2 c3 : Config) :
  sameShape c1 c2 -> sameShape c2 c3 -> sameShape c1 c3.
Proof.
  destruct c1 as [fs1|], c2 as [fs2|], c3 as [fs3|]; simpl; try tauto.
  intros H12. revert fs3. induction H12 as [|f g fs gs Hd _ IH]; intros fs3 H23.
  - inversion H23. constructor.
  - inversion H23; subst. constructor; eauto using sameDescr_trans.
Qed.

(** Each pass leaves a configuration of the same shape. *)
Lemma SetDefaults_sameShape (w : World) : sameShape (config w) (config (snd (SetDefaults w))).
Proof.
  destruct (config w) as [fs|] eqn:Hc.
  - rewrite (SetDefaults_struct ToKebabCase ParseFloat float32 w fs Hc). cbn [snd config].
    destruct (defaultsRun fs (stdout w)) as [[r fs'] out'] eqn:Hl.
    simpl. eapply passLoop_sameDescr; eauto.
  - unfold Flag.SetDefaults. rewrite Hc. cbn [snd]. rewrite Hc. exact I.
Qed.

Lemma ParseEnv_sameShape env (w : World) :
  sameShape (config w) (config (snd (ParseEnv env w))).
Proof.
  destruct (config w) as [fs|] eqn:Hc.
  - rewrite (ParseEnv_struct ToKebabCase ToConstantCase ParseFloat float32 env w fs Hc).
    cbn [snd config].
    destruct (envRun env fs (stdout w)) as [[r fs'] out'] eqn:Hl.
    simpl. eapply passLoop_sameDescr; eauto.
  - unfold Flag.ParseEnv. rewrite Hc. cbn [snd]. rewrite Hc. exact I.
Qed.

Lemma ParseArgs_sameShape args (w : World) :
  sameShape (config w) (config (snd (ParseArgs args w))).
Proof.
  destruct (config w) as [fs|] eqn:Hc.
  - rewrite (ParseArgs_struct ToKebabCase ParseFloat float32 args w fs Hc).
    cbn [snd config].
    destruct (flagsRun (snd (Args.ParseArgs args)) fs (stdout w))
      as [[r fs'] out'] eqn:Hl.
    simpl. eapply passLoop_sameDescr; eauto.
  - unfold Flag.ParseArgs. destruct (Args.ParseArgs args). rewrite Hc. cbn [snd].
    rewrite Hc. exact I.
Qed.

Lemma ParseAll_sameShape env args (w : World) :
  sameShape (config w) (config (snd (ParseAll env args w))).
Proof.
  unfold Flag.ParseAll.
  pose proof (SetDefaults_sameShape w) as H1.
  destruct (SetDefaults w) as [[[e1|]|p1] w1]; cbn [snd] in *; try exact H1.
  pose proof (ParseEnv_sameShape env w1) as H2.
  destruct (ParseEnv env w1) as [[[e2|]|p2] w2]; cbn [snd] in *;
    try (eapply sameShape_trans; eauto; fail).
  destruct (helpRequested args).
  - cbn [snd config]. eapply sameShape_trans; eauto.
  - pose proof (ParseArgs_sameShape args w2) as H3.
    destruct (ParseArgs args w2) as [[[o [e3|]]|p3] w3]; cbn [snd] in *;
      eapply sameShape_trans; eauto using sameShape_trans.
Qed.

(** X14: no pass changes the name, type, tags or settability of a field,
    or the number of fields: SetDefaults, ParseEnv, ParseArgs and ParseAll
    write value slots only, whatever their outcome; so the usage text of
    the configuration is the same after ParseAll as before. *)
Theorem X14_passes_write_values_only
    (env : gmap string string) (args : list string) (w : World) :
  sameShape (config w) (config (snd (SetDefaults w))) /\
  sameShape (config w) (config (snd (ParseEnv env w))) /\
  sameShape (config w) (config (snd (ParseArgs args w))) /\
  sameShape (config w) (config (snd (ParseAll env args w))) /\
  forall out, PrintDefaults (config (snd (ParseAll env args w))) out
              = PrintDefaults (config w) out.
Proof.
  split; [apply SetDefaults_sameShape|].
  split; [apply ParseEnv_sameShape|].
  split; [apply ParseArgs_sameShape|].
  split; [apply ParseAll_sameShape|].
  intros out. apply PrintDefaults_sameShape, ParseAll_sameShape.
Qed.

(** What a pass that returned without error was run on. *)
Lemma SetDefaults_ok_inv (w w' : World) :
  SetDefaults w = (Return None, w') ->
  exists fs fs', config w = Struct fs /\
    w' = {| config := Struct fs'; stdout := stdout w |} /\
    defaultsRun fs (stdout w) = (Return None, fs', stdout w).
Proof.
  destruct (config w) as [fs|] eqn:Hc.
  - rewrite (SetDefaults_struct ToKebabCase ParseFloat float32 w fs Hc).
    destruct (defaultsRun fs (stdout w)) as [[r fs'] out'] eqn:Hl. cbn [fst snd].
    intros [= -> <-]. exists fs, fs'. split; [reflexivity|]. split; [reflexivity|].
    destruct (passLoop_ok _ _ _ _ _ _ _ _ _ _ _ _ _ Hl) as [-> _]. exact Hl.
  - unfold Flag.SetDefaults. rewrite Hc. discriminate.
Qed.

Lemma ParseEnv_ok_inv env (w w' : World) :
  ParseEnv env w = (Return None, w') ->
  exists fs fs', config w = Struct fs /\
    w' = {| config := Struct fs'; stdout := stdout w |} /\
    envRun env fs (stdout w) = (Return None, fs', stdout w).
Proof.
  destruct (config w) as [fs|] eqn:Hc.
  - rewrite (ParseEnv_struct ToKebabCase ToConstantCase ParseFloat float32 env w fs Hc).
    destruct (envRun env fs (stdout w)) as [[r fs'] out'] eqn:Hl. cbn [fst snd].
    intros [= -> <-]. exists fs, fs'. split; [reflexivity|].
    destruct (passLoop_ok _ _ _ _ _ _ _ _ _ _ _ _ _ Hl) as [-> _].
    split; [reflexivity|exact Hl].
  - unfold Flag.ParseEnv. rewrite Hc. discriminate.
Qed.

Lemma ParseArgs_ok_inv args (w w' : World) (outArgs : option (list string)) :
  ParseArgs args w = (Return (outArgs, None), w') ->
  exists fs fs', config w = Struct fs /\
    outArgs = Some (fst (Args.ParseArgs args)) /\
    w' = {| config := Struct fs'; stdout := stdout w |} /\
    flagsRun (snd (Args.ParseArgs args)) fs (stdout w) = (Return None, fs', stdout w).
Proof.
  destruct (config w) as [fs|] eqn:Hc.
  - rewrite (ParseArgs_struct ToKebabCase ParseFloat float32 args w fs Hc). cbv zeta.
    destruct (flagsRun (snd (Args.ParseArgs args)) fs (stdout w))
      as [[r fs'] out'] eqn:Hl. cbn [fst snd].
    destruct r as [[e|]|p]; intros [= <- <-].
    exists fs, fs'. split; [reflexivity|]. split; [reflexivity|].
    destruct (passLoop_ok _ _ _ _ _ _ _ _ _ _ _ _ _ Hl) as [-> _].
    split; [reflexivity|exact Hl].
  - unfold Flag.ParseArgs. destruct (Args.ParseArgs args). rewrite Hc. discriminate.
Qed.

(** X15: a pass that has returned without error, run again on the
    configuration it left, returns without error and changes nothing:
    SetDefaults, ParseEnv (same environment) and ParseArgs (same
    arguments) are idempotent. *)
Theorem X15_passes_idempotent
    (env : gmap string string) (args : list string) (w w' : World) :
  (SetDefaults w = (Return None, w') -> SetDefaults w' = (Return None, w')) /\
  (ParseEnv env w = (Return None, w') -> ParseEnv env w' = (Return None, w')) /\
  (forall outArgs, ParseArgs args w = (Return (outArgs, None), w') ->
     ParseArgs args w' = (Return (outArgs, None), w')).
Proof.
  repeat apply conj.
  - intros H. destruct (SetDefaults_ok_inv w w' H) as (fs & fs' & Hc & -> & Hl).
    pose proof (passLoop_length _ _ _ _ _ _ _ _ _ _ _ _ _ _ Hl) as Hlen.
    rewrite (SetDefaults_struct ToKebabCase ParseFloat float32
               {| config := Struct fs'; stdout := stdout w |} fs' eq_refl).
    cbn [stdout]. rewrite Hlen.
    rewrite (passLoop_idem ToKebabCase ParseFloat float32 _ _ _ _ _ _ _ _ _ _
               defaultSrc_sameDescr Hl). reflexivity.
  - intros H. destruct (ParseEnv_ok_inv env w w' H) as (fs & fs' & Hc & -> & Hl).
    pose proof (passLoop_length _ _ _ _ _ _ _ _ _ _ _ _ _ _ Hl) as Hlen.
    rewrite (ParseEnv_struct ToKebabCase ToConstantCase ParseFloat float32 env
               {| config := Struct fs'; stdout := stdout w |} fs' eq_refl).
    cbn [stdout]. rewrite Hlen.
    rewrite (passLoop_idem ToKebabCase ParseFloat float32 _ _ _ _ _ _ _ _ _ _
               (envSrc_sameDescr env) Hl). reflexivity.
  - intros outArgs H.
    destruct (ParseArgs_ok_inv args w w' outArgs H) as (fs & fs' & Hc & -> & -> & Hl).
    pose proof (passLoop_length _ _ _ _ _ _ _ _ _ _ _ _ _ _ Hl) as Hlen.
    rewrite (ParseArgs_struct ToKebabCase ParseFloat float32 args
               {| config := Struct fs'; stdout := stdout w |} fs' eq_refl).
    cbv zeta. cbn [stdout]. rewrite Hlen.
    rewrite (passLoop_idem ToKebabCase ParseFloat float32 _ _ _ _ _ _ _ _ _ _
               (flagSrc_sameDescr _) Hl). reflexivity.
Qed.

(** X16: when ParseAll returns without error and no help flag is among
    the arguments, it returns the positional arguments of the tokenizer,
    writes nothing, and every field has been resolved from one source by
    precedence: its flag (short key first, then long key), else its
    environment variable, else its default tag (if the field is settable
    and the tag is not empty), coerced as SetField does; a field with no
    source keeps the value it had. *)
Theorem X16_resolution_order
    (env : gmap string string) (args : list string) (w w' : World)
    (fs : list Field) (outArgs : option (list string)) :
  config w = Struct fs ->
  helpRequested args = false ->
  ParseAll env args w = (Return (outArgs, None), w') ->
  outArgs = Some (fst (Args.ParseArgs args)) /\
  stdout w' = stdout w /\
  exists fs', config w' = Struct fs' /\ length fs' = length fs /\
    forall j f, fs !! j = Some f ->
      match resolvedFrom env (snd (Args.ParseArgs args)) f with
      | Some (v, present) =>
          exists f', SetField f v present = SetOk f' /\ fs' !! j = Some f'
      | None => fs' !! j = Some f
      end.
Proof.
  intros Hc Hhelp H. unfold Flag.ParseAll in H.
  destruct (SetDefaults w) as [[[e1|]|p1] w1] eqn:H1; try discriminate.
  destruct (ParseEnv env w1) as [[[e2|]|p2] w2] eqn:H2; try discriminate.
  rewrite Hhelp in H.
  destruct (ParseArgs args w2) as [[[o [e3|]]|p3] w3] eqn:H3; try discriminate.
  injection H as -> ->.
  destruct (SetDefaults_ok_inv w w1 H1) as (fs0 & fs1 & Hc0 & -> & Hl1).
  assert (fs0 = fs) by congruence. subst fs0.
  destruct (ParseEnv_ok_inv env _ w2 H2) as (fsa & fs2 & Hca & -> & Hl2).
  cbn [config stdout] in Hca, Hl2. injection Hca as <-.
  destruct (ParseArgs_ok_inv args _ w' outArgs H3) as (fsb & fs3 & Hcb & -> & -> & Hl3).
  cbn [config stdout] in Hcb, Hl3. injection Hcb as <-.
  split; [reflexivity|]. split; [reflexivity|].
  exists fs3. split; [reflexivity|]. split.
  { rewrite (passLoop_length _ _ _ _ _ _ _ _ _ _ _ _ _ _ Hl3),
            (passLoop_length _ _ _ _ _ _ _ _ _ _ _ _ _ _ Hl2).
    exact (passLoop_length _ _ _ _ _ _ _ _ _ _ _ _ _ _ Hl1). }
  destruct (passLoop_resolved _ _ _ _ _ _ _ _ _ _ _ Hl1) as [_ R1].
  destruct (passLoop_resolved _ _ _ _ _ _ _ _ _ _ _ Hl2) as [_ R2].
  destruct (passLoop_resolved _ _ _ _ _ _ _ _ _ _ _ Hl3) as [_ R3].
  intros j f Hf.
  destruct (passLoop_descr _ _ _ _ _ _ _ _ _ _ _ _ _ _ j f Hl1 Hf) as (f1 & Hf1 & Hd1).
  destruct (passLoop_descr _ _ _ _ _ _ _ _ _ _ _ _ _ _ j f1 Hl2 Hf1) as (f2 & Hf2 & Hd2).
  pose proof (R1 j f Hf) as S1. pose proof (R2 j f1 Hf1) as S2.
  pose proof (R3 j f2 Hf2) as S3.
  rewrite (envSrc_sameDescr env f f1 Hd1) in S2.
  rewrite (flagSrc_sameDescr _ f f2 (sameDescr_trans _ _ _ Hd1 Hd2)) in S3.
  unfold resolvedFrom.
  destruct (flagSrc (snd (Args.ParseArgs args)) f) as [v3|].
  - destruct S3 as (f3 & Hs & Hf3). exists f3. split; [|exact Hf3].
    rewrite <- Hs. symmetry. apply SetField_sameDescr.
    eapply sameDescr_trans; eauto.
  - destruct (envSrc env f) as [v2|].
    + destruct S2 as (f2' & Hs & Hf2'). exists f2'. split; [|congruence].
      rewrite <- Hs. symmetry. now apply SetField_sameDescr.
    + destruct (defaultSrc f) as [d|].
      * destruct S1 as (f1' & Hs & Hf1'). exists f1'. split; [exact Hs|congruence].
      * congruence.
Qed.

(** X21: in the flags pass a value under the short key of a field wins
    over a value under its long key: when ParseArgs returns without
    error, a field whose short key is in the tokenizer's mapping holds
    the coerced value of that key, whatever the long key maps to. *)
Theorem X21_short_key_wins
    (args : list string) (w w' : World) (fs : list Field)
    (outArgs : option (list string)) (j : nat) (f : Field) (v : string) :
  config w = Struct fs ->
  ParseArgs args w = (Return (outArgs, None), w') ->
  fs !! j = Some f ->
  snd (Args.ParseArgs args) !! Get (Tag f) "short" = Some v ->
  exists f' fs', SetField f v true = SetOk f' /\
    config w' = Struct fs' /\ fs' !! j = Some f'.
Proof.
  intros Hc H Hf Hshort.
  destruct (ParseArgs_ok_inv args w w' outArgs H) as (fs0 & fs' & Hc0 & _ & -> & Hl).
  assert (fs0 = fs) by congruence. subst fs0.
  destruct (passLoop_resolved _ _ _ _ _ _ _ _ _ _ _ Hl) as [_ R].
  pose proof (R j f Hf) as S. unfold flagSrc in S. rewrite Hshort in S.
  destruct S as (f' & Hs & Hf'). exists f', fs'. auto.
Qed.

(** A field a pass has no source text for is left as it is. *)
Lemma SetDefaults_skips (w : World) (fs : list Field) (j : nat) (f : Field) :
  config w = Struct fs -> fs !! j = Some f -> defaultSrc f = None ->
  exists fs', config (snd (SetDefaults w)) = Struct fs' /\ fs' !! j = Some f.
Proof.
  intros Hc Hf Hs.
  rewrite (SetDefaults_struct ToKebabCase ParseFloat float32 w fs Hc). cbn [snd config].
  destruct (defaultsRun fs (stdout w)) as [[r fs'] out'] eqn:Hl.
  exists fs'. split; [reflexivity|]. eapply passLoop_unset; eauto.
Qed.

Lemma ParseEnv_skips env (w : World) (fs : list Field) (j : nat) (f : Field) :
  config w = Struct fs -> fs !! j = Some f -> envSrc env f = None ->
  exists fs', config (snd (ParseEnv env w)) = Struct fs' /\ fs' !! j = Some f.
Proof.
  intros Hc Hf Hs.
  rewrite (ParseEnv_struct ToKebabCase ToConstantCase ParseFloat float32 env w fs Hc).
  cbn [snd config].
  destruct (envRun env fs (stdout w)) as [[r fs'] out'] eqn:Hl.
  exists fs'. split; [reflexivity|]. eapply passLoop_unset; eauto.
Qed.

Lemma ParseArgs_skips args (w : World) (fs : list Field) (j : nat) (f : Field) :
  config w = Struct fs -> fs !! j = Some f ->
  flagSrc (snd (Args.ParseArgs args)) f = None ->
  exists fs', config (snd (ParseArgs args w)) = Struct fs' /\ fs' !! j = Some f.
Proof.
  intros Hc Hf Hs.
  rewrite (ParseArgs_struct ToKebabCase ParseFloat float32 args w fs Hc).
  cbn [snd config].
  destruct (flagsRun (snd (Args.ParseArgs args)) fs (stdout w))
    as [[r fs'] out'] eqn:Hl.
  exists fs'. split; [reflexivity|]. eapply passLoop_unset; eauto.
Qed.

(** X17: whatever its outcome (success, error, panic or help), ParseAll
    leaves a field as it is when the field has no default to apply (it is
    not settable or its default tag is empty), its environment variable
    is not set, and neither its short key nor its long key is in the
    tokenizer's mapping; SetDefaults alone leaves alone every field with
    no default to apply. *)
Theorem X17_fields_without_source_untouched
    (env : gmap string string) (args : list string) (w : World)
    (fs : list Field) (j : nat) (f : Field) :
  config w = Struct fs -> fs !! j = Some f ->
  CanSet f = false \/ Get (Tag f) "default" = "" ->
  (exists fs', config (snd (SetDefaults w)) = Struct fs' /\ fs' !! j = Some f) /\
  (env !! envNameOf f = None ->
   snd (Args.ParseArgs args) !! Get (Tag f) "short" = None ->
   snd (Args.ParseArgs args) !! flagNameOf f = None ->
   exists fs', config (snd (ParseAll env args w)) = Struct fs' /\ fs' !! j = Some f).
Proof.
  intros Hc Hf Hdef.
  assert (Hd : defaultSrc f = None).
  { unfold defaultSrc. destruct Hdef as [->| ->]; [reflexivity|].
    now destruct (negb (CanSet f)). }
  pose proof (SetDefaults_skips w fs j f Hc Hf Hd) as (fs1 & Hc1 & Hf1).
  split; [eauto|]. intros Henv Hshort Hlong.
  assert (Hfl : flagSrc (snd (Args.ParseArgs args)) f = None).
  { unfold flagSrc. now rewrite Hshort, Hlong. }
  unfold Flag.ParseAll.
  destruct (SetDefaults w) as [[[e1|]|p1] w1]; cbn [snd] in *; eauto.
  pose proof (ParseEnv_skips env w1 fs1 j f Hc1 Hf1 Henv) as (fs2 & Hc2 & Hf2).
  destruct (ParseEnv env w1) as [[[e2|]|p2] w2]; cbn [snd] in *; eauto.
  destruct (helpRequested args); [cbn [snd config]; eauto|].
  pose proof (ParseArgs_skips args w2 fs2 j f Hc2 Hf2 Hfl) as (fs3 & Hc3 & Hf3).
  destruct (ParseArgs args w2) as [[[o [e3|]]|p3] w3]; cbn [snd] in *; eauto.
Qed.

(** Plain fields stay plain. *)
Lemma plainFields_sameShape (c c' : Config) :
  sameShape c c' -> plainFields c -> plainFields c'.
Proof.
  destruct c as [fs|], c' as [fs'|]; simpl; try tauto.
  intros H. induction H as [|f f' fs fs' Hd _ IH]; [constructor|].
  intros Hp. inversion Hp as [|? ? (Hs & Hi & Hk) Hrest]; subst.
  constructor; [|auto].
  destruct Hd as (_ & Ht & _ & Hcs). unfold plainField. rewrite Ht, Hcs. auto.
Qed.

Lemma passLoop_plain src present mkErr render n i fs out r fs' out' :
  loop src present mkErr render n i fs out = (r, fs', out') ->
  Forall plainField fs -> forall p, r <> Panics p.
Proof.
  intros H Hp. eapply passLoop_no_panic; [exact H|].
  intros j f Hf. exact (proj1 (Forall_lookup _ _) Hp j f Hf).
Qed.

Lemma SetDefaults_no_panic (w : World) (p : panic) :
  plainFields (config w) -> fst (SetDefaults w) <> Panics p.
Proof.
  destruct (config w) as [fs|] eqn:Hc; simpl.
  - rewrite (SetDefaults_struct ToKebabCase ParseFloat float32 w fs Hc). cbn [fst].
    destruct (defaultsRun fs (stdout w)) as [[r fs'] out'] eqn:Hl. cbn [fst].
    intros Hp. eapply passLoop_plain; eauto.
  - unfold Flag.SetDefaults. rewrite Hc. discriminate.
Qed.

Lemma ParseEnv_no_panic env (w : World) (p : panic) :
  plainFields (config w) -> fst (ParseEnv env w) <> Panics p.
Proof.
  destruct (config w) as [fs|] eqn:Hc; simpl.
  - rewrite (ParseEnv_struct ToKebabCase ToConstantCase ParseFloat float32 env w fs Hc).
    cbn [fst].
    destruct (envRun env fs (stdout w)) as [[r fs'] out'] eqn:Hl. cbn [fst].
    intros Hp. eapply passLoop_plain; eauto.
  - unfold Flag.ParseEnv. rewrite Hc. discriminate.
Qed.

Lemma ParseArgs_no_panic args (w : World) (p : panic) :
  plainFields (config w) -> fst (ParseArgs args w) <> Panics p.
Proof.
  destruct (config w) as [fs|] eqn:Hc; simpl.
  - rewrite (ParseArgs_struct ToKebabCase ParseFloat float32 args w fs Hc).
    cbn [fst].
    destruct (flagsRun (snd (Args.ParseArgs args)) fs (stdout w))
      as [[r fs'] out'] eqn:Hl. cbn [fst].
    intros Hp. pose proof (passLoop_plain _ _ _ _ _ _ _ _ _ _ _ Hl Hp) as Hr.
    destruct r as [[e|]|q]; [discriminate|discriminate|].
    now destruct (Hr q).
  - unfold Flag.ParseArgs. destruct (Args.ParseArgs args). rewrite Hc. discriminate.
Qed.

(** X18: on a configuration all of whose fields are settable, of types
    that do not implement [encoding.TextUnmarshaler] and, if slices of
    strings, with [string] itself as element type, no pass panics, and
    neither does ParseAll: each returns, with or without an error. *)
Theorem X18_plain_configurations_do_not_panic
    (env : gmap string string) (args : list string) (w : World) (p : panic) :
  plainFields (config w) ->
  fst (SetDefaults w) <> Panics p /\
  fst (ParseEnv env w) <> Panics p /\
  fst (ParseArgs args w) <> Panics p /\
  fst (ParseAll env args w) <> Panics p.
Proof.
  intros Hp.
  split; [now apply SetDefaults_no_panic|].
  split; [now apply ParseEnv_no_panic|].
  split; [now apply ParseArgs_no_panic|].
  unfold Flag.ParseAll.
  pose proof (SetDefaults_no_panic w) as N1.
  pose proof (plainFields_sameShape _ _ (SetDefaults_sameShape w) Hp) as P1.
  destruct (SetDefaults w) as [[[e1|]|p1] w1]; cbn [fst snd] in *;
    [discriminate| |now destruct (N1 p1)].
  pose proof (ParseEnv_no_panic env w1) as N2.
  pose proof (plainFields_sameShape _ _ (ParseEnv_sameShape env w1) P1) as P2.
  destruct (ParseEnv env w1) as [[[e2|]|p2] w2]; cbn [fst snd] in *;
    [discriminate| |now destruct (N2 p2)].
  destruct (helpRequested args); [discriminate|].
  pose proof (ParseArgs_no_panic args w2) as N3.
  destruct (ParseArgs args w2) as [[[o [e3|]]|p3] w3]; cbn [fst snd] in *;
    [discriminate|discriminate|now destruct (N3 p3)].
Qed.

(** What a pass that returned an error has done. *)
Lemma passLoop_partial src present mkErr render fs out err fs' out' :
  loop src present mkErr render (length fs) 0 fs out = (Return (Some err), fs', out') ->
  exists j f v e,
    fs !! j = Some f /\ src f = Some v /\ SetField f v present = SetErr e /\
    err = mkErr f e /\
    (forall k, j <= k -> fs' !! k = fs !! k) /\
    (forall k f0 v0, k < j -> fs !! k = Some f0 -> src f0 = Some v0 ->
       exists f', SetField f0 v0 present = SetOk f' /\ fs' !! k = Some f').
Proof.
  intros H.
  destruct (passLoop_err _ _ _ _ _ _ _ _ _ _ _ _ _ _ H)
    as (j & f & v & e & _ & Hf & _ & Hs & He & -> & _ & Hfrom & Hbefore).
  exists j, f, v, e. repeat (split; [assumption || reflexivity|]).
  intros k f0 v0 Hk. apply Hbefore. lia.
Qed.

(** X19: a pass does not undo what it has done when it fails.  When
    ParseEnv or ParseArgs returns an error, the error comes from the first
    field, in declaration order, whose value fails to coerce; every field
    before it that has a value keeps the value it was assigned, and the
    failing field and all fields after it are as they were. *)
Theorem X19_failed_pass_keeps_earlier_assignments
    (env : gmap string string) (args : list string) (w w' : World)
    (fs : list Field) (err : error) :
  config w = Struct fs ->
  (ParseEnv env w = (Return (Some err), w') ->
   exists j f v e fs',
     config w' = Struct fs' /\
     fs !! j = Some f /\ envSrc env f = Some v /\ SetField f v true = SetErr e /\
     (forall k, j <= k -> fs' !! k = fs !! k) /\
     (forall k f0 v0, k < j -> fs !! k = Some f0 -> envSrc env f0 = Some v0 ->
        exists f', SetField f0 v0 true = SetOk f' /\ fs' !! k = Some f')) /\
  (forall outArgs, ParseArgs args w = (Return (outArgs, Some err), w') ->
   exists j f v e fs',
     config w' = Struct fs' /\
     fs !! j = Some f /\ flagSrc (snd (Args.ParseArgs args)) f = Some v /\
     SetField f v true = SetErr e /\
     (forall k, j <= k -> fs' !! k = fs !! k) /\
     (forall k f0 v0, k < j -> fs !! k = Some f0 ->
        flagSrc (snd (Args.ParseArgs args)) f0 = Some v0 ->
        exists f', SetField f0 v0 true = SetOk f' /\ fs' !! k = Some f')).
Proof.
  intros Hc. split.
  - rewrite (ParseEnv_struct ToKebabCase ToConstantCase ParseFloat float32 env w fs Hc).
    destruct (envRun env fs (stdout w)) as [[r fs'] out'] eqn:Hl. cbn [fst snd].
    intros [= -> <-].
    destruct (passLoop_partial _ _ _ _ _ _ _ _ _ Hl)
      as (j & f & v & e & Hf & Hs & He & _ & Hfrom & Hbefore).
    exists j, f, v, e, fs'. repeat (split; [assumption || reflexivity|]). exact Hbefore.
  - intros outArgs.
    rewrite (ParseArgs_struct ToKebabCase ParseFloat float32 args w fs Hc). cbv zeta.
    destruct (flagsRun (snd (Args.ParseArgs args)) fs (stdout w))
      as [[r fs'] out'] eqn:Hl. cbn [fst snd].
    destruct r as [[e0|]|p]; intros [= <- <- <-].
    destruct (passLoop_partial _ _ _ _ _ _ _ _ _ Hl)
      as (j & f & v & e & Hf & Hs & He & _ & Hfrom & Hbefore).
    exists j, f, v, e, fs'. repeat (split; [assumption || reflexivity|]). exact Hbefore.
Qed.

(** What a rendering pass writes. *)
Lemma passLoop_stdout src present mkErr n i fs out r fs' out' :
  loop src present mkErr true n i fs out = (r, fs', out') ->
  out' = match r with
         | Return (Some _) => PrintDefaults (Struct fs) out
         | _ => out
         end.
Proof.
  intros H. destruct r as [[e|]|p].
  - destruct (passLoop_err _ _ _ _ _ _ _ _ _ _ _ _ _ _ H)
      as (j & f & v & e' & _ & _ & _ & _ & _ & _ & -> & _).
    apply (PrintDefaults_sameShape ToKebabCase (Struct fs) (Struct fs')).
    simpl. eapply passLoop_sameDescr; eauto.
  - now destruct (passLoop_ok _ _ _ _ _ _ _ _ _ _ _ _ _ H).
  - destruct (passLoop_out _ _ _ _ _ _ _ _ _ _ _ _ _ _ H) as [_ Hp]. eauto.
Qed.

Lemma SetDefaults_stdout (w : World) : stdout (snd (SetDefaults w)) = stdout w.
Proof.
  destruct (config w) as [fs|] eqn:Hc.
  - now rewrite (SetDefaults_struct ToKebabCase ParseFloat float32 w fs Hc).
  - unfold Flag.SetDefaults. now rewrite Hc.
Qed.

Lemma ParseEnv_stdout env (w : World) (fs : list Field) :
  config w = Struct fs ->
  stdout (snd (ParseEnv env w))
  = match fst (ParseEnv env w) with
    | Return (Some _) => PrintDefaults (config w) (stdout w)
    | _ => stdout w
    end.
Proof.
  intros Hc.
  rewrite (ParseEnv_struct ToKebabCase ToConstantCase ParseFloat float32 env w fs Hc).
  cbn [fst snd stdout]. rewrite Hc.
  destruct (envRun env fs (stdout w)) as [[r fs'] out'] eqn:Hl. cbn [fst snd].
  eapply passLoop_stdout; eauto.
Qed.

Lemma ParseArgs_stdout args (w : World) (fs : list Field) :
  config w = Struct fs ->
  stdout (snd (ParseArgs args w))
  = match fst (ParseArgs args w) with
    | Return (_, Some _) => PrintDefaults (config w) (stdout w)
    | _ => stdout w
    end.
Proof.
  intros Hc.
  rewrite (ParseArgs_struct ToKebabCase ParseFloat float32 args w fs Hc).
  cbv zeta. cbn [fst snd stdout]. rewrite Hc.
  destruct (flagsRun (snd (Args.ParseArgs args)) fs (stdout w))
    as [[r fs'] out'] eqn:Hl. cbn [fst snd].
  rewrite (passLoop_stdout _ _ _ _ _ _ _ _ _ _ Hl).
  now destruct r as [[e|]|p].
Qed.

(** X20: what ParseAll writes and returns, by outcome.  It writes either
    nothing or exactly one usage text, that of the configuration it was
    given.  On a panic nothing is written.  An error is returned with no
    positional arguments; it is wrapped as a defaults error, and nothing
    is written, or as an environment or command-line error, and the
    usage text is written.  Without error, a help flag among the
    arguments gives the usage text and no positional arguments;
    otherwise nothing is written and the tokenizer's positional
    arguments are returned. *)
Theorem X20_output_by_outcome
    (env : gmap string string) (args : list string) (w w' : World)
    (r : Result (option (list string) * option error)) :
  ParseAll env args w = (r, w') ->
  match r with
  | Panics _ => stdout w' = stdout w
  | Return (outArgs, Some err) =>
      outArgs = None /\
      ((exists e, err = Errorf "error setting default values: %v" [] e) /\
       stdout w' = stdout w \/
       (exists e, err = Errorf "error parsing environment variables: %v" [] e \/
                  helpRequested args = false /\
                  err = Errorf "error parsing command-line arguments: %v" [] e) /\
       stdout w' = PrintDefaults (config w) (stdout w))
  | Return (outArgs, None) =>
      if helpRequested args
      then outArgs = None /\ stdout w' = PrintDefaults (config w) (stdout w)
      else outArgs = Some (fst (Args.ParseArgs args)) /\ stdout w' = stdout w
  end.
Proof.
  unfold Flag.ParseAll.
  pose proof (SetDefaults_stdout w) as O1.
  pose proof (SetDefaults_sameShape w) as Sh1.
  destruct (SetDefaults w) as [[[e1|]|p1] w1] eqn:H1; cbn [fst snd] in *.
  - intros [= <- <-]. split; [reflexivity|]. left. eauto.
  - destruct (SetDefaults_ok_inv w w1 H1) as (fs & fs1 & Hc & Hw1 & _).
    assert (Hc1 : config w1 = Struct fs1) by now subst w1.
    pose proof (ParseEnv_stdout env w1 fs1 Hc1) as O2.
    pose proof (ParseEnv_sameShape env w1) as Sh2.
    rewrite (PrintDefaults_sameShape ToKebabCase _ _ _ Sh1), O1 in O2.
    destruct (ParseEnv env w1) as [[[e2|]|p2] w2] eqn:H2; cbn [fst snd] in *.
    + intros [= <- <-]. split; [reflexivity|]. right. eauto.
    + destruct (ParseEnv_ok_inv env w1 w2 H2) as (fsa & fs2 & _ & Hw2 & _).
      assert (Hc2 : config w2 = Struct fs2) by now subst w2.
      pose proof (sameShape_trans _ _ _ Sh1 Sh2) as Sh12.
      destruct (helpRequested args) eqn:Hh.
      * intros [= <- <-]. split; [reflexivity|]. cbn [stdout]. rewrite O2.
        apply PrintDefaults_sameShape. exact Sh12.
      * pose proof (ParseArgs_stdout args w2 fs2 Hc2) as O3.
        rewrite (PrintDefaults_sameShape ToKebabCase _ _ _ Sh12), O2 in O3.
        destruct (ParseArgs args w2) as [[[o [e3|]]|p3] w3] eqn:H3; cbn [fst snd] in *.
        -- intros [= <- <-]. split; [reflexivity|]. right. eauto.
        -- intros [= <- <-].
           destruct (ParseArgs_ok_inv args w2 w3 o H3) as (_ & _ & _ & -> & _).
           split; [reflexivity|exact O3].
        -- intros [= <- <-]. exact O3.
    + intros [= <- <-]. exact O2.
  - intros [= <- <-]. exact O1.
Qed.

(** X22: ParseAll is idempotent.  When it has returned without error,
    with no help flag among the arguments, a second call with the same
    environment and arguments on the configuration it left returns the
    same positional arguments without error and leaves every field and
    standard output as they are. *)
Theorem X22_ParseAll_idempotent
    (env : gmap string string) (args : list string) (w w' : World)
    (outArgs : option (list string)) :
  helpRequested args = false ->
  ParseAll env args w = (Return (outArgs, None), w') ->
  ParseAll env args w' = (Return (outArgs, None), w').
Proof.
  intros Hhelp H. unfold Flag.ParseAll in H.
  destruct (SetDefaults w) as [[[e1|]|p1] w1] eqn:H1; try discriminate.
  destruct (ParseEnv env w1) as [[[e2|]|p2] w2] eqn:H2; try discriminate.
  rewrite Hhelp in H.
  destruct (ParseArgs args w2) as [[[o [e3|]]|p3] w3] eqn:H3; try discriminate.
  injection H as -> ->.
  destruct (SetDefaults_ok_inv w w1 H1) as (fs & fs1 & Hc & -> & Hl1).
  destruct (ParseEnv_ok_inv env _ w2 H2) as (fsa & fs2 & Hca & -> & Hl2).
  cbn [config stdout] in Hca, Hl2. injection Hca as <-.
  destruct (ParseArgs_ok_inv args _ w' outArgs H3) as (fsb & fs3 & Hcb & -> & -> & Hl3).
  cbn [config stdout] in Hcb, Hl3. injection Hcb as <-.
  pose proof (passLoop_sameDescr _ _ _ _ _ _ _ _ _ _ _ _ _ _ Hl1) as D1.
  pose proof (passLoop_sameDescr _ _ _ _ _ _ _ _ _ _ _ _ _ _ Hl2) as D2.
  pose proof (passLoop_sameDescr _ _ _ _ _ _ _ _ _ _ _ _ _ _ Hl3) as D3.
  pose proof (Forall2_length _ _ _ D1) as L1.
  pose proof (Forall2_length _ _ _ D2) as L2.
  pose proof (Forall2_length _ _ _ D3) as L3.
  pose proof (sameShape_trans (Struct fs1) (Struct fs2) (Struct fs3) D2 D3) as D23.
  pose proof (sameShape_trans (Struct fs) (Struct fs1) (Struct fs3) D1 D23) as D13.
  simpl in D23, D13.
  destruct (passLoop_rerun ToKebabCase ParseFloat float32 _ _ _ _ _ _ _ fs3 _
              (stdout w) _ _ defaultSrc_sameDescr D13 Hl1) as (gs1 & R1 & Rel1).
  pose proof (passLoop_sameDescr _ _ _ _ _ _ _ _ _ _ _ _ _ _ R1) as E1.
  pose proof (sameShape_trans (Struct fs1) (Struct fs3) (Struct gs1) D23 E1) as F1.
  simpl in F1.
  destruct (passLoop_rerun ToKebabCase ParseFloat float32 _ _ _ _ _ _ _ gs1 _
              (stdout w) _ _ (envSrc_sameDescr env) F1 Hl2) as (gs2 & R2 & Rel2).
  pose proof (passLoop_sameDescr _ _ _ _ _ _ _ _ _ _ _ _ _ _ R2) as E2.
  pose proof (sameShape_trans (Struct fs2) (Struct fs3) (Struct gs1) D3 E1) as F2a.
  pose proof (sameShape_trans (Struct fs2) (Struct gs1) (Struct gs2) F2a E2) as F2.
  simpl in F2.
  destruct (passLoop_rerun ToKebabCase ParseFloat float32 _ _ _ _ _ _ _ gs2 _
              (stdout w) _ _ (flagSrc_sameDescr _) F2 Hl3) as (gs3 & R3 & Rel3).
  assert (Heq : gs3 = fs3).
  { apply list_eq. intros j.
    destruct (Rel3 j) as [[A3 B3]|E3]; [|exact E3].
    destruct (Rel2 j) as [[A2 B2]|E2']; [|congruence].
    destruct (Rel1 j) as [[A1 B1]|E1']; congruence. }
  subst gs3.
  assert (S1 : SetDefaults {| config := Struct fs3; stdout := stdout w |}
               = (Return None, {| config := Struct gs1; stdout := stdout w |})).
  { rewrite (SetDefaults_struct ToKebabCase ParseFloat float32
               {| config := Struct fs3; stdout := stdout w |} fs3 eq_refl).
    cbn [stdout]. replace (length fs3) with (length fs) by congruence.
    rewrite R1. reflexivity. }
  assert (S2 : ParseEnv env {| config := Struct gs1; stdout := stdout w |}
               = (Return None, {| config := Struct gs2; stdout := stdout w |})).
  { rewrite (ParseEnv_struct ToKebabCase ToConstantCase ParseFloat float32 env
               {| config := Struct gs1; stdout := stdout w |} gs1 eq_refl).
    cbn [stdout].
    replace (length gs1) with (length fs1)
      by (rewrite <- (Forall2_length _ _ _ E1); congruence).
    rewrite R2. reflexivity. }
  assert (S3 : ParseArgs args {| config := Struct gs2; stdout := stdout w |}
               = (Return (Some (fst (Args.ParseArgs args)), None),
                  {| config := Struct fs3; stdout := stdout w |})).
  { rewrite (ParseArgs_struct ToKebabCase ParseFloat float32 args
               {| config := Struct gs2; stdout := stdout w |} gs2 eq_refl).
    cbv zeta. cbn [stdout].
    replace (length gs2) with (length fs2)
      by (rewrite <- (Forall2_length _ _ _ E2), <- (Forall2_length _ _ _ E1); congruence).
    rewrite R3. reflexivity. }
  cbn [stdout]. unfold Flag.ParseAll. rewrite S1, S2, Hhelp, S3. reflexivity.
Qed.

End PassesFurther.

(** ** The passes on the configurations of the tests *)

Lemma X15_passes_idempotent_witness :
  Sample.SetDefaults (Sample.world testDefaulted)
  = (Return None, Sample.world testDefaulted) /\
  Sample.ParseEnv testEnv (Sample.world (testResolved "info"))
  = (Return None, Sample.world (testResolved "info")).
Proof.
  split.
  - destruct (X15_passes_idempotent
                Sample.ToKebabCase Sample.ToConstantCase Sample.ParseFloat Sample.float32
                testEnv [] (Sample.world testConfig) (Sample.world testDefaulted))
      as (Hd & _ & _).
    apply Hd. vm_compute. reflexivity.
  - destruct (X15_passes_idempotent
                Sample.ToKebabCase Sample.ToConstantCase Sample.ParseFloat Sample.float32
                testEnv [] (Sample.world testDefaulted)
                (Sample.world (testResolved "info")))
      as (_ & He & _).
    apply He. vm_compute. reflexivity.
Defined.

Lemma X16_resolution_order_witness :
  exists fs' f',
    config (snd (Sample.ParseAll testEnv ["extra"; "--log-level=debug"]
                   (Sample.world testConfig))) = Struct fs' /\
    Sample.SetField
      (Sample.field "HostName" Sample.string_ [("default", "localhost")] (VString ""))
      "example.com" true = SetOk f' /\
    fs' !! 1%nat = Some f'.
Proof.
  destruct (X16_resolution_order
              Sample.ToKebabCase Sample.ToConstantCase Sample.ParseFloat Sample.float32
              testEnv ["extra"; "--log-level=debug"] (Sample.world testConfig)
              (snd (Sample.ParseAll testEnv ["extra"; "--log-level=debug"]
                      (Sample.world testConfig)))
              testConfig (Some ["extra"]) eq_refl eq_refl)
    as (_ & _ & fs' & Hc & _ & Hres).
  - vm_compute. reflexivity.
  - pose proof (Hres 1%nat _ eq_refl) as H1.
    assert (Hr : resolvedFrom Sample.ToKebabCase Sample.ToConstantCase testEnv
                   (snd (Args.ParseArgs ["extra"; "--log-level=debug"]))
                   (Sample.field "HostName" Sample.string_ [("default", "localhost")]
                      (VString ""))
                 = Some ("example.com", true)) by (vm_compute; reflexivity).
    rewrite Hr in H1. destruct H1 as (f' & Hs & Hf').
    exists fs', f'. split; [exact Hc|]. split; [exact Hs|exact Hf'].
Defined.

Lemma X17_fields_without_source_untouched_witness :
  exists fs',
    config (snd (Sample.ParseAll testEnv ["--verbose"; "--timeouts=3"]
                   (Sample.world timeoutConfig))) = Struct fs' /\
    fs' !! 0%nat = Some (Sample.field "Timeout" Sample.int [("flag", "timeout")] (VInt 0)).
Proof.
  destruct (X17_fields_without_source_untouched
              Sample.ToKebabCase Sample.ToConstantCase Sample.ParseFloat Sample.float32
              testEnv ["--verbose"; "--timeouts=3"] (Sample.world timeoutConfig)
              timeoutConfig 0%nat
              (Sample.field "Timeout" Sample.int [("flag", "timeout")] (VInt 0))
              eq_refl eq_refl (or_intror eq_refl))
    as [_ Hall].
  apply Hall; vm_compute; reflexivity.
Defined.

Lemma X18_plain_configurations_do_not_panic_witness :
  fst (Sample.ParseAll testEnv ["--port-number=abc"] (Sample.world testConfig))
  <> Panics NotSettable.
Proof.
  apply (X18_plain_configurations_do_not_panic
           Sample.ToKebabCase Sample.ToConstantCase Sample.ParseFloat Sample.float32
           testEnv ["--port-number=abc"] (Sample.world testConfig) NotSettable).
  simpl. repeat constructor.
Defined.

Lemma X19_failed_pass_keeps_earlier_assignments_witness :
  exists fs',
    config (snd (Sample.ParseArgs ["--host-name=example.com"; "--port-number=abc"]
                   (Sample.world hostPortConfig))) = Struct fs' /\
    fs' !! 0%nat = Some (Sample.field "HostName" Sample.string_ [] (VString "example.com")) /\
    fs' !! 1%nat = hostPortConfig !! 1%nat.
Proof.
  destruct (X19_failed_pass_keeps_earlier_assignments
              Sample.ToKebabCase Sample.ToConstantCase Sample.ParseFloat Sample.float32
              testEnv ["--host-name=example.com"; "--port-number=abc"]
              (Sample.world hostPortConfig)
              (snd (Sample.ParseArgs ["--host-name=example.com"; "--port-number=abc"]
                      (Sample.world hostPortConfig)))
              hostPortConfig
              (Errorf "error parsing flag --%s: %v" ["port-number"]
                 (NumError "ParseInt" "abc" ErrSyntax))
              eq_refl) as [_ Hflags].
  destruct (Hflags None) as (j & f & v & e & fs' & Hc & Hf & Hs & He & Hfrom & Hbefore).
  { vm_compute. reflexivity. }
  exists fs'. split; [exact Hc|].
  destruct j as [|[|j]].
  - injection Hf as <-. discriminate He.
  - split; [|apply Hfrom; lia].
    destruct (Hbefore 0%nat _ "example.com" (Nat.lt_0_succ 0) eq_refl)
      as (f' & Hs' & Hf').
    + vm_compute. reflexivity.
    + rewrite Hf'. f_equal. vm_compute in Hs'. injection Hs' as <-. reflexivity.
  - discriminate Hf.
Defined.

Lemma X20_output_by_outcome_witness :
  stdout (snd (Sample.ParseAll {[ "PORT_NUMBER" := "abc" ]} ["--help"]
                 (Sample.world testConfig)))
  = Sample.PrintDefaults (Struct testConfig) [].
Proof.
  pose proof (X20_output_by_outcome
                Sample.ToKebabCase Sample.ToConstantCase Sample.ParseFloat Sample.float32
                {[ "PORT_NUMBER" := "abc" ]} ["--help"] (Sample.world testConfig)
                (snd (Sample.ParseAll {[ "PORT_NUMBER" := "abc" ]} ["--help"]
                        (Sample.world testConfig)))
                (Return (None,
                   Some (Errorf "error parsing environment variables: %v" []
                           (Errorf "error setting environment variable %s: %v"
                              ["PORT_NUMBER"] (NumError "ParseInt" "abc" ErrSyntax))))))
    as H.
  cbv beta iota in H.
  destruct H as [_ [[[e He] _]|[_ Hs]]].
  - vm_compute. reflexivity.
  - discriminate He.
  - exact Hs.
Defined.

Lemma X21_short_key_wins_witness :
  exists fs',
    config (snd (Sample.ParseArgs ["--port-number=1"; "-p"; "2"]
                   (Sample.world hostPortConfig))) = Struct fs' /\
    fs' !! 1%nat = Some (Sample.field "PortNumber" Sample.int [("short", "p")] (VInt 2)).
Proof.
  destruct (X21_short_key_wins
              Sample.ToKebabCase Sample.ParseFloat Sample.float32
              ["--port-number=1"; "-p"; "2"] (Sample.world hostPortConfig)
              (snd (Sample.ParseArgs ["--port-number=1"; "-p"; "2"]
                      (Sample.world hostPortConfig)))
              hostPortConfig (Some []) 1%nat
              (Sample.field "PortNumber" Sample.int [("short", "p")] (VInt 0)) "2"
              eq_refl)
    as (f' & fs' & Hs & Hc & Hf').
  - vm_compute. reflexivity.
  - reflexivity.
  - vm_compute. reflexivity.
  - exists fs'. split; [exact Hc|]. rewrite Hf'. f_equal.
    vm_compute in Hs. injection Hs as <-. reflexivity.
Defined.

Lemma X22_ParseAll_idempotent_witness :
  Sample.ParseAll testEnv ["extra"; "--log-level=debug"]
    (Sample.world (testResolved "debug"))
  = (Return (Some ["extra"], None), Sample.world (testResolved "debug")).
Proof.
  apply (X22_ParseAll_idempotent
           Sample.ToKebabCase Sample.ToConstantCase Sample.ParseFloat Sample.float32
           testEnv ["extra"; "--log-level=debug"] (Sample.world testConfig)
           (Sample.world (testResolved "debug")) (Some ["extra"])).
  - reflexivity.
  - vm_compute. reflexivity.
Defined.
